(** * Oil-spill simulation: mesh topology and finite-volume solver

    A shallow embedding of [src/simulation/mesh/*.py],
    [src/simulation/simulation.py] and the checks of [config.py].

    Numbers.  The program computes with IEEE binary64 values (Python and
    NumPy floats).  They are modelled by the real numbers [R]: every
    arithmetic operation of the source is the exact operation on [R], and
    every comparison of the source is the comparison on [R].  Statements
    below are therefore statements about the exact-arithmetic reading of
    the code.

    Containers.  A Python [dict] that is only read and written by key is a
    [gmap]; a [dict] whose iteration order is used ([coords.values()],
    [concentration_tmp.items()]) is an insertion-ordered association list
    ([odict]); a Python [list] is a [list].

    Exceptions.  A method that can raise returns a [result]; an exception
    aborts the run, so no state is returned with it. *)

From Stdlib Require Import Reals Lra Lia.
From stdpp Require Import gmap list strings.

(** ** Exceptions *)

Inductive exn : Type :=
  | AssertionError
  | ValueError
  | KeyError
  | TypeError
  | IndexError.

Inductive result (A : Type) : Type :=
  | Ok (a : A)
  | Raise (e : exn).
Arguments Ok {A} a.
Arguments Raise {A} e.

Definition rbind {A B : Type} (r : result A) (k : A → result B) : result B :=
  match r with
  | Ok a => k a
  | Raise e => Raise e
  end.

Notation "x ←! r ; k" := (rbind r (fun x => k))
  (at level 20, r at level 100, k at level 200, right associativity,
   format "x  ←!  r ;  '/' k").

Definition of_option {A : Type} (e : exn) (o : option A) : result A :=
  match o with
  | Some a => Ok a
  | None => Raise e
  end.

(** ** Numbers and plane vectors *)

Abbreviation vec := (R * R)%type (only parsing).

Definition Rgtb (x y : R) : bool := if Rgt_dec x y then true else false.
Definition Rleb (x y : R) : bool := if Rle_dec x y then true else false.
Definition Reqb (x y : R) : bool := if Req_EM_T x y then true else false.

Section Vectors.
Local Open Scope R_scope.

(** [np.dot(a, b)] on two 2-vectors. *)
Definition dot (a b : vec) : R := a.1 * b.1 + a.2 * b.2.

(** [np.linalg.norm(a)] on a 2-vector. *)
Definition norm (a : vec) : R := sqrt (a.1 * a.1 + a.2 * a.2).

Definition vadd (a b : vec) : vec := (a.1 + b.1, a.2 + b.2).
Definition vsub (a b : vec) : vec := (a.1 - b.1, a.2 - b.2).
Definition vneg (a : vec) : vec := (- a.1, - a.2).
Definition vscale (a : vec) (k : R) : vec := (a.1 * k, a.2 * k).
Definition vdiv (a : vec) (k : R) : vec := (a.1 / k, a.2 / k).

(** Python's [sum(xs)]: starts from 0 and adds from the left. *)
Definition py_sum (xs : list R) : R := foldl Rplus 0 xs.

(** [np.mean(xs)] on a list of scalars. *)
Definition np_mean (xs : list R) : R := py_sum xs / INR (length xs).

(** [np.mean(vs, axis=0)] on a list of 2-vectors. *)
Definition np_mean_axis0 (vs : list vec) : vec :=
  (np_mean (fst <$> vs), np_mean (snd <$> vs)).
End Vectors.

(** ** Insertion-ordered dictionaries *)

Section Odict.
Context {K V : Type} `{EqDecision K}.

Definition odict : Type := list (K * V).

Fixpoint oget (d : odict) (k : K) : option V :=
  match d with
  | [] => None
  | (k', v) :: d' => if decide (k' = k) then Some v else oget d' k
  end.

(** [d[k] = v]: overwrite in place when the key exists, append otherwise. *)
Fixpoint oset (d : odict) (k : K) (v : V) : odict :=
  match d with
  | [] => [(k, v)]
  | (k', v') :: d' =>
      if decide (k' = k) then (k', v) :: d' else (k', v') :: oset d' k v
  end.

Definition ovalues (d : odict) : list V := snd <$> d.
Definition okeys (d : odict) : list K := fst <$> d.
End Odict.
Arguments odict : clear implicits.

(** ** Simulation.oil_velocity and Simulation.compute_flow_field *)

Section Flux.
Local Open Scope R_scope.

Definition compute_flow_field (point : vec) : vec :=
  let x := point.1 in
  let y := point.2 in
  (y - 0.2 * x, - x).

Definition oil_velocity (outer_normal mean_flow : vec)
    (concentration concentration_neighbour : R) : R :=
  let velocity_oil_direction := dot mean_flow outer_normal in
  if Rgtb velocity_oil_direction 0
  then concentration * velocity_oil_direction
  else concentration_neighbour * velocity_oil_direction.
End Flux.

(** ** Cells: [Cell], [Triangle], [Line] *)

(** Canonical edge key: [tuple(sorted((a, b)))]. *)
Abbreviation Edge := (nat * nat)%type (only parsing).

Definition sorted_pair (a b : nat) : Edge := (a `min` b, a `max` b).

(** A value stored in [neighbour_ids]: a cell id, or the empty list that
    [defaultdict(list)] creates when a missing key is read. *)
Inductive nb_value : Type :=
  | NbId (n : nat)
  | NbEmpty.

(** Python truthiness of such a value: [0] and [[]] are false. *)
Definition truthy (v : nb_value) : bool :=
  match v with
  | NbId 0 => false
  | NbId (S _) => true
  | NbEmpty => false
  end.

(** Attributes set by [Cell.__init__]. *)
Record CellBase : Type := mkCellBase {
  cell_id : nat;
  nodes : list nat;
  edges : list Edge;
  coords : odict nat vec;
  neighbour_ids : gmap Edge nb_value
}.

(** Attributes added by [Triangle.__init__]. *)
Record TriangleData : Type := mkTriangleData {
  center_point : vec;
  normals : gmap Edge vec;
  area : R;
  mean_flow : gmap Edge vec;
  concentration : R
}.

Inductive Cell : Type :=
  | Triangle (b : CellBase) (t : TriangleData)
  | Line (b : CellBase).

Definition base (c : Cell) : CellBase :=
  match c with
  | Triangle b _ => b
  | Line b => b
  end.

(** The [type] property. *)
Definition cell_type (c : Cell) : string :=
  match c with
  | Triangle _ _ => "triangle"
  | Line _ => "line"
  end.

(** [isinstance(cell, Line)]. *)
Definition is_line (c : Cell) : bool :=
  match c with
  | Triangle _ _ => false
  | Line _ => true
  end.

Definition set_neighbour_ids (b : CellBase) (n : gmap Edge nb_value) : CellBase :=
  mkCellBase (cell_id b) (nodes b) (edges b) (coords b) n.

Definition with_neighbour_ids (c : Cell) (n : gmap Edge nb_value) : Cell :=
  match c with
  | Triangle b t => Triangle (set_neighbour_ids b n) t
  | Line b => Line (set_neighbour_ids b n)
  end.

Definition set_concentration (t : TriangleData) (v : R) : TriangleData :=
  mkTriangleData (center_point t) (normals t) (area t) (mean_flow t) v.

Definition set_mean_flow (t : TriangleData) (mf : gmap Edge vec) : TriangleData :=
  mkTriangleData (center_point t) (normals t) (area t) mf (concentration t).

(** A left fold whose body can raise. *)
Fixpoint foldM {A B : Type} (f : B → A → result B) (b : B) (l : list A)
    : result B :=
  match l with
  | [] => Ok b
  | a :: l' => b' ←! f b a; foldM f b' l'
  end.

Section Geometry.
Local Open Scope R_scope.

(** [Triangle.define_edges]. *)
Definition Triangle_define_edges (nodes : list nat) : result (list Edge) :=
  match nodes with
  | [n0; n1; n2] =>
      Ok [sorted_pair n0 n1; sorted_pair n1 n2; sorted_pair n2 n0]
  | _ => Raise AssertionError
  end.

(** [Line.define_edges]. *)
Definition Line_define_edges (nodes : list nat) : result (list Edge) :=
  match nodes with
  | [n0; n1] => Ok [sorted_pair n0 n1]
  | _ => Raise AssertionError
  end.

(** [Triangle.compute_center_point]. *)
Definition compute_center_point (coords : odict nat vec) : vec :=
  let xs := np_mean (fst <$> ovalues coords) in
  let ys := np_mean (snd <$> ovalues coords) in
  (xs, ys).

(** [Triangle.compute_area]. *)
Definition compute_area (coords : odict nat vec) : result R :=
  match ovalues coords with
  | [p1; p2; p3] =>
      Ok (Rabs ((p1.1 * (p2.2 - p3.2) + p2.1 * (p3.2 - p1.2)
                 + p3.1 * (p1.2 - p2.2)) / 2.0))
  | _ => Raise ValueError
  end.

(** One iteration of the loop of [Triangle.compute_normal]. *)
Definition edge_normal (coords : odict nat vec) (center : vec) (edge : Edge)
    : result vec :=
  p1 ←! of_option KeyError (oget coords edge.1);
  p2 ←! of_option KeyError (oget coords edge.2);
  let edge_vector := vsub p2 p1 in
  let normal_vector := (- edge_vector.2, edge_vector.1) in
  let nrm := norm normal_vector in
  if Reqb nrm 0 then Raise ValueError
  else
    let normal_vector := vdiv normal_vector nrm in
    let midpoint := vdiv (vadd p1 p2) 2 in
    let to_center := vsub center midpoint in
    let normal_vector :=
      if Rgtb (dot normal_vector to_center) 0
      then vneg normal_vector else normal_vector in
    let edge_length := norm edge_vector in
    Ok (vscale normal_vector edge_length).

(** [Triangle.compute_normal]. *)
Definition compute_normal (coords : odict nat vec) (center : vec)
    (edges : list Edge) : result (gmap Edge vec) :=
  foldM (fun scaled_normals edge =>
           n ←! edge_normal coords center edge;
           Ok (<[edge := n]> scaled_normals))
        ∅ edges.

(** [Triangle.__init__] (with [Cell.__init__]). *)
Definition Triangle_init (cell_id : nat) (nodes : list nat)
    (coords : odict nat vec) : result Cell :=
  edges ←! Triangle_define_edges nodes;
  let center := compute_center_point coords in
  normals ←! compute_normal coords center edges;
  area ←! compute_area coords;
  Ok (Triangle (mkCellBase cell_id nodes edges coords ∅)
               (mkTriangleData center normals area ∅ 0.0)).

(** [Line.__init__] (with [Cell.__init__]). *)
Definition Line_init (cell_id : nat) (nodes : list nat)
    (coords : odict nat vec) : result Cell :=
  edges ←! Line_define_edges nodes;
  Ok (Line (mkCellBase cell_id nodes edges coords ∅)).
End Geometry.

(** ** CellFactory *)

Definition constructor : Type := nat → list nat → odict nat vec → result Cell.

(** The record handed to the factory. *)
Record CellRecord : Type := mkCellRecord {
  rec_type : string;
  rec_id : nat;
  rec_nodes : list nat;
  rec_coords : odict nat vec
}.

(** [CellFactory.__init__]. *)
Definition CellFactory_init : gmap string constructor :=
  <["triangle" := Triangle_init]> (<["line" := Line_init]> ∅).

(** [CellFactory.register]. *)
Definition register (key : string) (type : constructor)
    (cell_types : gmap string constructor) : gmap string constructor :=
  match cell_types !! key with
  | Some _ => cell_types
  | None => <[key := type]> cell_types
  end.

(** [CellFactory.__call__]. *)
Definition CellFactory_call (cell_types : gmap string constructor)
    (cell : CellRecord) : result Cell :=
  ctor ←! of_option KeyError (cell_types !! rec_type cell);
  ctor (rec_id cell) (rec_nodes cell) (rec_coords cell).

(** ** Mesh *)

Record CellBlock : Type := mkCellBlock {
  block_type : string;
  block_data : list (list nat)
}.

Record Mesh : Type := mkMesh {
  points : list vec;
  cells : list Cell;
  mesh_cell_blocks : list CellBlock;
  mesh_edges : gmap Edge (list nat)
}.

(** [Mesh.__init__]. *)
Definition Mesh_init : Mesh := mkMesh [] [] [] ∅.

(** [Mesh.read_mesh]: the file reader is outside the model; its result
    (node coordinates and cell blocks) is the argument. *)
Definition read_mesh (msh_points : list vec) (msh_cells : list CellBlock)
    (m : Mesh) : Mesh :=
  mkMesh msh_points (cells m) msh_cells (mesh_edges m).

Definition set_cells (m : Mesh) (cs : list Cell) : Mesh :=
  mkMesh (points m) cs (mesh_cell_blocks m) (mesh_edges m).

(** [{int(p): self._points[p] for p in cell}]. *)
Definition cell_coords (pts : list vec) (cell : list nat)
    : result (odict nat vec) :=
  foldM (fun d p => xy ←! of_option IndexError (pts !! p); Ok (oset d p xy))
        [] cell.

(** The inner loop of [Mesh.create_cells] over the rows of one block. *)
Definition create_block_cells (factory : gmap string constructor)
    (pts : list vec) (type : string) (cs : list Cell) (data : list (list nat))
    : result (list Cell) :=
  foldM (fun cs cell =>
           coords ←! cell_coords pts cell;
           c ←! CellFactory_call factory
                  (mkCellRecord type (length cs) cell coords);
           Ok (cs ++ [c]))
        cs data.

(** [Mesh.create_cells]. *)
Definition create_cells (m : Mesh) : result Mesh :=
  let factory := CellFactory_init in
  cs ←! foldM (fun cs cell_block =>
                 if decide (block_type cell_block = "vertex") then Ok cs
                 else create_block_cells factory (points m)
                        (block_type cell_block) cs (block_data cell_block))
              (cells m) (mesh_cell_blocks m);
  Ok (set_cells m cs).

(** [self._mesh_edges[edge].append(cell._id)] on a [defaultdict(list)]. *)
Definition append_cell_id (cid : nat) (me : gmap Edge (list nat)) (edge : Edge)
    : gmap Edge (list nat) :=
  <[edge := (me !!! edge) ++ [cid]]> me.

(** [Mesh.build_topology]. *)
Definition build_topology (m : Mesh) : Mesh :=
  mkMesh (points m) (cells m) (mesh_cell_blocks m)
    (foldl (fun me cell => foldl (append_cell_id (cell_id (base cell))) me
                             (edges (base cell)))
           (mesh_edges m) (cells m)).

(** Reading [self._mesh_edges[edge]]: a missing key is created with []. *)
Definition defaultdict_get (me : gmap Edge (list nat)) (edge : Edge)
    : list nat * gmap Edge (list nat) :=
  match me !! edge with
  | Some ids => (ids, me)
  | None => ([], <[edge := []]> me)
  end.

(** The innermost loop of [Mesh.assign_neighbours]. *)
Definition assign_from_ids (cid : nat) (edge : Edge)
    (nbs : gmap Edge nb_value) (ids : list nat) : gmap Edge nb_value :=
  foldl (fun nbs neighbour_id =>
           if decide (neighbour_id ≠ cid) then <[edge := NbId neighbour_id]> nbs
           else nbs)
        nbs ids.

Definition assign_edge (cid : nat)
    (st : gmap Edge (list nat) * gmap Edge nb_value) (edge : Edge)
    : gmap Edge (list nat) * gmap Edge nb_value :=
  let '(ids, me) := defaultdict_get st.1 edge in
  (me, assign_from_ids cid edge st.2 ids).

Definition assign_cell (me : gmap Edge (list nat)) (cell : Cell)
    : gmap Edge (list nat) * Cell :=
  let st := foldl (assign_edge (cell_id (base cell)))
                  (me, neighbour_ids (base cell)) (edges (base cell)) in
  (st.1, with_neighbour_ids cell st.2).

(** [Mesh.assign_neighbours]. *)
Definition assign_neighbours (m : Mesh) : Mesh :=
  let st := foldl (fun (st : gmap Edge (list nat) * list Cell) cell =>
                     ((assign_cell st.1 cell).1,
                      st.2 ++ [(assign_cell st.1 cell).2]))
                  (mesh_edges m, []) (cells m) in
  mkMesh (points m) st.2 (mesh_cell_blocks m) st.1.

(** ** Simulation *)

Record Simulation : Type := mkSimulation {
  sim_mesh : Mesh;
  borders : (R * R) * (R * R);
  oil_in_fishing_grounds : list R;
  source_point : vec;
  attr_number_of_steps : option nat
}.

(** [Simulation.__init__] (the logger is outside the model).  The
    attribute [_number_of_steps] does not exist until [solver] sets it. *)
Definition Simulation_init (mesh : Mesh) (borders : (R * R) * (R * R))
    : Simulation :=
  mkSimulation mesh borders [] (0.305, 0.45)%R None.

(** [for cell in self._mesh.cells: ...] where the body updates [cell] in
    place and may read the other cells: [body cs cell] is given the current
    list and returns the updated cell, which replaces position [i].  [n] is
    the number of iterations left. *)
Fixpoint for_each_cell_from (body : list Cell → Cell → result Cell)
    (n i : nat) (cs : list Cell) : result (list Cell) :=
  match n with
  | 0 => Ok cs
  | S n' =>
      match cs !! i with
      | None => Ok cs
      | Some cell =>
          cell' ←! body cs cell;
          for_each_cell_from body n' (S i) (<[i := cell']> cs)
      end
  end.

Definition for_each_cell (body : list Cell → Cell → result Cell)
    (cs : list Cell) : result (list Cell) :=
  for_each_cell_from body (length cs) 0 cs.

Section Solver.
Local Open Scope R_scope.

(** [Simulation.initial_oil_concentration]. *)
Definition initial_oil_concentration (source : vec) (location : vec) : R :=
  exp ((- (norm (vsub location source) ^ 2)) / 0.01).

(** Reading [cell.neighbour_ids[edge]]: a missing key is created with []. *)
Definition neighbour_get (nbs : gmap Edge nb_value) (edge : Edge)
    : nb_value * gmap Edge nb_value :=
  match nbs !! edge with
  | Some v => (v, nbs)
  | None => (NbEmpty, <[edge := NbEmpty]> nbs)
  end.

(** The body of the edge loop of [initial_conditions]; the state is the
    cell's [neighbour_ids] and [mean_flow]. *)
Definition init_edge (cs : list Cell) (center : vec)
    (st : gmap Edge nb_value * gmap Edge vec) (edge : Edge)
    : result (gmap Edge nb_value * gmap Edge vec) :=
  let vectors := [compute_flow_field center] in
  let '(neighbour_id, nbs) := neighbour_get st.1 edge in
  vectors ←! (if truthy neighbour_id then
                match neighbour_id with
                | NbId n =>
                    neighbour_cell ←! of_option IndexError (cs !! n);
                    match neighbour_cell with
                    | Triangle _ tn =>
                        Ok (vectors ++ [compute_flow_field (center_point tn)])
                    | Line _ => Ok vectors
                    end
                | NbEmpty => Ok vectors
                end
              else Ok vectors);
  let mean_flow_array := np_mean_axis0 vectors in
  Ok (nbs, <[edge := mean_flow_array]> st.2).

(** The body of the cell loop of [initial_conditions]. *)
Definition init_cell (source : vec) (cs : list Cell) (cell : Cell)
    : result Cell :=
  match cell with
  | Line _ => Ok cell
  | Triangle b t =>
      let t := set_concentration t
                 (initial_oil_concentration source (center_point t)) in
      st ←! foldM (init_edge cs (center_point t))
                  (neighbour_ids b, mean_flow t) (edges b);
      Ok (Triangle (set_neighbour_ids b st.1) (set_mean_flow t st.2))
  end.

Definition set_sim_cells (s : Simulation) (cs : list Cell) : Simulation :=
  mkSimulation (set_cells (sim_mesh s) cs) (borders s)
               (oil_in_fishing_grounds s) (source_point s)
               (attr_number_of_steps s).

(** [Simulation.initial_conditions]. *)
Definition initial_conditions (s : Simulation) : result Simulation :=
  cs ←! for_each_cell (init_cell (source_point s)) (cells (sim_mesh s));
  Ok (set_sim_cells s cs).

(** The body of the edge loop of [solver]: appends this edge's flux to
    [edges_net_flux], or skips the edge.  A missing key of [neighbour_ids]
    reads as [] (and is created), and indexing the cell list with [] raises
    [TypeError], which ends the run. *)
Definition edge_flux (cs : list Cell) (b : CellBase) (t : TriangleData)
    (edges_net_flux : list R) (edge : Edge) : result (list R) :=
  match (neighbour_get (neighbour_ids b) edge).1 with
  | NbEmpty => Raise TypeError
  | NbId neighbour_id =>
      neighbour_cell ←! of_option IndexError (cs !! neighbour_id);
      match neighbour_cell with
      | Line _ => Ok edges_net_flux
      | Triangle _ tn =>
          let concentration_neighbour := concentration tn in
          outer_normal ←! of_option KeyError (normals t !! edge);
          mean_flow ←! of_option KeyError (mean_flow t !! edge);
          let edge_flux :=
            oil_velocity outer_normal mean_flow (concentration t)
                         concentration_neighbour in
          Ok (edges_net_flux ++ [edge_flux])
      end
  end.

(** The body of the first cell loop of [solver]: stages the new
    concentration of one cell in [concentration_tmp]. *)
Definition stage_cell (delta_t : R) (cs : list Cell)
    (concentration_tmp : odict nat R) (cell : Cell) : result (odict nat R) :=
  match cell with
  | Line _ => Ok concentration_tmp
  | Triangle b t =>
      edges_net_flux ←! foldM (edge_flux cs b t) [] (edges b);
      let total_flux := (- (py_sum edges_net_flux * delta_t)) / area t in
      let new_concentration := concentration t + total_flux in
      Ok (oset concentration_tmp (cell_id b) new_concentration)
  end.

Definition stage (delta_t : R) (cs : list Cell) : result (odict nat R) :=
  foldM (stage_cell delta_t cs) [] cs.

(** [self._mesh.cells[cell_id].concentration = v].  On a [Line] the
    assignment would create an attribute that nothing reads; the model
    leaves the [Line] as it is. *)
Definition assign_concentration (c : Cell) (v : R) : Cell :=
  match c with
  | Triangle b t => Triangle b (set_concentration t v)
  | Line b => Line b
  end.

(** The second loop of [solver], over [concentration_tmp.items()]. *)
Definition commit (concentration_tmp : odict nat R) (cs : list Cell)
    : result (list Cell) :=
  foldM (fun cs cell_id =>
           v ←! of_option KeyError (oget concentration_tmp cell_id);
           c ←! of_option IndexError (cs !! cell_id);
           Ok (<[cell_id := assign_concentration c v]> cs))
        cs (okeys concentration_tmp).

Definition in_fishing_grounds (borders : (R * R) * (R * R)) (p : vec)
    : bool :=
  Rleb borders.1.1 p.1 && Rleb p.1 borders.1.2
  && Rleb borders.2.1 p.2 && Rleb p.2 borders.2.2.

(** The generator summed into [total_oil]. *)
Definition fishing_grounds_terms (borders : (R * R) * (R * R))
    (cs : list Cell) : list R :=
  omap (fun cell =>
          match cell with
          | Line _ => None
          | Triangle _ t =>
              if in_fishing_grounds borders (center_point t)
              then Some (concentration t * area t) else None
          end) cs.

Definition total_oil (borders : (R * R) * (R * R)) (cs : list Cell) : R :=
  py_sum (fishing_grounds_terms borders cs).

(** One iteration of the [while] loop of [solver] (logging and plotting
    are outside the model). *)
Definition solver_step (delta_t : R) (s : Simulation) : result Simulation :=
  let cs := cells (sim_mesh s) in
  concentration_tmp ←! stage delta_t cs;
  cs' ←! commit concentration_tmp cs;
  Ok (mkSimulation (set_cells (sim_mesh s) cs') (borders s)
        (oil_in_fishing_grounds s ++ [total_oil (borders s) cs'])
        (source_point s) (attr_number_of_steps s)).

(** The [while] loop of [solver]: [n] iterations. *)
Fixpoint solver_loop (n : nat) (delta_t : R) (s : Simulation)
    : result Simulation :=
  match n with
  | 0 => Ok s
  | S n' => s' ←! solver_step delta_t s; solver_loop n' delta_t s'
  end.

(** [self._number_of_steps = number_of_steps] (read by the plot only). *)
Definition set_number_of_steps (s : Simulation) (n : nat) : Simulation :=
  mkSimulation (sim_mesh s) (borders s) (oil_in_fishing_grounds s)
               (source_point s) (Some n).

(** [Simulation.solver].  [number_of_steps] is a count: a negative value
    would run no step, as 0 does. *)
Definition solver (number_of_steps : nat) (delta_t : R) (s : Simulation)
    : result Simulation :=
  solver_loop number_of_steps delta_t (set_number_of_steps s number_of_steps).
End Solver.

(** [controller.run_config], mesh part: read, create, link. *)
Definition setup_mesh (msh_points : list vec) (msh_cells : list CellBlock)
    : result Mesh :=
  m ←! create_cells (read_mesh msh_points msh_cells Mesh_init);
  Ok (assign_neighbours (build_topology m)).

(** ** Notions used in the statements *)

(** The value [edge_normal] computes once both lookups succeeded and the
    edge has nonzero length. *)
Definition outward_normal (p1 p2 center : vec) : vec :=
  (let edge_vector := vsub p2 p1 in
  let normal_vector := (- edge_vector.2, edge_vector.1) in
  let unit := vdiv normal_vector (norm normal_vector) in
  let to_center := vsub center (vdiv (vadd p1 p2) 2) in
  vscale (if Rgtb (dot unit to_center) 0 then vneg unit else unit)
         (norm edge_vector))%R.

(** The invariant of the cell sequence: the cell at position [i] has id
    [i]. *)
Definition ids_ok (cs : list Cell) : Prop :=
  ∀ i c, cs !! i = Some c → cell_id (base c) = i.

(** The ids of the cells that have [edge] among their edges, in cell
    order, one entry per occurrence. *)
Definition edge_cell_ids (cs : list Cell) (edge : Edge) : list nat :=
  flat_map (fun c =>
              flat_map (fun e => if decide (e = edge)
                                 then [cell_id (base c)] else [])
                       (edges (base c)))
           cs.

(** The last id in [ids] that differs from [cid]: the neighbour that the
    innermost loop of [assign_neighbours] leaves recorded. *)
Definition last_other (cid : nat) (ids : list nat) : option nat :=
  last (filter (fun n => n ≠ cid) ids).

(** The [neighbour_ids] of a cell after the edge loop of
    [assign_neighbours], as a function of the adjacency index. *)
Definition neighbours_after (cid : nat) (me : gmap Edge (list nat))
    (es : list Edge) (nbs : gmap Edge nb_value) : gmap Edge nb_value :=
  foldl (fun nbs e => assign_from_ids cid e nbs (me !!! e)) nbs es.

Definition assigned_cell (me : gmap Edge (list nat)) (c : Cell) : Cell :=
  with_neighbour_ids c
    (neighbours_after (cell_id (base c)) me (edges (base c))
                      (neighbour_ids (base c))).

(** [mesh.build_topology(); mesh.assign_neighbours()] as the caller runs
    them.  Neither method has a [raise] statement and every lookup in them
    is on a [defaultdict], so the pair always returns. *)
Definition link_topology (m : Mesh) : result Mesh :=
  Ok (assign_neighbours (build_topology m)).

(** ** A small mesh used for concrete runs

    The unit square cut along the diagonal 0-2: nodes 0..3 at (0,0), (1,0),
    (1,1), (0,1); a triangle block with rows (0,1,2) and (0,2,3), then a
    line block with the four sides.  Cells 0 and 1 are the triangles, cells
    2..5 the boundary lines. *)

Definition square_points : list vec :=
  [(0, 0); (1, 0); (1, 1); (0, 1)]%R.

Definition square_blocks : list CellBlock :=
  [mkCellBlock "triangle" [[0; 1; 2]; [0; 2; 3]];
   mkCellBlock "line" [[0; 1]; [1; 2]; [2; 3]; [3; 0]]].

Definition square_coords (ns : list nat) : odict nat vec :=
  omap (fun n => (fun p => (n, p)) <$> square_points !! n) ns.

(** The triangle that [Triangle.__init__] builds on three nodes of the
    square (edges given in the order of [define_edges]). *)
Definition square_triangle (cid : nat) (ns : list nat) (es : list Edge)
    : Cell :=
  let cds := square_coords ns in
  let center := compute_center_point cds in
  let normal e :=
    outward_normal (default (0, 0)%R (oget cds e.1))
                   (default (0, 0)%R (oget cds e.2)) center in
  Triangle (mkCellBase cid ns es cds ∅)
    (mkTriangleData center
       (foldl (fun m e => <[e := normal e]> m) ∅ es)
       (match compute_area cds with Ok a => a | Raise _ => 0%R end)
       ∅ 0.0%R).

Definition square_line (cid : nat) (ns : list nat) (e : Edge) : Cell :=
  Line (mkCellBase cid ns [e] (square_coords ns) ∅).

Definition square_cells : list Cell :=
  [square_triangle 0 [0; 1; 2] [(0, 1); (1, 2); (0, 2)];
   square_triangle 1 [0; 2; 3] [(0, 2); (2, 3); (0, 3)];
   square_line 2 [0; 1] (0, 1);
   square_line 3 [1; 2] (1, 2);
   square_line 4 [2; 3] (2, 3);
   square_line 5 [3; 0] (0, 3)].

(** The mesh object after [read_mesh] and [create_cells]. *)
Definition square_created : Mesh :=
  mkMesh square_points square_cells square_blocks ∅.

(** The mesh object after [build_topology] and [assign_neighbours]. *)
Definition square_mesh : Mesh :=
  assign_neighbours (build_topology square_created).

(** ** A cell set with an edge shared by three cells

    Two nodes and a line block with three rows on them. *)

Definition overlap_points : list vec := [(0, 0); (1, 0)]%R.

Definition overlap_blocks : list CellBlock :=
  [mkCellBlock "line" [[0; 1]; [0; 1]; [1; 0]]].

Definition overlap_created : Mesh :=
  mkMesh overlap_points
    [Line (mkCellBase 0 [0; 1] [(0, 1)] [(0, (0, 0)%R); (1, (1, 0)%R)] ∅);
     Line (mkCellBase 1 [0; 1] [(0, 1)] [(0, (0, 0)%R); (1, (1, 0)%R)] ∅);
     Line (mkCellBase 2 [1; 0] [(0, 1)] [(1, (1, 0)%R); (0, (0, 0)%R)] ∅)]
    overlap_blocks ∅.

(** A map whose function can raise; the first exception wins. *)
Fixpoint rmapM {A B : Type} (f : A → result B) (l : list A)
    : result (list B) :=
  match l with
  | [] => Ok []
  | a :: l' => b ←! f a; bs ←! rmapM f l'; Ok (b :: bs)
  end.

(** What [initial_conditions] reads of a cell other than the one it is
    updating: whether it is a [Line], and its centre otherwise. *)
Definition cell_view (c : Cell) : option vec :=
  match c with
  | Triangle _ t => Some (center_point t)
  | Line _ => None
  end.

(** The list [vectors] that the edge loop of [initial_conditions] averages
    when the recorded neighbour value of the edge is [nb] (a missing key
    reads as the empty list). *)
Definition edge_vectors (cs : list Cell) (center : vec)
    (nb : option nb_value) : result (list vec) :=
  match nb with
  | Some (NbId (S n)) =>
      match cs !! S n with
      | None => Raise IndexError
      | Some (Triangle _ tn) =>
          Ok [compute_flow_field center; compute_flow_field (center_point tn)]
      | Some (Line _) => Ok [compute_flow_field center]
      end
  | _ => Ok [compute_flow_field center]
  end.

(** Every recorded neighbour id is an index into the cell list. *)
Definition neighbours_in_range (cs : list Cell) : bool :=
  forallb (fun c =>
             forallb (fun e =>
                        match neighbour_ids (base c) !! e with
                        | Some (NbId n) => bool_decide (n < length cs)
                        | _ => true
                        end)
                     (edges (base c)))
          cs.

(** Following the spec's words: the mean flow of an edge is the average of
    the velocity at the cell's own centroid and, when the neighbour
    recorded across the edge is a Triangle, the velocity at that
    neighbour's centroid; across a Segment (or with no neighbour) it is the
    velocity at the own centroid alone. *)
Definition spec_mean_flow (cs : list Cell) (b : CellBase) (t : TriangleData)
    (e : Edge) : vec :=
  let own := compute_flow_field (center_point t) in
  match neighbour_ids b !! e with
  | Some (NbId n) =>
      match cs !! n with
      | Some (Triangle _ tn) =>
          let other := compute_flow_field (center_point tn) in
          ((own.1 + other.1) / 2, (own.2 + other.2) / 2)%R
      | _ => own
      end
  | _ => own
  end.

(** The square mesh in a simulation with the whole square as fishing
    grounds, before and after [initial_conditions]. *)
Definition square_sim : Simulation :=
  Simulation_init square_mesh ((0, 1), (0, 1))%R.

Definition square_initialized : Simulation :=
  match initial_conditions square_sim with
  | Ok s => s
  | Raise _ => square_sim
  end.

(** ** The solver step in the spec's words *)

(** The Triangle recorded as neighbour across [e], if there is one. *)
Definition neighbour_triangle (cs : list Cell) (b : CellBase) (e : Edge)
    : option TriangleData :=
  match neighbour_ids b !! e with
  | Some (NbId n) =>
      match cs !! n with
      | Some (Triangle _ tn) => Some tn
      | _ => None
      end
  | _ => None
  end.

(** The upwind flux over each edge whose neighbour is a Triangle, from the
    concentrations held in [cs]; edges bordering a Segment give nothing. *)
Definition spec_edge_fluxes (cs : list Cell) (b : CellBase)
    (t : TriangleData) : list R :=
  omap (fun e =>
          tn ← neighbour_triangle cs b e;
          outer_normal ← normals t !! e;
          flow ← mean_flow t !! e;
          Some (oil_velocity outer_normal flow (concentration t)
                             (concentration tn)))
       (edges b).

(** The sum of a list of reals. *)
Definition sum_R (xs : list R) : R := foldr Rplus 0%R xs.

(** [new_value = old_value - (delta_t * sum of edge fluxes) / area]. *)
Definition spec_new_concentration (delta_t : R) (cs : list Cell)
    (b : CellBase) (t : TriangleData) : R :=
  (concentration t - (delta_t * sum_R (spec_edge_fluxes cs b t)) / area t)%R.

(** The value staged for cell id [k] in one step from the cells [cs]. *)
Definition staged (delta_t : R) (cs : list Cell) (k : nat) : option R :=
  match cs !! k with
  | Some (Triangle b t) => Some (spec_new_concentration delta_t cs b t)
  | _ => None
  end.

(** The cell list after the staged values have been committed. *)
Definition committed (delta_t : R) (cs : list Cell) : list Cell :=
  (fun c => match c with
            | Triangle b t =>
                Triangle b (set_concentration t
                              (spec_new_concentration delta_t cs b t))
            | Line b => Line b
            end) <$> cs.

(** The centroid lies in the rectangle, bounds included. *)
Definition in_region (borders : (R * R) * (R * R)) (p : vec) : Prop :=
  (borders.1.1 <= p.1 <= borders.1.2 ∧ borders.2.1 <= p.2 <= borders.2.2)%R.

(** The Triangles of a cell list. *)
Definition triangles (cs : list Cell) : list TriangleData :=
  omap (fun c => match c with
                 | Triangle _ t => Some t
                 | Line _ => None
                 end) cs.

(** Every edge of every Triangle has a recorded neighbour that is a cell
    of the list, and a normal and a mean flow when that neighbour is a
    Triangle: the lookups of the flux loop of [solver] all succeed. *)
Definition edge_ready (cs : list Cell) (b : CellBase) (t : TriangleData)
    (e : Edge) : bool :=
  match neighbour_ids b !! e with
  | Some (NbId n) =>
      match cs !! n with
      | Some (Line _) => true
      | Some (Triangle _ _) =>
          bool_decide (is_Some (normals t !! e))
          && bool_decide (is_Some (mean_flow t !! e))
      | None => false
      end
  | _ => false
  end.

Definition solver_ready (cs : list Cell) : bool :=
  forallb (fun c => match c with
                    | Line _ => true
                    | Triangle b t => forallb (edge_ready cs b t) (edges b)
                    end) cs.

(** What [solver] leaves untouched in a cell: everything but the
    concentration of a Triangle. *)
Definition same_frame (c c' : Cell) : Prop :=
  match c, c' with
  | Triangle b t, Triangle b' t' =>
      b' = b ∧ center_point t' = center_point t ∧ area t' = area t ∧
      normals t' = normals t ∧ mean_flow t' = mean_flow t
  | Line b, Line b' => b' = b
  | _, _ => False
  end.

#[global] Instance in_region_dec (borders : (R * R) * (R * R)) (p : vec) :
  Decision (in_region borders p).
Proof. unfold in_region. repeat apply and_dec; apply Rle_dec. Defined.

(** Following the spec's words: the sum of [concentration * area] over
    every Triangle whose centroid lies in the rectangle. *)
Definition spec_region_total (borders : (R * R) * (R * R))
    (cs : list Cell) : R :=
  sum_R ((fun t => (concentration t * area t)%R)
           <$> filter (fun t => in_region borders (center_point t))
                      (triangles cs)).

(** [controller.run_config], from the mesh data to the end of the solver
    (files, logging and plotting are outside the model). *)
Definition run_config (msh_points : list vec) (msh_cells : list CellBlock)
    (borders : (R * R) * (R * R)) (n_steps : nat) (delta_t : R)
    : result Simulation :=
  m ←! setup_mesh msh_points msh_cells;
  s ←! initial_conditions (Simulation_init m borders);
  solver n_steps delta_t s.

(** Indexing the cell list by a recorded neighbour id retrieves the cell
    with that id. *)
Definition neighbours_valid (cs : list Cell) : Prop :=
  ∀ c e n, c ∈ cs → neighbour_ids (base c) !! e = Some (NbId n) →
           ∃ c', cs !! n = Some c' ∧ cell_id (base c') = n.

(** The state of the cells that [create_cells] builds: ids are positions
    and no neighbour is recorded yet. *)
Definition fresh_ids (cs : list Cell) : Prop :=
  ids_ok cs ∧ ∀ c, c ∈ cs → neighbour_ids (base c) = ∅.

(** The initialised square after one iteration of the loop of [solver]
    with [delta_t = 0.01]. *)
Definition square_stepped : Simulation :=
  match solver_step 0.01%R square_initialized with
  | Ok s => s
  | Raise _ => square_initialized
  end.

(** The initialised square after [solver] has run [n] steps with
    [delta_t = 0.01]. *)
Definition square_after (n : nat) : Simulation :=
  match solver n 0.01%R square_initialized with
  | Ok s => s
  | Raise _ => square_initialized
  end.

(** ** Notions used in the further properties *)

(** The cross product of two plane vectors; for the edge vectors of a
    triangle it is twice the signed area. *)
Definition cross (u v : vec) : R := (u.1 * v.2 - u.2 * v.1)%R.

(** The rows that [create_cells] turns into cells, each with the type of
    its block, in the order of the loops; blocks of vertices are skipped. *)
Definition block_rows (blocks : list CellBlock) : list (string * list nat) :=
  flat_map (fun b => if decide (block_type b = "vertex") then []
                     else (fun row => (block_type b, row)) <$> block_data b)
           blocks.

(** A row from which a cell can be constructed: its nodes are indices into
    the points, and it is a line on two nodes or a triangle on three nodes
    at three different positions. *)
Definition row_buildable (pts : list vec) (r : string * list nat) : Prop :=
  (r.1 = "line" ∧ ∃ n0 n1, r.2 = [n0; n1] ∧ n0 < length pts ∧ n1 < length pts)
  ∨ (r.1 = "triangle" ∧
     ∃ n0 n1 n2 p0 p1 p2,
       r.2 = [n0; n1; n2] ∧
       pts !! n0 = Some p0 ∧ pts !! n1 = Some p1 ∧ pts !! n2 = Some p2 ∧
       p0 ≠ p1 ∧ p1 ≠ p2 ∧ p2 ≠ p0).

(** The cell was made from the row: it has the row's type and nodes, and
    its coordinates are those of exactly these nodes. *)
Definition built_from (pts : list vec) (r : string * list nat) (c : Cell)
    : Prop :=
  cell_type c = r.1 ∧ nodes (base c) = r.2 ∧
  ∀ p, oget (coords (base c)) p = if decide (p ∈ r.2) then pts !! p else None.


(** The oil held by a cell list: the sum of [concentration * area] over
    its Triangles. *)
Definition total_mass (cs : list Cell) : R :=
  sum_R ((fun t => (concentration t * area t)%R) <$> triangles cs).

(** Both sides of every edge between two Triangles see the same edge:
    each of the two cells is recorded as the other's neighbour over it,
    their normals for it are opposite and their mean flows for it equal.
    No Triangle lists an edge twice or has area 0. *)
Definition flux_paired (cs : list Cell) : Prop :=
  ∀ i b t, cs !! i = Some (Triangle b t) →
    NoDup (edges b) ∧ area t ≠ 0%R ∧
    ∀ e n bn tn,
      e ∈ edges b → neighbour_ids b !! e = Some (NbId n) →
      cs !! n = Some (Triangle bn tn) →
      e ∈ edges bn ∧ neighbour_ids bn !! e = Some (NbId i) ∧
      ∃ v w, normals t !! e = Some v ∧ normals tn !! e = Some (vneg v) ∧
             mean_flow t !! e = Some w ∧ mean_flow tn !! e = Some w.

(** The flux that the solver adds for cell [x.1] over edge [x.2]: 0 where
    it adds none. *)
Definition half_edge_flux (cs : list Cell) (x : nat * Edge) : R :=
  match cs !! x.1 with
  | Some (Triangle b t) =>
      default 0%R
        (tn ← neighbour_triangle cs b x.2;
         outer_normal ← normals t !! x.2;
         flow ← mean_flow t !! x.2;
         Some (oil_velocity outer_normal flow (concentration t)
                            (concentration tn)))
  | _ => 0%R
  end.

(** Each Triangle with each of its edges. *)
Definition half_edges (cs : list Cell) : list (nat * Edge) :=
  flat_map (fun c => match c with
                     | Triangle b _ => (fun e => (cell_id b, e)) <$> edges b
                     | Line _ => []
                     end) cs.

(** The same edge seen from the Triangle on its other side, if there is
    one. *)
Definition other_side (cs : list Cell) (x : nat * Edge) : nat * Edge :=
  match cs !! x.1 with
  | Some (Triangle b _) =>
      match neighbour_ids b !! x.2 with
      | Some (NbId n) =>
          match cs !! n with
          | Some (Triangle _ _) => (n, x.2)
          | _ => x
          end
      | _ => x
      end
  | _ => x
  end.


(** ** The square mesh with its boundary first

    The same square as above with the blocks in the order of a mesh file
    that lists the boundary before the interior: a vertex block, the four
    sides, then the two triangles.  Cells 0..3 are the lines, cells 4 and
    5 the triangles. *)

Definition bordered_blocks : list CellBlock :=
  [mkCellBlock "vertex" [[0]; [1]; [2]; [3]];
   mkCellBlock "line" [[0; 1]; [1; 2]; [2; 3]; [3; 0]];
   mkCellBlock "triangle" [[0; 1; 2]; [0; 2; 3]]].

Definition bordered_cells : list Cell :=
  [square_line 0 [0; 1] (0, 1);
   square_line 1 [1; 2] (1, 2);
   square_line 2 [2; 3] (2, 3);
   square_line 3 [3; 0] (0, 3);
   square_triangle 4 [0; 1; 2] [(0, 1); (1, 2); (0, 2)];
   square_triangle 5 [0; 2; 3] [(0, 2); (2, 3); (0, 3)]].

Definition bordered_created : Mesh :=
  mkMesh square_points bordered_cells bordered_blocks ∅.

Definition bordered_sim : Simulation :=
  Simulation_init (assign_neighbours (build_topology bordered_created))
                  ((0, 1), (0, 1))%R.

Definition bordered_initialized : Simulation :=
  match initial_conditions bordered_sim with
  | Ok s => s
  | Raise _ => bordered_sim
  end.

(** The initialised mesh after [solver] has run [n] steps with
    [delta_t = 0.01]. *)
Definition bordered_after (n : nat) : Simulation :=
  match solver n 0.01%R bordered_initialized with
  | Ok s => s
  | Raise _ => bordered_initialized
  end.


(** ** config.load_config

    The values that [toml.load] returns: TOML integers, floats, booleans,
    strings, arrays and tables; dates and times are [TDate].  Floats are
    reals as everywhere in this file, so TOML's [nan] and [inf] are
    outside the model. *)

#[warnings="-register-all"] Inductive toml : Type :=
  | TInt (z : Z)
  | TFloat (x : R)
  | TBool (b : bool)
  | TStr (s : string)
  | TArray (l : list toml)
  | TTable (t : list (string * toml))
  | TDate.

(** The parsed file as [load_config] reads it: the values that the
    dictionary of [toml.load] holds under the keys "settings", "geometry"
    and "IO", where present.  A key written as a section of the file holds
    a table; written as a key of the top level ([settings = 5]) it holds
    whatever value the file gives it. *)
Record RawConfig : Type := mkRawConfig {
  raw_settings : option toml;
  raw_geometry : option toml;
  raw_IO : option toml
}.

(** The dictionary that [load_config] returns.  [n_steps] and
    [write_frequency] are returned as they were read; a boolean is the
    integer 0 or 1 ([bool] is a subclass of [int]). *)
Record Config : Type := mkConfig {
  cfg_n_steps : Z;
  cfg_t_end : R;
  cfg_mesh_name : string;
  cfg_borders : (R * R) * (R * R);
  cfg_log_name : string;
  cfg_write_frequency : option Z
}.

(** What [load_config] can raise after the file has been parsed. *)
Inductive config_exn : Type :=
  | ConfigError
  | CfgTypeError
  | CfgIndexError
  | CfgKeyError
  | CfgAttributeError
  | CfgOverflowError.

Inductive config_result (A : Type) : Type :=
  | CfgOk (a : A)
  | CfgRaise (e : config_exn).
Arguments CfgOk {A} a.
Arguments CfgRaise {A} e.

Definition cfg_bind {A B : Type} (r : config_result A)
    (k : A → config_result B) : config_result B :=
  match r with
  | CfgOk a => k a
  | CfgRaise e => CfgRaise e
  end.

Notation "x ←? r ; k" := (cfg_bind r (fun x => k))
  (at level 20, r at level 100, k at level 200, right associativity,
   format "x  ←?  r ;  '/' k").

(** [if cond: raise ConfigError(...)]. *)
Definition config_error_if (cond : bool) : config_result unit :=
  if cond then CfgRaise ConfigError else CfgOk tt.

Definition is_table (v : toml) : bool :=
  match v with
  | TTable _ => true
  | _ => false
  end.

(** [key in s] on two strings: [key] occurs in [s]. *)
Fixpoint substring_of (key s : string) : bool :=
  String.prefix key s
  || match s with
     | EmptyString => false
     | String _ s' => substring_of key s'
     end.

(** [key in v] with a string [key]: a key of a table, a part of a string,
    an element of an array (only a string equals a string); the other
    values cannot be iterated and raise [TypeError]. *)
Definition py_in (key : string) (v : toml) : config_result bool :=
  match v with
  | TTable t => CfgOk (match oget t key with Some _ => true | None => false end)
  | TStr s => CfgOk (substring_of key s)
  | TArray l =>
      CfgOk (existsb (fun x => match x with
                               | TStr s => String.eqb s key
                               | _ => false
                               end) l)
  | TInt _ | TFloat _ | TBool _ | TDate => CfgRaise CfgTypeError
  end.

(** [v[key]] with a string [key]: the entry of a table ([KeyError] without
    one); a string and an array take integer indices only and the other
    values none, all raising [TypeError]. *)
Definition py_getitem (v : toml) (key : string) : config_result toml :=
  match v with
  | TTable t =>
      match oget t key with
      | Some x => CfgOk x
      | None => CfgRaise CfgKeyError
      end
  | TInt _ | TFloat _ | TBool _ | TStr _ | TArray _ | TDate =>
      CfgRaise CfgTypeError
  end.

(** [v.get(key)]: a method of tables only; on the other values the
    attribute lookup raises [AttributeError]. *)
Definition py_get (v : toml) (key : string) : config_result (option toml) :=
  match v with
  | TTable t => CfgOk (oget t key)
  | TInt _ | TFloat _ | TBool _ | TStr _ | TArray _ | TDate =>
      CfgRaise CfgAttributeError
  end.

(** [if key not in v: raise ConfigError(...)]. *)
Definition required (v : toml) (key : string) : config_result unit :=
  found ←? py_in key v;
  config_error_if (negb found).

(** The value when [isinstance(v, int)] holds. *)
Definition as_int (v : toml) : option Z :=
  match v with
  | TInt z => Some z
  | TBool b => Some (if b then 1 else 0)%Z
  | _ => None
  end.

(** The value when [isinstance(v, (int, float))] holds. *)
Definition as_number (v : toml) : option R :=
  match v with
  | TInt z => Some (IZR z)
  | TBool b => Some (if b then 1 else 0)%R
  | TFloat x => Some x
  | _ => None
  end.

(** One round of [for row in borders]: [ConfigError] unless
    [isinstance(row, (list, tuple)) and len(row) == 2]. *)
Definition row_pair (row : toml) : config_result (toml * toml) :=
  match row with
  | TArray [a; b] => CfgOk (a, b)
  | _ => CfgRaise ConfigError
  end.

Fixpoint cfg_mapM {A B : Type} (f : A → config_result B) (l : list A)
    : config_result (list B) :=
  match l with
  | [] => CfgOk []
  | a :: l' => b ←? f a; bs ←? cfg_mapM f l'; CfgOk (b :: bs)
  end.

(** [for row in borders: if ...: raise ConfigError(...)]; the result is
    the rows, each with its two entries.  Iterating a string gives its
    characters and iterating a table its keys, all of them strings, so
    only an empty string or table passes; the other values cannot be
    iterated. *)
Definition check_rows (borders : toml)
    : config_result (list (toml * toml)) :=
  match borders with
  | TArray rows => cfg_mapM row_pair rows
  | TStr s => if String.eqb s "" then CfgOk [] else CfgRaise ConfigError
  | TTable t =>
      match t with
      | [] => CfgOk []
      | _ :: _ => CfgRaise ConfigError
      end
  | TInt _ | TFloat _ | TBool _ | TDate => CfgRaise CfgTypeError
  end.

(** [borders[i]] where the rows have been checked: without a row [i], an
    array or a string raises [IndexError] and a table [KeyError]. *)
Definition get_row (borders : toml) (rows : list (toml * toml)) (i : nat)
    : config_result (toml * toml) :=
  match rows !! i with
  | Some row => CfgOk row
  | None =>
      CfgRaise (match borders with
                | TTable _ => CfgKeyError
                | _ => CfgIndexError
                end)
  end.

(** [if not isinstance(value, (int, float)): raise ConfigError(...)]. *)
Definition number (v : toml) : config_result R :=
  match as_number v with
  | Some x => CfgOk x
  | None => CfgRaise ConfigError
  end.

(** The integers that [float] refuses: those that round to no finite
    double, from [2^1024 - 2^970] on in absolute value. *)
Definition float_overflows (v : toml) : bool :=
  match v with
  | TInt z => (2 ^ 1024 - 2 ^ 970 <=? Z.abs z)%Z
  | _ => false
  end.

(** [float(v)] on a value that has passed [isinstance(v, (int, float))]:
    [OverflowError] on an integer out of the range of the floats, and
    otherwise the number itself (floats being reals here, the rounding of
    an integer within the range is left out). *)
Definition py_float (v : toml) : config_result R :=
  if float_overflows v then CfgRaise CfgOverflowError
  else CfgOk (default 0%R (as_number v)).

(** [load_config], from the parsed file on. *)
Definition load_config (raw_data : RawConfig) : config_result Config :=
  match raw_settings raw_data, raw_geometry raw_data with
  | None, _ => CfgRaise ConfigError
  | Some _, None => CfgRaise ConfigError
  | Some settings, Some geometry =>
      let io := default (TTable []) (raw_IO raw_data) in
      _ ←? required settings "nSteps";
      _ ←? required settings "tEnd";
      n_steps ←? py_getitem settings "nSteps";
      t_end ←? py_getitem settings "tEnd";
      _ ←? config_error_if
             (match as_int n_steps with
              | Some n => (n <=? 0)%Z
              | None => true
              end);
      _ ←? config_error_if
             (match as_number t_end with
              | Some t => Rleb t 0
              | None => true
              end);
      _ ←? required geometry "meshName";
      _ ←? required geometry "borders";
      mesh_name ←? py_getitem geometry "meshName";
      borders ←? py_getitem geometry "borders";
      _ ←? config_error_if
             (match mesh_name with
              | TStr s => String.eqb s ""
              | _ => true
              end);
      rows ←? check_rows borders;
      x ←? get_row borders rows 0;
      y ←? get_row borders rows 1;
      xmin ←? number x.1;
      xmax ←? number x.2;
      ymin ←? number y.1;
      ymax ←? number y.2;
      _ ←? config_error_if (Rleb xmax xmin || Rleb ymax ymin);
      log_name ←? py_get io "logName";
      let log_name := default (TStr "logfile") log_name in
      _ ←? config_error_if
             (match log_name with TStr _ => false | _ => true end);
      write_frequency ←? py_get io "writeFrequency";
      _ ←? config_error_if
             (match write_frequency with
              | None => false
              | Some v => match as_int v with
                          | Some w => (w <=? 0)%Z
                          | None => true
                          end
              end);
      t_end ←? py_float t_end;
      xmin ←? py_float x.1;
      xmax ←? py_float x.2;
      ymin ←? py_float y.1;
      ymax ←? py_float y.2;
      CfgOk (mkConfig
               (default 0%Z (as_int n_steps))
               t_end
               (match mesh_name with TStr s => s | _ => "" end)
               ((xmin, xmax), (ymin, ymax))
               (match log_name with TStr s => s | _ => "" end)
               (write_frequency ≫= as_int))
  end.



(** A configuration file as the program expects it, and the same file
    with [borders = []], with [IO = 5] or [settings = 5] at the top level
    in place of the section, and with [tEnd = 2^1024]. *)
Definition config_input : RawConfig :=
  mkRawConfig
    (Some (TTable [("nSteps", TInt 500); ("tEnd", TFloat 0.5)]))
    (Some (TTable [("meshName", TStr "bay.msh");
                   ("borders", TArray [TArray [TFloat 0; TFloat 0.45];
                                       TArray [TFloat 0; TFloat 0.2]])]))
    (Some (TTable [("logName", TStr "log"); ("writeFrequency", TInt 20)])).

Definition config_no_borders : RawConfig :=
  mkRawConfig (raw_settings config_input)
    (Some (TTable [("meshName", TStr "bay.msh"); ("borders", TArray [])]))
    (raw_IO config_input).

Definition config_io_number : RawConfig :=
  mkRawConfig (raw_settings config_input) (raw_geometry config_input)
    (Some (TInt 5)).

Definition config_t_end_huge : RawConfig :=
  mkRawConfig
    (Some (TTable [("nSteps", TInt 500); ("tEnd", TInt (2 ^ 1024))]))
    (raw_geometry config_input) (raw_IO config_input).

Definition config_settings_number : RawConfig :=
  mkRawConfig (Some (TInt 5)) (raw_geometry config_input)
    (raw_IO config_input).


(** Every edge of every Triangle is an edge of another cell too (a Line
    of the boundary or a second Triangle). *)
Definition edges_shared (cs : list Cell) : Prop :=
  ∀ b t e, Triangle b t ∈ cs → e ∈ edges b →
           ∃ c, c ∈ cs ∧ cell_id (base c) ≠ cell_id b ∧ e ∈ edges (base c).

(** What the flux loop of [solver] relies on, apart from the neighbours
    themselves: ids are positions, recorded neighbours are cells, and every
    edge of a Triangle has a normal and a mean flow. *)
Definition prepared (cs : list Cell) : Prop :=
  ids_ok cs ∧ neighbours_valid cs ∧
  ∀ b t e, Triangle b t ∈ cs → e ∈ edges b →
           is_Some (normals t !! e) ∧ is_Some (mean_flow t !! e).


(** A mesh of one triangle without boundary lines. *)
Definition lone_blocks : list CellBlock :=
  [mkCellBlock "triangle" [[0; 1; 2]]].

Definition lone_created : Mesh :=
  mkMesh square_points
    [square_triangle 0 [0; 1; 2] [(0, 1); (1, 2); (0, 2)]] lone_blocks ∅.


(** [c'] is [c] with its concentration multiplied by [k]. *)
Definition scaled (k : R) (c c' : Cell) : Prop :=
  same_frame c c' ∧
  match c, c' with
  | Triangle _ t, Triangle _ t' =>
      concentration t' = (k * concentration t)%R
  | _, _ => True
  end.


(** The cell with its concentration multiplied by [k]. *)
Definition scale_concentration (k : R) (c : Cell) : Cell :=
  match c with
  | Triangle b t => Triangle b (set_concentration t (k * concentration t)%R)
  | Line b => Line b
  end.


(** The initialised square with every concentration doubled. *)
Definition square_doubled : Simulation :=
  set_sim_cells square_initialized
    (scale_concentration 2 <$> cells (sim_mesh square_initialized)).


(** * Properties *)

Lemma Rgtb_true x y : (x > y)%R → Rgtb x y = true.
Proof. intros H. unfold Rgtb. destruct (Rgt_dec x y); [done | contradiction]. Qed.

Lemma Rgtb_false x y : ¬ (x > y)%R → Rgtb x y = false.
Proof. intros H. unfold Rgtb. destruct (Rgt_dec x y); [contradiction | done]. Qed.

Lemma Rleb_true x y : (x <= y)%R → Rleb x y = true.
Proof. intros H. unfold Rleb. destruct (Rle_dec x y); [done | contradiction]. Qed.

Lemma Rleb_false x y : ¬ (x <= y)%R → Rleb x y = false.
Proof. intros H. unfold Rleb. destruct (Rle_dec x y); [contradiction | done]. Qed.

(** C1.  [oil_velocity] is the upwind rule: with
    [v = dot mean_flow outer_normal] it returns [c * v] when [v > 0] and
    [cn * v] otherwise.  With normal (1,0), flow (2,0), c = 0.5 and
    cn = 0.2 the flux is 1.0; with normal (-1,0) it is -0.4. *)
Theorem C1_oil_velocity_upwind :
  (∀ (outer_normal mean_flow : vec) (c cn : R),
     let v := dot mean_flow outer_normal in
     ((v > 0)%R → oil_velocity outer_normal mean_flow c cn = (c * v)%R) ∧
     (¬ (v > 0)%R → oil_velocity outer_normal mean_flow c cn = (cn * v)%R)) ∧
  oil_velocity (1, 0)%R (2, 0)%R 0.5%R 0.2%R = 1.0%R ∧
  oil_velocity (-1, 0)%R (2, 0)%R 0.5%R 0.2%R = (-0.4)%R.
Proof.
  split.
  - intros n m c cn v. unfold oil_velocity. fold v. split; intros Hv.
    + by rewrite Rgtb_true.
    + by rewrite Rgtb_false.
  - unfold oil_velocity, dot; simpl. split.
    + rewrite Rgtb_true; lra.
    + rewrite Rgtb_false; lra.
Qed.

Lemma C1_oil_velocity_upwind_witness :
  oil_velocity (0, 1)%R (3, 4)%R 0.5%R 0.2%R = (0.5 * dot (3, 4) (0, 1))%R.
Proof.
  apply (proj1 C1_oil_velocity_upwind (0, 1)%R (3, 4)%R 0.5%R 0.2%R).
  unfold dot; simpl; lra.
Defined.

(** ** Outward normals *)

Section NormalFacts.
Local Open Scope R_scope.

Lemma norm_nonneg a : 0 <= norm a.
Proof. apply sqrt_pos. Qed.

Lemma norm_sqr a : norm a * norm a = a.1 * a.1 + a.2 * a.2.
Proof. unfold norm. apply sqrt_sqrt. nra. Qed.

Lemma norm_rot a : norm (- a.2, a.1) = norm a.
Proof. unfold norm; simpl. f_equal. ring. Qed.

Lemma norm_vneg a : norm (vneg a) = norm a.
Proof. unfold norm, vneg; simpl. f_equal. ring. Qed.

Lemma norm_vscale a k : 0 <= k → norm (vscale a k) = norm a * k.
Proof.
  intros Hk. unfold norm, vscale; simpl.
  replace (a.1 * k * (a.1 * k) + a.2 * k * (a.2 * k))
    with ((a.1 * a.1 + a.2 * a.2) * (k * k)) by ring.
  rewrite sqrt_mult_alt by nra. by rewrite sqrt_square.
Qed.

Lemma norm_unit a : norm a ≠ 0 → norm (vdiv a (norm a)) = 1.
Proof.
  intros Hn. pose proof (norm_sqr a) as Hs.
  unfold vdiv. unfold norm at 1; simpl.
  replace (a.1 / norm a * (a.1 / norm a) + a.2 / norm a * (a.2 / norm a))
    with 1; [apply sqrt_1 |].
  field_simplify_eq; [| done]. nra.
Qed.

Lemma dot_vneg a b : dot (vneg a) b = - dot a b.
Proof. unfold dot, vneg; simpl. ring. Qed.

Lemma dot_vscale a k b : dot (vscale a k) b = dot a b * k.
Proof. unfold dot, vscale; simpl. ring. Qed.

Lemma dot_comm_vneg a b : dot a (vneg b) = - dot a b.
Proof. unfold dot, vneg; simpl. ring. Qed.

Lemma edge_normal_ok coords center e p1 p2 :
  oget coords e.1 = Some p1 → oget coords e.2 = Some p2 →
  norm (vsub p2 p1) ≠ 0 →
  edge_normal coords center e = Ok (outward_normal p1 p2 center).
Proof.
  intros H1 H2 Hn. unfold edge_normal. rewrite H1, H2. simpl.
  unfold Reqb. destruct (Req_EM_T _ 0) as [Hz | _]; [| done].
  exfalso. apply Hn. rewrite <- norm_rot. exact Hz.
Qed.

Lemma edge_normal_inv coords center e n :
  edge_normal coords center e = Ok n →
  ∃ p1 p2, oget coords e.1 = Some p1 ∧ oget coords e.2 = Some p2 ∧
           norm (vsub p2 p1) ≠ 0 ∧ n = outward_normal p1 p2 center.
Proof.
  unfold edge_normal. intros H.
  destruct (oget coords e.1) as [p1 |]; [| done].
  destruct (oget coords e.2) as [p2 |]; [| done]. simpl in H.
  unfold Reqb in H. destruct (Req_EM_T _ 0) as [| Hz]; [done |].
  exists p1, p2. split; [done |]. split; [done |]. split.
  - intros Hn. apply Hz. rewrite <- Hn. apply (norm_rot (vsub p2 p1)).
  - inversion H. reflexivity.
Qed.

Lemma outward_normal_norm p1 p2 center :
  norm (vsub p2 p1) ≠ 0 →
  norm (outward_normal p1 p2 center) = norm (vsub p2 p1).
Proof.
  intros Hn. unfold outward_normal.
  set (ev := vsub p2 p1) in *. set (nv := (- ev.2, ev.1)).
  assert (Hnv : norm nv ≠ 0) by (unfold nv; by rewrite norm_rot).
  rewrite norm_vscale by apply norm_nonneg.
  destruct (Rgtb _ 0); rewrite ?norm_vneg, norm_unit by done; ring.
Qed.

Lemma outward_normal_points_out p1 p2 center :
  dot (outward_normal p1 p2 center)
      (vsub center (vdiv (vadd p1 p2) 2)) <= 0.
Proof.
  unfold outward_normal.
  set (u := vdiv _ _). set (tc := vsub center _).
  pose proof (norm_nonneg (vsub p2 p1)) as HL.
  rewrite dot_vscale. unfold Rgtb. destruct (Rgt_dec (dot u tc) 0).
  - rewrite dot_vneg. nra.
  - nra.
Qed.

(** The stored vector is at a right angle to its edge. *)
Lemma outward_normal_perp p1 p2 center :
  dot (outward_normal p1 p2 center) (vsub p2 p1) = 0.
Proof.
  unfold outward_normal. cbv zeta.
  set (ev := vsub p2 p1). rewrite dot_vscale.
  destruct (Rgtb _ 0); [rewrite dot_vneg |];
    unfold dot, vdiv, Rdiv; simpl; ring.
Qed.
End NormalFacts.

Lemma foldM_app {A B : Type} (f : B → A → result B) b l1 l2 :
  foldM f b (l1 ++ l2) = (b' ←! foldM f b l1; foldM f b' l2).
Proof.
  revert b. induction l1 as [| a l1 IH]; intros b; simpl; [done |].
  destruct (f b a); simpl; [apply IH | done].
Qed.

(** [compute_normal] on a list of edges: success exactly when every edge
    has both end points in [coords] at a nonzero distance, and then the
    dictionary holds [outward_normal] for each edge and extends [acc]. *)
Lemma compute_normal_from_ok (coords : odict nat vec) (center : vec)
    (es : list Edge)
    (acc : gmap Edge vec) :
  (∀ e, e ∈ es → ∃ p1 p2, oget coords e.1 = Some p1 ∧
                           oget coords e.2 = Some p2 ∧
                           norm (vsub p2 p1) ≠ 0%R) →
  ∃ ns,
    foldM (fun scaled_normals edge =>
             n ←! edge_normal coords center edge;
             Ok (<[edge := n]> scaled_normals)) acc es = Ok ns ∧
    (∀ e, e ∈ es → ∃ p1 p2, oget coords e.1 = Some p1 ∧
                             oget coords e.2 = Some p2 ∧
                             ns !! e = Some (outward_normal p1 p2 center)) ∧
    (∀ e, e ∉ es → ns !! e = acc !! e).
Proof.
  revert acc. induction es as [| e es IH]; intros acc Hes.
  - exists acc. split; [done |]. split; [| done].
    intros e He. by apply elem_of_nil in He.
  - destruct (Hes e) as (p1 & p2 & H1 & H2 & Hn); [left |].
    simpl. rewrite (edge_normal_ok _ _ _ _ _ H1 H2 Hn). simpl.
    destruct (IH (<[e := outward_normal p1 p2 center]> acc))
      as (ns & Hns & Hin & Hout).
    { intros e' He'. apply Hes. by right. }
    exists ns. split; [done |]. split.
    + intros e' He'. destruct (decide (e' ∈ es)) as [Hi | Hni].
      * by apply Hin.
      * apply elem_of_cons in He' as [-> | ?]; [| done].
        exists p1, p2. repeat split; [done | done |].
        rewrite (Hout _ Hni). apply lookup_insert_eq.
    + intros e' He'. apply not_elem_of_cons in He' as [Hne Hni].
      rewrite (Hout _ Hni). by apply lookup_insert_ne.
Qed.

Lemma compute_normal_inv (coords : odict nat vec) (center : vec)
    (es : list Edge)
    (acc ns : gmap Edge vec) :
  foldM (fun scaled_normals edge =>
           n ←! edge_normal coords center edge;
           Ok (<[edge := n]> scaled_normals)) acc es = Ok ns →
  ∀ e, e ∈ es → ∃ p1 p2, oget coords e.1 = Some p1 ∧
                          oget coords e.2 = Some p2 ∧
                          norm (vsub p2 p1) ≠ 0%R.
Proof.
  revert acc. induction es as [| e es IH]; intros acc H e' He'.
  - by apply elem_of_nil in He'.
  - simpl in H. destruct (edge_normal coords center e) as [n |] eqn:En; [| done].
    simpl in H. apply elem_of_cons in He' as [-> | He'].
    + apply edge_normal_inv in En as (p1 & p2 & ? & ? & ? & _). eauto.
    + by eapply IH.
Qed.

Lemma Triangle_init_inv cid ns cds b t :
  Triangle_init cid ns cds = Ok (Triangle b t) →
  ∃ n0 n1 n2,
    ns = [n0; n1; n2] ∧
    b = mkCellBase cid ns
          [sorted_pair n0 n1; sorted_pair n1 n2; sorted_pair n2 n0] cds ∅ ∧
    center_point t = compute_center_point cds ∧
    compute_normal cds (compute_center_point cds) (edges b) = Ok (normals t) ∧
    compute_area cds = Ok (area t) ∧
    mean_flow t = ∅ ∧ concentration t = 0%R.
Proof.
  unfold Triangle_init. intros H.
  destruct ns as [| n0 [| n1 [| n2 [| ? ?]]]]; try done. simpl in H.
  destruct (compute_normal _ _ _) as [nm |] eqn:En; [| done]. simpl in H.
  destruct (compute_area cds) as [a |] eqn:Ea; [| done]. simpl in H.
  inversion H; subst; clear H. exists n0, n1, n2. simpl.
  repeat split; try done. lra.
Qed.

(** C5.  [compute_normal] succeeds on every edge list whose edges have
    both end points in [coords] at a nonzero distance, and each vector it
    stores is normal to its edge (their dot product is 0), has the length
    of the edge and a non-positive dot product with the vector from the
    edge midpoint to the centre.  In particular this
    holds for the three edges, the normals and the centroid of every
    Triangle that [Triangle.__init__] builds. *)
Theorem C5_compute_normal_outward :
  (∀ (coords : odict nat vec) (center : vec) (es : list Edge),
     (∀ e, e ∈ es → ∃ p1 p2, oget coords e.1 = Some p1 ∧
                              oget coords e.2 = Some p2 ∧
                              norm (vsub p2 p1) ≠ 0%R) →
     ∃ ns, compute_normal coords center es = Ok ns ∧
       ∀ e, e ∈ es → ∃ p1 p2 n,
         oget coords e.1 = Some p1 ∧ oget coords e.2 = Some p2 ∧
         ns !! e = Some n ∧
         dot n (vsub p2 p1) = 0%R ∧
         norm n = norm (vsub p2 p1) ∧
         (dot n (vsub center (vdiv (vadd p1 p2) 2)) <= 0)%R) ∧
  (∀ cid ns cds b t,
     Triangle_init cid ns cds = Ok (Triangle b t) →
     length (edges b) = 3 ∧
     ∀ e, e ∈ edges b → ∃ p1 p2 n,
       oget (coords b) e.1 = Some p1 ∧ oget (coords b) e.2 = Some p2 ∧
       normals t !! e = Some n ∧
       norm (vsub p2 p1) ≠ 0%R ∧
       dot n (vsub p2 p1) = 0%R ∧
       norm n = norm (vsub p2 p1) ∧
       (dot n (vsub (center_point t) (vdiv (vadd p1 p2) 2)) <= 0)%R).
Proof.
  assert (Hgen : ∀ (coords : odict nat vec) (center : vec) (es : list Edge),
     (∀ e, e ∈ es → ∃ p1 p2, oget coords e.1 = Some p1 ∧
                              oget coords e.2 = Some p2 ∧
                              norm (vsub p2 p1) ≠ 0%R) →
     ∃ ns, compute_normal coords center es = Ok ns ∧
       ∀ e, e ∈ es → ∃ p1 p2 n,
         oget coords e.1 = Some p1 ∧ oget coords e.2 = Some p2 ∧
         ns !! e = Some n ∧
         norm (vsub p2 p1) ≠ 0%R ∧
         dot n (vsub p2 p1) = 0%R ∧
         norm n = norm (vsub p2 p1) ∧
         (dot n (vsub center (vdiv (vadd p1 p2) 2)) <= 0)%R).
  { intros cds center es Hes.
    destruct (compute_normal_from_ok cds center es ∅ Hes) as (ns & Hns & Hin & _).
    exists ns. split; [done |]. intros e He.
    destruct (Hin e He) as (p1 & p2 & H1 & H2 & Hl).
    destruct (Hes e He) as (q1 & q2 & H1' & H2' & Hn).
    assert (q1 = p1) by congruence. assert (q2 = p2) by congruence. subst.
    exists p1, p2, (outward_normal p1 p2 center).
    repeat split; try done.
    - apply outward_normal_perp.
    - by apply outward_normal_norm.
    - apply outward_normal_points_out. }
  split.
  - intros cds center es Hes. destruct (Hgen cds center es Hes) as (ns & Hns & Hp).
    exists ns. split; [done |]. intros e He.
    destruct (Hp e He) as (p1 & p2 & n & ? & ? & ? & ? & ? & ? & ?).
    exists p1, p2, n. done.
  - intros cid ns cds b t Hinit.
    apply Triangle_init_inv in Hinit
      as (n0 & n1 & n2 & -> & Hb & Hc & Hn & _).
    split; [by subst b |].
    assert (Hcds : coords b = cds) by by subst b. rewrite Hcds, Hc.
    pose proof (compute_normal_inv _ _ _ ∅ _ Hn) as Hes.
    destruct (Hgen cds (compute_center_point cds) _ Hes) as (ns' & Hns' & Hp).
    assert (ns' = normals t) by (unfold compute_normal in *; congruence).
    subst ns'. done.
Qed.

(** ** Adjacency index and neighbour assignment *)

Lemma append_edges_lookup (cid : nat) (es : list Edge) (me : gmap Edge (list nat)) (e : Edge) :
  foldl (append_cell_id cid) me es !!! e
  = me !!! e ++ flat_map (fun e' => if decide (e' = e) then [cid] else []) es.
Proof.
  revert me. induction es as [| e0 es IH]; intros me; simpl.
  - by rewrite app_nil_r.
  - rewrite IH. unfold append_cell_id.
    destruct (decide (e0 = e)) as [-> | Hne].
    + rewrite lookup_total_insert_eq. by rewrite <- app_assoc.
    + by rewrite lookup_total_insert_ne.
Qed.

Lemma append_edges_is_Some (cid : nat) (es : list Edge) (me : gmap Edge (list nat)) (e : Edge) :
  is_Some (foldl (append_cell_id cid) me es !! e)
  ↔ is_Some (me !! e) ∨ e ∈ es.
Proof.
  revert me. induction es as [| e0 es IH]; intros me; simpl.
  - rewrite elem_of_nil. tauto.
  - rewrite IH. unfold append_cell_id. rewrite elem_of_cons.
    destruct (decide (e0 = e)) as [-> | Hne].
    + rewrite lookup_insert_eq. split; [| intros _; left]; eauto.
    + rewrite lookup_insert_ne by done. split; intros [? | ?]; auto.
      destruct H as [-> | ?]; [done | auto].
Qed.

Lemma build_topology_cells m : cells (build_topology m) = cells m.
Proof. done. Qed.

Lemma build_fold_lookup (cs : list Cell) (me : gmap Edge (list nat)) (e : Edge) :
  foldl (fun me cell => foldl (append_cell_id (cell_id (base cell))) me
                          (edges (base cell))) me cs !!! e
  = me !!! e ++ edge_cell_ids cs e.
Proof.
  revert me. induction cs as [| c cs IH]; intros me; simpl.
  - by rewrite app_nil_r.
  - rewrite IH, append_edges_lookup. by rewrite <- app_assoc.
Qed.

Lemma build_fold_is_Some (cs : list Cell) (me : gmap Edge (list nat)) (e : Edge) :
  is_Some (foldl (fun me cell => foldl (append_cell_id (cell_id (base cell))) me
                                   (edges (base cell))) me cs !! e)
  ↔ is_Some (me !! e) ∨ ∃ c, c ∈ cs ∧ e ∈ edges (base c).
Proof.
  revert me. induction cs as [| c cs IH]; intros me; simpl.
  - split; [auto | intros [? | (c & Hc & _)]; [done |]].
    by apply elem_of_nil in Hc.
  - rewrite IH, append_edges_is_Some. split.
    + intros [[? | ?] | (c' & ? & ?)]; [by left | right | right].
      * exists c. split; [left | done].
      * exists c'. split; [by right | done].
    + intros [? | (c' & Hc' & ?)]; [by left; left |].
      apply elem_of_cons in Hc' as [-> | ?]; [left; by right |].
      right. by exists c'.
Qed.

(** After [build_topology] every edge's list is its former list followed
    by the ids of the cells that have the edge. *)
Lemma build_topology_lookup (m : Mesh) (e : Edge) :
  mesh_edges (build_topology m) !!! e
  = mesh_edges m !!! e ++ edge_cell_ids (cells m) e.
Proof. apply build_fold_lookup. Qed.

Lemma build_topology_keys (m : Mesh) (c : Cell) (e : Edge) :
  c ∈ cells m → e ∈ edges (base c) →
  is_Some (mesh_edges (build_topology m) !! e).
Proof. intros Hc He. apply build_fold_is_Some. right. eauto. Qed.

Lemma defaultdict_get_1 (me : gmap Edge (list nat)) (e : Edge) :
  (defaultdict_get me e).1 = me !!! e.
Proof.
  unfold defaultdict_get. rewrite lookup_total_alt.
  by destruct (me !! e).
Qed.

Lemma defaultdict_get_total (me : gmap Edge (list nat)) (e e' : Edge) :
  (defaultdict_get me e).2 !!! e' = me !!! e'.
Proof.
  unfold defaultdict_get. destruct (me !! e) eqn:E; simpl; [done |].
  destruct (decide (e = e')) as [<- | Hne].
  - rewrite lookup_total_insert_eq, lookup_total_alt. by rewrite E.
  - by rewrite lookup_total_insert_ne.
Qed.

Lemma defaultdict_get_present (me : gmap Edge (list nat)) (e : Edge) :
  is_Some (me !! e) → (defaultdict_get me e).2 = me.
Proof. intros [l Hl]. unfold defaultdict_get. by rewrite Hl. Qed.

Lemma assign_from_ids_spec (cid : nat) (e : Edge)
    (nbs : gmap Edge nb_value) (ids : list nat) :
  assign_from_ids cid e nbs ids
  = match last_other cid ids with
    | Some n => <[e := NbId n]> nbs
    | None => nbs
    end.
Proof.
  unfold assign_from_ids, last_other.
  induction ids as [| x ids IH] using rev_ind; [done |].
  rewrite foldl_snoc, filter_app, IH. clear IH.
  rewrite filter_cons, filter_nil.
  destruct (decide (x ≠ cid)) as [Hx | Hx].
  - rewrite last_snoc. destruct (last _); [apply insert_insert_eq | done].
  - by rewrite app_nil_r.
Qed.

Lemma neighbours_after_ext (cid : nat) (me me' : gmap Edge (list nat))
    (es : list Edge) (nbs : gmap Edge nb_value) :
  (∀ e, me !!! e = me' !!! e) →
  neighbours_after cid me es nbs = neighbours_after cid me' es nbs.
Proof.
  intros Hme. unfold neighbours_after. revert nbs.
  induction es as [| e es IH]; intros nbs; simpl; [done |].
  by rewrite Hme, IH.
Qed.

Lemma neighbours_after_lookup (cid : nat) (me : gmap Edge (list nat))
    (es : list Edge) (nbs : gmap Edge nb_value) (e : Edge) :
  neighbours_after cid me es nbs !! e
  = match (if decide (e ∈ es) then last_other cid (me !!! e) else None) with
    | Some n => Some (NbId n)
    | None => nbs !! e
    end.
Proof.
  unfold neighbours_after. revert nbs.
  induction es as [| e0 es IH]; intros nbs; simpl.
  - destruct (decide (e ∈ [])) as [H | _]; [by apply elem_of_nil in H | done].
  - rewrite IH, assign_from_ids_spec.
    destruct (decide (e ∈ es)) as [Hin | Hnin].
    + rewrite decide_True by by right.
      destruct (last_other cid (me !!! e)) eqn:El; [done |].
      destruct (decide (e0 = e)) as [-> | Hne].
      * by rewrite El.
      * destruct (last_other cid (me !!! e0)); [| done].
        by rewrite lookup_insert_ne.
    + destruct (decide (e0 = e)) as [-> | Hne].
      * rewrite decide_True by left.
        destruct (last_other cid (me !!! e)); [apply lookup_insert_eq | done].
      * rewrite decide_False by (intros [? | ?]%elem_of_cons; done).
        destruct (last_other cid (me !!! e0)); [| done].
        by rewrite lookup_insert_ne.
Qed.

Lemma assign_edge_eq (cid : nat) (me : gmap Edge (list nat))
    (nbs : gmap Edge nb_value) (e : Edge) :
  assign_edge cid (me, nbs) e
  = ((defaultdict_get me e).2, assign_from_ids cid e nbs (me !!! e)).
Proof.
  unfold assign_edge. simpl. rewrite <- defaultdict_get_1.
  by destruct (defaultdict_get me e).
Qed.

Lemma assign_edges_fold (cid : nat) (es : list Edge)
    (me : gmap Edge (list nat)) (nbs : gmap Edge nb_value) :
  let st := foldl (assign_edge cid) (me, nbs) es in
  (∀ e, st.1 !!! e = me !!! e) ∧
  st.2 = neighbours_after cid me es nbs ∧
  ((∀ e, e ∈ es → is_Some (me !! e)) → st.1 = me).
Proof.
  revert me nbs. induction es as [| e0 es IH]; intros me nbs; simpl.
  - done.
  - rewrite assign_edge_eq.
    pose proof (defaultdict_get_total me e0) as H2.
    pose proof (defaultdict_get_present me e0) as H3.
    set (me1 := (defaultdict_get me e0).2) in *.
    destruct (IH me1 (assign_from_ids cid e0 nbs (me !!! e0)))
      as (Ha & Hb & Hc).
    split; [| split].
    + intros e. by rewrite Ha.
    + rewrite Hb. unfold neighbours_after at 2. simpl.
      by apply neighbours_after_ext.
    + intros Hall. rewrite Hc.
      * apply H3, Hall. left.
      * rewrite H3 by (apply Hall; left). intros e He. apply Hall. by right.
Qed.

Lemma assign_cell_spec (me : gmap Edge (list nat)) (c : Cell) :
  (∀ e, (assign_cell me c).1 !!! e = me !!! e) ∧
  (assign_cell me c).2 = assigned_cell me c ∧
  ((∀ e, e ∈ edges (base c) → is_Some (me !! e)) → (assign_cell me c).1 = me).
Proof.
  unfold assign_cell, assigned_cell. simpl.
  destruct (assign_edges_fold (cell_id (base c)) (edges (base c)) me
              (neighbour_ids (base c))) as (Ha & Hb & Hc).
  by rewrite Hb.
Qed.

Lemma assigned_cell_ext (me me' : gmap Edge (list nat)) (c : Cell) :
  (∀ e, me !!! e = me' !!! e) → assigned_cell me c = assigned_cell me' c.
Proof.
  intros H. unfold assigned_cell. by rewrite (neighbours_after_ext _ me me').
Qed.

Lemma assign_cells_fold (cs : list Cell) (me : gmap Edge (list nat))
    (acc : list Cell) :
  let st := foldl (fun (st : gmap Edge (list nat) * list Cell) cell =>
                     ((assign_cell st.1 cell).1,
                      st.2 ++ [(assign_cell st.1 cell).2]))
                  (me, acc) cs in
  (∀ e, st.1 !!! e = me !!! e) ∧
  st.2 = acc ++ (assigned_cell me <$> cs) ∧
  ((∀ c e, c ∈ cs → e ∈ edges (base c) → is_Some (me !! e)) → st.1 = me).
Proof.
  revert me acc. induction cs as [| c cs IH]; intros me acc.
  - simpl. by rewrite app_nil_r.
  - destruct (assign_cell_spec me c) as (Ha & Hb & Hc).
    destruct (IH (assign_cell me c).1 (acc ++ [(assign_cell me c).2]))
      as (Hd & He & Hf).
    cbn zeta in *. cbn [foldl fst snd] in *.
    split; [| split].
    + intros e. by rewrite Hd.
    + rewrite He, Hb, <- app_assoc. simpl. do 2 f_equal.
      apply list_fmap_ext. intros _ c' _. by apply assigned_cell_ext.
    + intros Hall. rewrite Hf.
      * apply Hc. intros e He'. eapply Hall; [left | done].
      * rewrite Hc by (intros e He'; eapply Hall; [left | done]).
        intros c' e Hc' He'. eapply Hall; [by right | done].
Qed.

(** [assign_neighbours] gives every cell the neighbours read off the
    adjacency index, and leaves the index alone when every edge of every
    cell is a key of it. *)
Lemma assign_neighbours_cells (m : Mesh) :
  cells (assign_neighbours m) = assigned_cell (mesh_edges m) <$> cells m.
Proof.
  unfold assign_neighbours. cbn [cells].
  by destruct (assign_cells_fold (cells m) (mesh_edges m) []) as (_ & -> & _).
Qed.

Lemma assign_neighbours_edges_total (m : Mesh) (e : Edge) :
  mesh_edges (assign_neighbours m) !!! e = mesh_edges m !!! e.
Proof.
  unfold assign_neighbours. cbn [mesh_edges].
  destruct (assign_cells_fold (cells m) (mesh_edges m) []) as (H & _ & _).
  apply H.
Qed.

Lemma assign_neighbours_edges (m : Mesh) :
  (∀ c e, c ∈ cells m → e ∈ edges (base c) → is_Some (mesh_edges m !! e)) →
  mesh_edges (assign_neighbours m) = mesh_edges m.
Proof.
  intros H. unfold assign_neighbours. cbn [mesh_edges].
  destruct (assign_cells_fold (cells m) (mesh_edges m) []) as (_ & _ & Hc).
  by apply Hc.
Qed.

Lemma assigned_cell_base_id (me : gmap Edge (list nat)) (c : Cell) :
  cell_id (base (assigned_cell me c)) = cell_id (base c).
Proof. by destruct c. Qed.

Lemma assigned_cell_edges (me : gmap Edge (list nat)) (c : Cell) :
  edges (base (assigned_cell me c)) = edges (base c).
Proof. by destruct c. Qed.

Lemma assigned_cell_neighbours (me : gmap Edge (list nat)) (c : Cell) :
  neighbour_ids (base (assigned_cell me c))
  = neighbours_after (cell_id (base c)) me (edges (base c))
                     (neighbour_ids (base c)).
Proof. by destruct c. Qed.

Lemma edge_cell_ids_assigned (me : gmap Edge (list nat)) (cs : list Cell)
    (e : Edge) :
  edge_cell_ids (assigned_cell me <$> cs) e = edge_cell_ids cs e.
Proof.
  unfold edge_cell_ids. induction cs as [| c cs IH]; [done |].
  rewrite fmap_cons. cbn [flat_map].
  by rewrite IH, assigned_cell_base_id, assigned_cell_edges.
Qed.

Lemma last_other_repeat (cid : nat) (a b : list nat) :
  last_other cid (a ++ b ++ b) = last_other cid (a ++ b).
Proof.
  unfold last_other. rewrite !filter_app, !last_app.
  by destruct (last (filter _ b)).
Qed.

(** Assigning a second time, from an index in which every list was
    extended by the same cell ids once more, changes no cell. *)
Lemma assigned_cell_twice (me0 me1 me2 : gmap Edge (list nat))
    (occ : Edge → list nat) (c : Cell) :
  (∀ e, me1 !!! e = me0 !!! e ++ occ e) →
  (∀ e, me2 !!! e = me1 !!! e ++ occ e) →
  assigned_cell me2 (assigned_cell me1 c) = assigned_cell me1 c.
Proof.
  intros H1 H2.
  assert (Hn : neighbours_after (cell_id (base c)) me2 (edges (base c))
                 (neighbours_after (cell_id (base c)) me1 (edges (base c))
                    (neighbour_ids (base c)))
               = neighbours_after (cell_id (base c)) me1 (edges (base c))
                    (neighbour_ids (base c))).
  { apply map_eq. intros e. rewrite !neighbours_after_lookup.
    destruct (decide (e ∈ edges (base c))); [| done].
    rewrite H2, H1, <- app_assoc, last_other_repeat.
    by destruct (last_other _ _). }
  unfold assigned_cell at 1.
  rewrite assigned_cell_base_id, assigned_cell_edges, assigned_cell_neighbours, Hn.
  unfold assigned_cell. by destruct c as [[] ?|[]].
Qed.

Lemma norm_ne_0 (a : vec) : (a.1 ≠ 0 ∨ a.2 ≠ 0)%R → norm a ≠ 0%R.
Proof.
  intros H Hn. pose proof (norm_sqr a) as Hs. rewrite Hn in Hs.
  destruct H as [H | H]; apply H; nra.
Qed.

(** ** The unit tests of the repository, replayed on the model *)

(** [test_compute_flow_field]. *)
Example compute_flow_field_test :
  compute_flow_field (0.4, 0.5)%R = (0.42, - 0.4)%R ∧
  compute_flow_field (0, 0)%R = (0, 0)%R.
Proof. unfold compute_flow_field; simpl. split; f_equal; lra. Qed.

(** [test_initial_oil_concentration], at the source point. *)
Example initial_oil_concentration_at_source :
  initial_oil_concentration (0.305, 0.45)%R (0.305, 0.45)%R = 1%R.
Proof.
  unfold initial_oil_concentration, norm, vsub; simpl.
  replace ((0.305 - 0.305) * (0.305 - 0.305)
           + (0.45 - 0.45) * (0.45 - 0.45))%R with 0%R by lra.
  rewrite sqrt_0.
  replace (- (0 * (0 * 1)) / 0.01)%R with 0%R by lra.
  apply exp_0.
Qed.

(** [TRIANGLE_CASES], case T_0_4_5 of [test_unit_cell.py]: area, centre
    and the scaled outward normal of the edge (0,4). *)
Example triangle_T_0_4_5 :
  let cds : odict nat vec :=
    [(0, (0, 0)%R); (4, (0.25, 0.5)%R); (5, (0, 1)%R)] in
  compute_area cds = Ok 0.125%R ∧
  compute_center_point cds = (1 / 12, 1 / 2)%R ∧
  edge_normal cds (compute_center_point cds) (0, 4) = Ok (0.5, - 0.25)%R.
Proof.
  intros cds.
  assert (Hc : compute_center_point cds = (1 / 12, 1 / 2)%R).
  { unfold compute_center_point, np_mean, py_sum. cbn. f_equal; lra. }
  split; [| split; [exact Hc |]].
  - unfold compute_area. cbn. f_equal.
    replace ((0 * (0.5 - 1) + 0.25 * (1 - 0) + 0 * (0 - 0.5)) / 2.0)%R
      with 0.125%R by lra.
    apply Rabs_pos_eq. lra.
  - rewrite Hc.
    assert (Hn : norm (vsub (0.25, 0.5) (0, 0))%R ≠ 0%R).
    { apply norm_ne_0. unfold vsub; simpl. left. lra. }
    rewrite (edge_normal_ok cds _ (0, 4) (0, 0)%R (0.25, 0.5)%R);
      [| reflexivity | reflexivity | exact Hn].
    f_equal. unfold outward_normal.
    rewrite (norm_rot (vsub (0.25, 0.5) (0, 0))%R).
    pose proof (norm_nonneg (vsub (0.25, 0.5) (0, 0))%R) as Hpos.
    set (L := norm (vsub (0.25, 0.5) (0, 0))%R) in *.
    assert (HL : (0 < L)%R) by lra.
    clearbody L. rewrite Rgtb_true.
    + unfold vscale, vneg, vdiv, vsub; simpl. clear Hc. clear cds.
      f_equal; field_simplify_eq; lra.
    + unfold dot, vdiv, vsub, vadd; simpl.
      assert (Hi : (0 < / L)%R) by (apply Rinv_0_lt_compat; lra).
      unfold Rdiv. nra.
Qed.

(** ** The square mesh *)

Ltac edge_normal_step :=
  match goal with
  | |- context [edge_normal ?cds ?c ?e] =>
      let p1 := eval cbv in (default (0, 0)%R (oget cds e.1)) in
      let p2 := eval cbv in (default (0, 0)%R (oget cds e.2)) in
      rewrite (edge_normal_ok cds c e p1 p2);
      [ cbn [rbind] | reflexivity | reflexivity
      | apply norm_ne_0; unfold vsub; cbn [fst snd]; lra ]
  end.

Lemma square_triangle0_init :
  Triangle_init 0 [0; 1; 2] (square_coords [0; 1; 2])
  = Ok (square_triangle 0 [0; 1; 2] [(0, 1); (1, 2); (0, 2)]).
Proof.
  unfold Triangle_init. cbn [Triangle_define_edges rbind].
  change (sorted_pair 0 1) with (0, 1). change (sorted_pair 1 2) with (1, 2).
  change (sorted_pair 2 0) with (0, 2).
  unfold compute_normal. cbn [foldM].
  do 3 edge_normal_step. reflexivity.
Qed.

Lemma square_triangle1_init :
  Triangle_init 1 [0; 2; 3] (square_coords [0; 2; 3])
  = Ok (square_triangle 1 [0; 2; 3] [(0, 2); (2, 3); (0, 3)]).
Proof.
  unfold Triangle_init. cbn [Triangle_define_edges rbind].
  change (sorted_pair 0 2) with (0, 2). change (sorted_pair 2 3) with (2, 3).
  change (sorted_pair 3 0) with (0, 3).
  unfold compute_normal. cbn [foldM].
  do 3 edge_normal_step. reflexivity.
Qed.

(** [read_mesh] and [create_cells] on the square give [square_created]. *)
Lemma square_create_cells :
  create_cells (read_mesh square_points square_blocks Mesh_init)
  = Ok square_created.
Proof.
  unfold create_cells, read_mesh, Mesh_init, square_created.
  cbn [points cells mesh_cell_blocks mesh_edges].
  unfold square_blocks. cbn [foldM block_type block_data].
  rewrite !decide_False by done.
  unfold create_block_cells at 1. cbn [foldM].
  change (cell_coords square_points [0; 1; 2]) with (Ok (square_coords [0; 1; 2])).
  change (cell_coords square_points [0; 2; 3]) with (Ok (square_coords [0; 2; 3])).
  cbn [rbind]. unfold CellFactory_call at 1. cbn [rec_type rec_id rec_nodes rec_coords].
  change (CellFactory_init !! "triangle") with (Some Triangle_init).
  cbn [of_option rbind length]. rewrite square_triangle0_init. cbn [rbind app].
  unfold CellFactory_call at 1. cbn [rec_type rec_id rec_nodes rec_coords].
  change (CellFactory_init !! "triangle") with (Some Triangle_init).
  cbn [of_option rbind length]. rewrite square_triangle1_init. cbn [rbind app].
  reflexivity.
Qed.

(** The mesh part of [run_config] on the square gives [square_mesh]. *)
Lemma square_setup_mesh :
  setup_mesh square_points square_blocks = Ok square_mesh.
Proof. unfold setup_mesh. by rewrite square_create_cells. Qed.

Lemma C5_compute_normal_outward_witness :
  match square_triangle 0 [0; 1; 2] [(0, 1); (1, 2); (0, 2)] with
  | Triangle b t =>
      length (edges b) = 3 ∧
      ∀ e, e ∈ edges b → ∃ p1 p2 n,
        oget (coords b) e.1 = Some p1 ∧ oget (coords b) e.2 = Some p2 ∧
        normals t !! e = Some n ∧
        norm (vsub p2 p1) ≠ 0%R ∧
        dot n (vsub p2 p1) = 0%R ∧
        norm n = norm (vsub p2 p1) ∧
        (dot n (vsub (center_point t) (vdiv (vadd p1 p2) 2)) <= 0)%R
  | Line _ => False
  end.
Proof.
  unfold square_triangle.
  apply (proj2 C5_compute_normal_outward 0 [0; 1; 2]
           (square_coords [0; 1; 2])).
  exact square_triangle0_init.
Defined.

Lemma overlap_create_cells :
  create_cells (read_mesh overlap_points overlap_blocks Mesh_init)
  = Ok overlap_created.
Proof. vm_compute. reflexivity. Qed.

(** ** Running the topology passes twice *)

Lemma once_mesh_edges (m : Mesh) :
  mesh_edges (assign_neighbours (build_topology m))
  = mesh_edges (build_topology m).
Proof.
  apply assign_neighbours_edges. intros c e Hc He.
  by apply (build_topology_keys m c e).
Qed.

Lemma once_cells (m : Mesh) :
  cells (assign_neighbours (build_topology m))
  = assigned_cell (mesh_edges (build_topology m)) <$> cells m.
Proof. by rewrite assign_neighbours_cells. Qed.

Lemma assigned_cells_edges_iff (me : gmap Edge (list nat)) (cs : list Cell)
    (e : Edge) :
  (∃ c, c ∈ assigned_cell me <$> cs ∧ e ∈ edges (base c))
  ↔ (∃ c, c ∈ cs ∧ e ∈ edges (base c)).
Proof.
  split.
  - intros (c & Hc & He). apply list_elem_of_fmap in Hc as (c0 & -> & Hc0).
    exists c0. by rewrite assigned_cell_edges in He.
  - intros (c & Hc & He). exists (assigned_cell me c). split.
    + by apply list_elem_of_fmap_2.
    + by rewrite assigned_cell_edges.
Qed.

(** C6 (amended).  Running [build_topology] and [assign_neighbours] a
    second time leaves every cell, hence every [neighbour_ids] map, as it
    was after the first run, but not the adjacency index: it keeps its
    keys, and every edge's list of cell ids receives the ids of the cells
    on that edge once more; on a mesh whose index was empty before the
    first run, every list is thus the list of the first run repeated
    twice. *)
Theorem C6_topology_twice (m : Mesh) :
  let once := assign_neighbours (build_topology m) in
  let twice := assign_neighbours (build_topology once) in
  cells twice = cells once ∧
  (∀ e, is_Some (mesh_edges twice !! e) ↔ is_Some (mesh_edges once !! e)) ∧
  (∀ e, mesh_edges twice !!! e
        = mesh_edges once !!! e ++ edge_cell_ids (cells m) e) ∧
  (mesh_edges m = ∅ →
   ∀ e, mesh_edges twice !!! e = mesh_edges once !!! e ++ mesh_edges once !!! e).
Proof.
  intros once twice.
  assert (Hme1 : mesh_edges once = mesh_edges (build_topology m))
    by apply once_mesh_edges.
  assert (Hcs1 : cells once
                 = assigned_cell (mesh_edges (build_topology m)) <$> cells m)
    by apply once_cells.
  assert (Hme2 : mesh_edges twice = mesh_edges (build_topology once))
    by apply once_mesh_edges.
  assert (Hl1 : ∀ e, mesh_edges (build_topology m) !!! e
                     = mesh_edges m !!! e ++ edge_cell_ids (cells m) e)
    by apply build_topology_lookup.
  assert (Hl2 : ∀ e, mesh_edges (build_topology once) !!! e
                     = mesh_edges (build_topology m) !!! e
                       ++ edge_cell_ids (cells m) e).
  { intros e. rewrite build_topology_lookup, Hme1, Hcs1.
    by rewrite edge_cell_ids_assigned. }
  split; [| split; [| split]].
  - unfold twice. rewrite once_cells, Hcs1, <- list_fmap_compose.
    apply list_fmap_ext. intros _ c _. simpl.
    by apply (assigned_cell_twice (mesh_edges m) _ _
                (edge_cell_ids (cells m))).
  - intros e. rewrite Hme2, Hme1. unfold build_topology at 1.
    cbn [mesh_edges]. rewrite build_fold_is_Some, Hme1, Hcs1.
    rewrite assigned_cells_edges_iff. split; [| by left].
    intros [? | (c & Hc & He)]; [done |].
    by apply (build_topology_keys m c e).
  - intros e. by rewrite Hme2, Hme1, Hl2.
  - intros Hempty e. rewrite Hme2, Hme1, Hl2, Hl1, Hempty.
    by rewrite lookup_total_empty.
Qed.

Lemma C6_topology_twice_witness :
  mesh_edges (assign_neighbours (build_topology
                (assign_neighbours (build_topology square_created))))
    !!! (0, 2)
  = mesh_edges (assign_neighbours (build_topology square_created)) !!! (0, 2)
    ++ mesh_edges (assign_neighbours (build_topology square_created))
       !!! (0, 2).
Proof.
  apply (C6_topology_twice square_created). reflexivity.
Defined.

(** C6, as stated, fails on the square mesh: after the second run the
    adjacency index differs from the index after the first run (edge (0,2)
    lists the cells 0, 1, 0, 1 instead of 0, 1). *)
Lemma C6_counterexample :
  let once := assign_neighbours (build_topology square_created) in
  let twice := assign_neighbours (build_topology once) in
  mesh_edges once !!! (0, 2) = [0; 1] ∧
  mesh_edges twice !!! (0, 2) = [0; 1; 0; 1] ∧
  ¬ (mesh_edges twice = mesh_edges once ∧
     (fun c => neighbour_ids (base c)) <$> cells twice
     = (fun c => neighbour_ids (base c)) <$> cells once).
Proof.
  intros once twice.
  assert (H1 : mesh_edges once !!! (0, 2) = [0; 1]) by (vm_compute; reflexivity).
  assert (H2 : mesh_edges twice !!! (0, 2) = [0; 1; 0; 1])
    by (vm_compute; reflexivity).
  split; [exact H1 |]. split; [exact H2 |].
  intros [Heq _].
  assert (Hf : mesh_edges twice !!! (0, 2) = mesh_edges once !!! (0, 2))
    by exact (f_equal (fun me : gmap Edge (list nat) => me !!! (0, 2)) Heq).
  assert (Hl : [0; 1; 0; 1] = [0; 1])
    by exact (eq_trans (eq_sym H2) (eq_trans Hf H1)).
  discriminate Hl.
Qed.

(** C7 (amended).  [build_topology] followed by [assign_neighbours] never
    raises: for every mesh the pair completes normally, whatever the number
    of cells on an edge.  Each edge's list of cell ids is extended by one
    entry per cell on that edge, and every cell gets, for each of its
    edges, the last id of that list other than its own.  In particular no
    error is raised when every edge is shared by one or two cells. *)
Theorem C7_topology_never_raises (m : Mesh) :
  ∃ m', link_topology m = Ok m' ∧
    (∀ e, mesh_edges m' !!! e
          = mesh_edges m !!! e ++ edge_cell_ids (cells m) e) ∧
    cells m' = assigned_cell (mesh_edges (build_topology m)) <$> cells m ∧
    (∀ c e, c ∈ cells m → e ∈ edges (base c) →
       neighbour_ids (base (assigned_cell (mesh_edges (build_topology m)) c))
         !! e
       = match last_other (cell_id (base c))
                 (mesh_edges m !!! e ++ edge_cell_ids (cells m) e) with
         | Some n => Some (NbId n)
         | None => neighbour_ids (base c) !! e
         end).
Proof.
  exists (assign_neighbours (build_topology m)). split; [done |].
  split; [| split].
  - intros e. by rewrite once_mesh_edges, build_topology_lookup.
  - apply once_cells.
  - intros c e Hc He.
    rewrite assigned_cell_neighbours, neighbours_after_lookup.
    rewrite decide_True by done. by rewrite build_topology_lookup.
Qed.

Lemma C7_topology_never_raises_witness :
  neighbour_ids
    (base (assigned_cell (mesh_edges (build_topology square_created))
             (square_line 2 [0; 1] (0, 1)))) !! (0, 1)
  = Some (NbId 0).
Proof.
  destruct (C7_topology_never_raises square_created) as (m' & _ & _ & _ & H).
  rewrite (H (square_line 2 [0; 1] (0, 1)) (0, 1)).
  - vm_compute. reflexivity.
  - vm_compute. do 2 right. left.
  - left.
Defined.

(** C7, as stated, fails on three lines over the same two nodes: after
    [build_topology] the edge (0,1) has three cell ids, and the topology
    passes still complete normally. *)
Lemma C7_counterexample :
  create_cells (read_mesh overlap_points overlap_blocks Mesh_init)
  = Ok overlap_created ∧
  mesh_edges (build_topology overlap_created) !!! (0, 1) = [0; 1; 2] ∧
  length (mesh_edges (build_topology overlap_created) !!! (0, 1)) = 3 ∧
  ∃ m', link_topology overlap_created = Ok m' ∧
        mesh_edges m' !!! (0, 1) = [0; 1; 2] ∧
        (fun c => neighbour_ids (base c) !! (0, 1)) <$> cells m'
        = [Some (NbId 2); Some (NbId 2); Some (NbId 1)].
Proof.
  split; [apply overlap_create_cells |].
  split; [vm_compute; reflexivity |].
  split; [vm_compute; reflexivity |].
  eexists. split; [reflexivity |].
  split; vm_compute; reflexivity.
Qed.

(** ** Loops over the cell list *)

Lemma foldM_invariant {A B : Type} (P : B → Prop) (f : B → A → result B)
    (l : list A) (b b' : B) :
  (∀ x a y, P x → f x a = Ok y → P y) →
  P b → foldM f b l = Ok b' → P b'.
Proof.
  intros Hstep. revert b. induction l as [| a l IH]; intros b Hb H; simpl in H.
  - by inversion H; subst.
  - destruct (f b a) as [y |] eqn:E; [| done]. simpl in H. eauto.
Qed.

Lemma rmapM_Forall2 {A B : Type} (f : A → result B) (l : list A) (l' : list B) :
  rmapM f l = Ok l' → Forall2 (fun a b => f a = Ok b) l l'.
Proof.
  revert l'. induction l as [| a l IH]; intros l' H; simpl in H.
  - inversion H. constructor.
  - destruct (f a) as [b |] eqn:E; [| done]. simpl in H.
    destruct (rmapM f l) as [bs |]; [| done]. simpl in H.
    inversion H; subst. constructor; auto.
Qed.

Lemma rmapM_Ok {A B : Type} (f : A → result B) (l : list A) :
  (∀ a, a ∈ l → ∃ b, f a = Ok b) → ∃ l', rmapM f l = Ok l'.
Proof.
  induction l as [| a l IH]; intros H; simpl.
  - eauto.
  - destruct (H a) as [b ->]; [left |]. simpl.
    destruct IH as [bs ->]; [intros a' Ha'; apply H; by right |].
    simpl. eauto.
Qed.

Lemma for_each_cell_from_view (body : list Cell → Cell → result Cell)
    (cs0 : list Cell) :
  (∀ cs1 cs2 c, cell_view <$> cs1 = cell_view <$> cs2 →
                body cs1 c = body cs2 c) →
  (∀ cs c c', body cs c = Ok c' → cell_view c' = cell_view c) →
  ∀ (rest done : list Cell) (n : nat),
    cell_view <$> (done ++ rest) = cell_view <$> cs0 →
    length rest ≤ n →
    for_each_cell_from body n (length done) (done ++ rest)
    = (rest' ←! rmapM (body cs0) rest; Ok (done ++ rest')).
Proof.
  intros Hext Hkeep rest.
  induction rest as [| c rest IH]; intros done n Hview Hn.
  - simpl. destruct n as [| n]; simpl; [done |].
    rewrite lookup_ge_None_2; [done |]. rewrite length_app. simpl. lia.
  - destruct n as [| n]; [simpl in Hn; lia |]. simpl.
    rewrite list_lookup_middle by done.
    rewrite (Hext (done ++ c :: rest) cs0 c Hview).
    destruct (body cs0 c) as [c' |] eqn:E; [| done]. simpl.
    replace (<[length done := c']> (done ++ c :: rest))
      with ((done ++ [c']) ++ rest).
    2:{ rewrite <- app_assoc. simpl.
        replace (length done) with (length done + 0) at 1 by lia.
        by rewrite insert_app_r. }
    replace (S (length done)) with (length (done ++ [c']))
      by (rewrite length_app; simpl; lia).
    rewrite IH.
    + destruct (rmapM (body cs0) rest); simpl; [| done].
      by rewrite <- app_assoc.
    + rewrite <- Hview, !fmap_app, !fmap_cons.
      rewrite (Hkeep _ _ _ E). by rewrite <- app_assoc.
    + simpl in Hn. lia.
Qed.

(** A loop whose body reads the other cells only through [cell_view], and
    keeps the view of the cell it updates, is a map over the list it
    starts from. *)
Lemma for_each_cell_view (body : list Cell → Cell → result Cell)
    (cs : list Cell) :
  (∀ cs1 cs2 c, cell_view <$> cs1 = cell_view <$> cs2 →
                body cs1 c = body cs2 c) →
  (∀ cs c c', body cs c = Ok c' → cell_view c' = cell_view c) →
  for_each_cell body cs = rmapM (body cs) cs.
Proof.
  intros Hext Hkeep. unfold for_each_cell.
  pose proof (for_each_cell_from_view body cs Hext Hkeep cs [] (length cs))
    as H.
  simpl in H. rewrite H by done.
  by destruct (rmapM (body cs) cs).
Qed.

(** ** initial_conditions *)

Lemma foldM_ext {A B : Type} (f g : B → A → result B) (l : list A) (b : B) :
  (∀ x a, f x a = g x a) → foldM f b l = foldM g b l.
Proof.
  intros H. revert b. induction l as [| a l IH]; intros b; simpl; [done |].
  rewrite H. destruct (g b a); simpl; [apply IH | done].
Qed.

Lemma init_edge_eq (cs : list Cell) (center : vec)
    (nbs : gmap Edge nb_value) (mf : gmap Edge vec) (e : Edge) :
  init_edge cs center (nbs, mf) e
  = (vs ←! edge_vectors cs center (nbs !! e);
     Ok ((neighbour_get nbs e).2, <[e := np_mean_axis0 vs]> mf)).
Proof.
  unfold init_edge, neighbour_get, edge_vectors. simpl.
  destruct (nbs !! e) as [[[| n] |] |]; simpl; try done.
  destruct (cs !! S n) as [[? tn | ?] |]; done.
Qed.

Lemma edge_vectors_neighbour_get (cs : list Cell) (center : vec)
    (nbs : gmap Edge nb_value) (e e' : Edge) :
  edge_vectors cs center ((neighbour_get nbs e).2 !! e')
  = edge_vectors cs center (nbs !! e').
Proof.
  unfold neighbour_get. destruct (nbs !! e) eqn:E; simpl; [done |].
  destruct (decide (e = e')) as [<- | Hne].
  - by rewrite lookup_insert_eq, E.
  - by rewrite lookup_insert_ne.
Qed.

Lemma edge_vectors_ext (cs1 cs2 : list Cell) (center : vec)
    (nb : option nb_value) :
  cell_view <$> cs1 = cell_view <$> cs2 →
  edge_vectors cs1 center nb = edge_vectors cs2 center nb.
Proof.
  intros H. unfold edge_vectors. destruct nb as [[[| n] |] |]; try done.
  assert (Hn : cell_view <$> (cs1 !! S n) = cell_view <$> (cs2 !! S n))
    by by rewrite <- !list_lookup_fmap, H.
  destruct (cs1 !! S n) as [[? t1 | ?] |], (cs2 !! S n) as [[? t2 | ?] |];
    simpl in Hn; try done.
  by inversion Hn.
Qed.

(** The edge loop of [initial_conditions] on one cell. *)
Lemma init_edges_fold (cs : list Cell) (center : vec) (es : list Edge) :
  ∀ (nbs : gmap Edge nb_value) (mf : gmap Edge vec)
    (st : gmap Edge nb_value * gmap Edge vec),
    foldM (init_edge cs center) (nbs, mf) es = Ok st →
    (∀ e, edge_vectors cs center (st.1 !! e)
          = edge_vectors cs center (nbs !! e)) ∧
    (∀ e, e ∈ es → ∃ vs, edge_vectors cs center (nbs !! e) = Ok vs ∧
                          st.2 !! e = Some (np_mean_axis0 vs)) ∧
    (∀ e, e ∉ es → st.2 !! e = mf !! e).
Proof.
  induction es as [| e0 es IH]; intros nbs mf st H; simpl in H.
  - inversion H; subst; simpl. split; [done |]. split; [| done].
    intros e He. by apply elem_of_nil in He.
  - rewrite init_edge_eq in H.
    destruct (edge_vectors cs center (nbs !! e0)) as [vs0 |] eqn:E0; [| done].
    simpl in H. apply IH in H as (Ha & Hb & Hc).
    split; [| split].
    + intros e. by rewrite Ha, edge_vectors_neighbour_get.
    + intros e He. destruct (decide (e ∈ es)) as [Hin | Hnin].
      * destruct (Hb e Hin) as (vs & Hvs & Hl).
        rewrite edge_vectors_neighbour_get in Hvs. eauto.
      * apply elem_of_cons in He as [-> | ?]; [| done].
        exists vs0. split; [done |]. rewrite (Hc _ Hnin).
        apply lookup_insert_eq.
    + intros e [Hne Hnin]%not_elem_of_cons. rewrite (Hc _ Hnin).
      by apply lookup_insert_ne.
Qed.

Lemma init_edges_total (cs : list Cell) (center : vec) (es : list Edge) :
  ∀ (nbs : gmap Edge nb_value) (mf : gmap Edge vec),
    (∀ e, e ∈ es → ∃ vs, edge_vectors cs center (nbs !! e) = Ok vs) →
    ∃ st, foldM (init_edge cs center) (nbs, mf) es = Ok st.
Proof.
  induction es as [| e0 es IH]; intros nbs mf H; simpl; [eauto |].
  rewrite init_edge_eq. destruct (H e0) as [vs ->]; [left |]. simpl.
  apply IH. intros e He. rewrite edge_vectors_neighbour_get.
  apply H. by right.
Qed.

Lemma init_cell_ext (source : vec) (cs1 cs2 : list Cell) (c : Cell) :
  cell_view <$> cs1 = cell_view <$> cs2 →
  init_cell source cs1 c = init_cell source cs2 c.
Proof.
  intros H. destruct c as [b t |]; [| done]. unfold init_cell.
  cbn [center_point set_concentration].
  rewrite (foldM_ext (init_edge cs1 (center_point t))
                     (init_edge cs2 (center_point t))); [done |].
  intros [nbs mf] e. rewrite !init_edge_eq.
  by rewrite (edge_vectors_ext cs1 cs2).
Qed.

Lemma init_cell_view (source : vec) (cs : list Cell) (c c' : Cell) :
  init_cell source cs c = Ok c' → cell_view c' = cell_view c.
Proof.
  destruct c as [b t |]; simpl; [| by inversion 1].
  destruct (foldM _ _ _); simpl; [| done]. by inversion 1.
Qed.

Lemma initial_conditions_cells (s s' : Simulation) :
  initial_conditions s = Ok s' →
  rmapM (init_cell (source_point s) (cells (sim_mesh s))) (cells (sim_mesh s))
  = Ok (cells (sim_mesh s')) ∧
  s' = set_sim_cells s (cells (sim_mesh s')).
Proof.
  unfold initial_conditions.
  rewrite for_each_cell_view
    by (intros; first [by apply init_cell_ext | by eapply init_cell_view]).
  destruct (rmapM _ _) as [cs' |]; simpl; [| done].
  by inversion 1.
Qed.

(** What [initial_conditions] does to the Triangle at position [i]. *)
Lemma initial_conditions_triangle (s s' : Simulation) (i : nat)
    (b : CellBase) (t : TriangleData) :
  initial_conditions s = Ok s' →
  cells (sim_mesh s) !! i = Some (Triangle b t) →
  ∃ b' t',
    cells (sim_mesh s') !! i = Some (Triangle b' t') ∧
    cell_id b' = cell_id b ∧ edges b' = edges b ∧
    center_point t' = center_point t ∧
    concentration t'
    = initial_oil_concentration (source_point s) (center_point t) ∧
    ∀ e, e ∈ edges b →
      ∃ vs, edge_vectors (cells (sim_mesh s)) (center_point t)
              (neighbour_ids b !! e) = Ok vs ∧
            mean_flow t' !! e = Some (np_mean_axis0 vs).
Proof.
  intros Hs Hi. apply initial_conditions_cells in Hs as [Hm _].
  apply rmapM_Forall2 in Hm.
  destruct (Forall2_lookup_l _ _ _ _ _ Hm Hi) as (c' & Hc' & Hinit).
  simpl in Hinit.
  destruct (foldM _ _ _) as [st |] eqn:Ef; [| done]. simpl in Hinit.
  inversion Hinit; subst c'; clear Hinit.
  apply init_edges_fold in Ef as (_ & Hb & _).
  eexists _, _. split; [exact Hc' |]. simpl. repeat split; try done.
Qed.

Lemma neighbours_in_range_spec (cs : list Cell) (c : Cell) (e : Edge)
    (n : nat) :
  neighbours_in_range cs = true → c ∈ cs → e ∈ edges (base c) →
  neighbour_ids (base c) !! e = Some (NbId n) → n < length cs.
Proof.
  unfold neighbours_in_range. rewrite forallb_forall.
  intros H Hc He Hn. apply list_elem_of_In, H in Hc.
  rewrite forallb_forall in Hc. apply list_elem_of_In, Hc in He.
  rewrite Hn in He. by apply bool_decide_eq_true in He.
Qed.

(** [initial_conditions] returns when every recorded neighbour id is an
    index into the cell list. *)
Lemma initial_conditions_total (s : Simulation) :
  neighbours_in_range (cells (sim_mesh s)) = true →
  ∃ s', initial_conditions s = Ok s'.
Proof.
  intros Hr. unfold initial_conditions.
  rewrite for_each_cell_view
    by (intros; first [by apply init_cell_ext | by eapply init_cell_view]).
  destruct (rmapM_Ok (init_cell (source_point s) (cells (sim_mesh s)))
              (cells (sim_mesh s))) as [cs' ->]; [| simpl; eauto].
  intros c Hc. destruct c as [b t |]; simpl; [| eauto].
  destruct (init_edges_total (cells (sim_mesh s)) (center_point t) (edges b)
              (neighbour_ids b) (mean_flow t)) as [st ->]; [| simpl; eauto].
  intros e He. unfold edge_vectors.
  destruct (neighbour_ids b !! e) as [[[| n] |] |] eqn:En; eauto.
  pose proof (neighbours_in_range_spec _ _ e _ Hr Hc He En) as Hlt.
  apply lookup_lt_is_Some_2 in Hlt as [c' ->]. destruct c'; eauto.
Qed.

Lemma np_mean_axis0_one (v : vec) : np_mean_axis0 [v] = v.
Proof.
  destruct v as [x y]. unfold np_mean_axis0, np_mean, py_sum. simpl.
  f_equal; field.
Qed.

Lemma np_mean_axis0_two (v w : vec) :
  np_mean_axis0 [v; w] = ((v.1 + w.1) / 2, (v.2 + w.2) / 2)%R.
Proof.
  destruct v as [x y], w as [x' y'].
  unfold np_mean_axis0, np_mean, py_sum. simpl. f_equal; field.
Qed.

Lemma square_initial_conditions :
  initial_conditions square_sim = Ok square_initialized.
Proof.
  unfold square_initialized.
  destruct (initial_conditions_total square_sim) as [s' ->]; [| done].
  vm_compute. reflexivity.
Qed.

(** Where the recorded neighbour is not cell 0, or cell 0 is not a
    Triangle, the mean flow that [initial_conditions] stores is the one the
    spec describes. *)
Lemma initial_conditions_mean_flow_spec (s s' : Simulation) (i : nat)
    (b : CellBase) (t : TriangleData) (e : Edge) :
  initial_conditions s = Ok s' →
  cells (sim_mesh s) !! i = Some (Triangle b t) →
  e ∈ edges b →
  (neighbour_ids b !! e = Some (NbId 0) →
   ∀ b0 t0, cells (sim_mesh s) !! 0 ≠ Some (Triangle b0 t0)) →
  ∃ b' t', cells (sim_mesh s') !! i = Some (Triangle b' t') ∧
           mean_flow t' !! e
           = Some (spec_mean_flow (cells (sim_mesh s)) b t e).
Proof.
  intros Hs Hi He H0.
  destruct (initial_conditions_triangle s s' i b t Hs Hi)
    as (b' & t' & Hi' & _ & _ & _ & _ & Hmf).
  destruct (Hmf e He) as (vs & Hvs & Hl).
  exists b', t'. split; [done |]. rewrite Hl. f_equal.
  unfold edge_vectors in Hvs. unfold spec_mean_flow.
  destruct (neighbour_ids b !! e) as [[[| n] |] |] eqn:En.
  - inversion Hvs; subst. rewrite np_mean_axis0_one.
    destruct (cells (sim_mesh s) !! 0) as [[b0 t0 | ?] |] eqn:E0; try done.
    by destruct (H0 eq_refl b0 t0).
  - destruct (cells (sim_mesh s) !! S n) as [[? tn | ?] |]; [| | done];
      inversion Hvs; subst.
    + by rewrite np_mean_axis0_two.
    + by rewrite np_mean_axis0_one.
  - inversion Hvs; subst. by rewrite np_mean_axis0_one.
  - inversion Hvs; subst. by rewrite np_mean_axis0_one.
Qed.

(** C10.  In [initial_conditions] a recorded neighbour id 0 is falsy, so
    the edge gets the velocity at the cell's own centroid as its mean flow,
    whatever cell 0 is; and [initial_conditions] returns whenever all
    recorded neighbour ids are indices of the cell list. *)
Theorem C10_neighbour_id_zero_is_skipped :
  truthy (NbId 0) = false ∧
  (∀ s, neighbours_in_range (cells (sim_mesh s)) = true →
        ∃ s', initial_conditions s = Ok s') ∧
  ∀ (s s' : Simulation) (i : nat) (b : CellBase) (t : TriangleData)
    (e : Edge),
    initial_conditions s = Ok s' →
    cells (sim_mesh s) !! i = Some (Triangle b t) →
    e ∈ edges b →
    neighbour_ids b !! e = Some (NbId 0) →
    ∃ b' t', cells (sim_mesh s') !! i = Some (Triangle b' t') ∧
             center_point t' = center_point t ∧
             mean_flow t' !! e = Some (compute_flow_field (center_point t)).
Proof.
  split; [done |]. split; [apply initial_conditions_total |].
  intros s s' i b t e Hs Hi He Hn.
  destruct (initial_conditions_triangle s s' i b t Hs Hi)
    as (b' & t' & Hi' & _ & _ & Hc & _ & Hmf).
  destruct (Hmf e He) as (vs & Hvs & Hl).
  exists b', t'. split; [done |]. split; [done |].
  rewrite Hn in Hvs. simpl in Hvs. inversion Hvs; subst.
  by rewrite Hl, np_mean_axis0_one.
Qed.

(** Cell 1 of the square mesh before [initial_conditions]: its neighbour
    across the diagonal (0,2) is cell 0, which is a Triangle. *)
Lemma square_cell1 :
  ∃ b t b0 t0,
    cells (sim_mesh square_sim) !! 1 = Some (Triangle b t) ∧
    cells (sim_mesh square_sim) !! 0 = Some (Triangle b0 t0) ∧
    edges b = [(0, 2); (2, 3); (0, 3)] ∧
    neighbour_ids b !! (0, 2) = Some (NbId 0) ∧
    center_point t = compute_center_point (square_coords [0; 2; 3]) ∧
    center_point t0 = compute_center_point (square_coords [0; 1; 2]).
Proof.
  eexists _, _, _, _. split; [reflexivity |]. split; [reflexivity |].
  split; [reflexivity |]. split; [vm_compute; reflexivity |].
  split; reflexivity.
Qed.

Lemma C10_neighbour_id_zero_is_skipped_witness :
  ∃ b' t', cells (sim_mesh square_initialized) !! 1 = Some (Triangle b' t') ∧
           mean_flow t' !! (0, 2)
           = Some (compute_flow_field
                     (compute_center_point (square_coords [0; 2; 3]))).
Proof.
  destruct square_cell1 as (b & t & b0 & t0 & H1 & _ & He & Hn & Hc & _).
  destruct (proj2 (proj2 C10_neighbour_id_zero_is_skipped)
              square_sim square_initialized 1 b t (0, 2)
              square_initial_conditions H1)
    as (b' & t' & Hi' & _ & Hmf).
  - rewrite He. left.
  - exact Hn.
  - exists b', t'. split; [exact Hi' |]. rewrite Hmf, Hc. reflexivity.
Defined.

Lemma square_flow_cell1 :
  compute_flow_field (compute_center_point (square_coords [0; 2; 3]))
  = (0.6, - (1 / 3))%R.
Proof.
  unfold compute_flow_field, compute_center_point, np_mean, py_sum.
  cbn. f_equal; lra.
Qed.

Lemma square_flow_cell0 :
  compute_flow_field (compute_center_point (square_coords [0; 1; 2]))
  = (0.2, - (2 / 3))%R.
Proof.
  unfold compute_flow_field, compute_center_point, np_mean, py_sum.
  cbn. f_equal; lra.
Qed.

(** C4 at the square mesh, as built from its points and cell blocks.
    Cell 1 is a Triangle whose neighbour across the edge (0,2) is cell 0,
    also a Triangle.  [initial_conditions] stores for that edge the
    velocity at cell 1's own centroid, (0.6, -1/3), where the average with
    the velocity at cell 0's centroid is (0.4, -0.5). *)
Theorem C4_mean_flow_square_neighbour_zero :
  setup_mesh square_points square_blocks = Ok (sim_mesh square_sim) ∧
  ∃ b t b0 t0 b' t',
    cells (sim_mesh square_sim) !! 1 = Some (Triangle b t) ∧
    neighbour_ids b !! (0, 2) = Some (NbId 0) ∧
    cells (sim_mesh square_sim) !! 0 = Some (Triangle b0 t0) ∧
    initial_conditions square_sim = Ok square_initialized ∧
    cells (sim_mesh square_initialized) !! 1 = Some (Triangle b' t') ∧
    mean_flow t' !! (0, 2) = Some (0.6, - (1 / 3))%R ∧
    spec_mean_flow (cells (sim_mesh square_sim)) b t (0, 2) = (0.4, - 0.5)%R ∧
    mean_flow t' !! (0, 2)
    ≠ Some (spec_mean_flow (cells (sim_mesh square_sim)) b t (0, 2)).
Proof.
  split; [exact square_setup_mesh |].
  destruct square_cell1 as (b & t & b0 & t0 & H1 & H0 & He & Hn & Hc & Hc0).
  destruct (initial_conditions_triangle square_sim square_initialized 1 b t
              square_initial_conditions H1)
    as (b' & t' & Hi' & _ & _ & _ & _ & Hmf).
  destruct (Hmf (0, 2)) as (vs & Hvs & Hl); [rewrite He; left |].
  rewrite Hn in Hvs. simpl in Hvs. inversion Hvs; subst vs; clear Hvs.
  rewrite np_mean_axis0_one, Hc, square_flow_cell1 in Hl.
  assert (Hspec : spec_mean_flow (cells (sim_mesh square_sim)) b t (0, 2)
                  = (0.4, - 0.5)%R).
  { unfold spec_mean_flow. rewrite Hn, H0, Hc, Hc0.
    rewrite square_flow_cell1, square_flow_cell0. simpl. f_equal; lra. }
  exists b, t, b0, t0, b', t'.
  split; [exact H1 |]. split; [exact Hn |]. split; [exact H0 |].
  split; [exact square_initial_conditions |]. split; [exact Hi' |].
  split; [exact Hl |]. split; [exact Hspec |].
  rewrite Hl, Hspec. intros Heq. inversion Heq. lra.
Qed.

(** ** Ordered dictionaries *)

Section OdictFacts.
Context {V : Type}.
Implicit Types (d : odict nat V) (k : nat) (v : V).

Lemma oget_oset_eq d k v : oget (oset d k v) k = Some v.
Proof.
  induction d as [| [k' v'] d IH]; simpl.
  - by rewrite decide_True.
  - destruct (decide (k' = k)) as [-> | Hne]; simpl.
    + by rewrite decide_True.
    + by rewrite decide_False.
Qed.

Lemma oget_oset_ne d k k' v : k ≠ k' → oget (oset d k v) k' = oget d k'.
Proof.
  intros Hne. induction d as [| [k0 v0] d IH]; simpl.
  - by rewrite decide_False.
  - destruct (decide (k0 = k)) as [-> | Hk]; simpl.
    + by rewrite !decide_False.
    + destruct (decide (k0 = k')); [done | apply IH].
Qed.

Lemma oget_is_Some d k : k ∈ okeys d ↔ is_Some (oget d k).
Proof.
  unfold okeys. induction d as [| [k0 v0] d IH]; simpl.
  - rewrite elem_of_nil. split; [done | by intros [? ?]].
  - rewrite elem_of_cons, IH. destruct (decide (k0 = k)) as [-> | Hk].
    + split; eauto.
    + split; [intros [? | ?]; [congruence | done] | by right].
Qed.
End OdictFacts.

(** ** The solver *)

Lemma py_sum_from (a : R) (xs : list R) :
  foldl Rplus a xs = (a + sum_R xs)%R.
Proof.
  revert a. induction xs as [| x xs IH]; intros a; simpl.
  - lra.
  - rewrite IH. lra.
Qed.

Lemma py_sum_sum_R (xs : list R) : py_sum xs = sum_R xs.
Proof. unfold py_sum. rewrite py_sum_from. lra. Qed.

Lemma sum_R_app (xs ys : list R) : sum_R (xs ++ ys) = (sum_R xs + sum_R ys)%R.
Proof.
  induction xs as [| x xs IH]; simpl; [lra |]. rewrite IH. lra.
Qed.

(** The flux loop of one cell appends the spec's fluxes, edge by edge. *)
Lemma edge_flux_fold (cs : list Cell) (b : CellBase) (t : TriangleData)
    (es : list Edge) :
  ∀ acc fl : list R,
    foldM (edge_flux cs b t) acc es = Ok fl →
    fl = acc ++ omap (fun e =>
                        tn ← neighbour_triangle cs b e;
                        outer_normal ← normals t !! e;
                        flow ← mean_flow t !! e;
                        Some (oil_velocity outer_normal flow (concentration t)
                                (concentration tn))) es.
Proof.
  induction es as [| e es IH]; intros acc fl H; simpl in H.
  - inversion H. by rewrite app_nil_r.
  - destruct (edge_flux cs b t acc e) as [acc' |] eqn:E; [| done].
    simpl in H. apply IH in H. subst fl.
    unfold edge_flux, neighbour_get in E. cbn [omap list_omap].
    unfold neighbour_triangle at 2.
    destruct (neighbour_ids b !! e) as [[n |] |]; simpl in E; try done.
    destruct (cs !! n) as [[bn tn | bn] |]; simpl in E; try done.
    + destruct (normals t !! e) as [nv |]; simpl in E; [| done].
      destruct (mean_flow t !! e) as [mf |]; simpl in E; [| done].
      inversion E; subst. simpl. by rewrite <- app_assoc.
    + inversion E; subst. done.
Qed.

Lemma edge_flux_total (cs : list Cell) (b : CellBase) (t : TriangleData)
    (es : list Edge) :
  (∀ e, e ∈ es → edge_ready cs b t e = true) →
  ∀ acc, ∃ fl, foldM (edge_flux cs b t) acc es = Ok fl.
Proof.
  induction es as [| e es IH]; intros Hes acc; simpl; [eauto |].
  assert (He : edge_ready cs b t e = true) by (apply Hes; left).
  assert (∃ acc', edge_flux cs b t acc e = Ok acc') as [acc' ->].
  { unfold edge_ready in He. unfold edge_flux, neighbour_get.
    destruct (neighbour_ids b !! e) as [[n |] |]; simpl; try done.
    destruct (cs !! n) as [[bn tn | bn] |]; simpl; try done; [| eauto].
    apply andb_true_iff in He as [[nv ->]%bool_decide_eq_true
                                    [mf ->]%bool_decide_eq_true].
    simpl. eauto. }
  simpl. apply IH. intros e' He'. apply Hes. by right.
Qed.

(** Staging one Triangle stores the spec's new value under its id. *)
Lemma stage_cell_triangle (delta_t : R) (cs : list Cell)
    (tmp tmp' : odict nat R) (b : CellBase) (t : TriangleData) :
  stage_cell delta_t cs tmp (Triangle b t) = Ok tmp' →
  tmp' = oset tmp (cell_id b) (spec_new_concentration delta_t cs b t).
Proof.
  unfold stage_cell.
  destruct (foldM (edge_flux cs b t) [] (edges b)) as [fl |] eqn:E; [| done].
  simpl. intros H. inversion H; subst; clear H. f_equal.
  apply edge_flux_fold in E. simpl in E. subst fl.
  unfold spec_new_concentration, spec_edge_fluxes.
  rewrite py_sum_sum_R. unfold Rdiv, Rminus. ring.
Qed.

Lemma ids_ok_middle (done rest : list Cell) (c : Cell) :
  ids_ok (done ++ c :: rest) → cell_id (base c) = length done.
Proof. intros H. apply H. by apply list_lookup_middle. Qed.

Lemma stage_fold (delta_t : R) (cs0 : list Cell) :
  ids_ok cs0 →
  ∀ (rest done : list Cell) (tmp tmp' : odict nat R),
    cs0 = done ++ rest →
    foldM (stage_cell delta_t cs0) tmp rest = Ok tmp' →
    (∀ k, oget tmp k
          = if decide (k < length done) then staged delta_t cs0 k else None) →
    ∀ k, oget tmp' k = staged delta_t cs0 k.
Proof.
  intros Hids rest.
  induction rest as [| c rest IH]; intros done tmp tmp' Hcs H Hinv k.
  - simpl in H. inversion H; subst tmp'. rewrite Hinv.
    rewrite app_nil_r in Hcs. subst done.
    destruct (decide (k < length cs0)) as [| Hge]; [done |].
    unfold staged. by rewrite lookup_ge_None_2 by lia.
  - simpl in H.
    destruct (stage_cell delta_t cs0 tmp c) as [tmp1 |] eqn:E; [| done].
    simpl in H.
    assert (Hc : cs0 !! length done = Some c)
      by (rewrite Hcs; by apply list_lookup_middle).
    apply (IH (done ++ [c]) tmp1 tmp'); [by rewrite <- app_assoc | done |].
    intros k'. rewrite length_app. simpl.
    destruct c as [b t | b].
    + pose proof (ids_ok_middle done rest (Triangle b t)) as Hid.
      rewrite <- Hcs in Hid. specialize (Hid Hids). simpl in Hid.
      apply stage_cell_triangle in E. subst tmp1. rewrite Hid.
      destruct (decide (length done = k')) as [<- | Hne].
      * rewrite oget_oset_eq, decide_True by lia.
        unfold staged. by rewrite Hc.
      * rewrite oget_oset_ne, Hinv by done.
        repeat case_decide; try done; lia.
    + simpl in E. inversion E; subst tmp1. rewrite Hinv.
      destruct (decide (length done = k')) as [<- | Hne].
      * rewrite decide_False, decide_True by lia.
        unfold staged. by rewrite Hc.
      * repeat case_decide; try done; lia.
Qed.

(** With ids equal to positions, the staging store holds exactly the
    spec's new value of every Triangle, under the Triangle's id. *)
Lemma stage_spec (delta_t : R) (cs : list Cell) (tmp : odict nat R) :
  ids_ok cs → stage delta_t cs = Ok tmp →
  ∀ k, oget tmp k = staged delta_t cs k.
Proof.
  intros Hids H. apply (stage_fold delta_t cs Hids cs [] [] tmp); try done.
Qed.

Lemma foldM_Ok {A B : Type} (f : B → A → result B) (l : list A) (b : B) :
  (∀ x a, a ∈ l → ∃ y, f x a = Ok y) → ∃ b', foldM f b l = Ok b'.
Proof.
  revert b. induction l as [| a l IH]; intros b H; simpl; [eauto |].
  destruct (H b a) as [y ->]; [left |]. simpl.
  apply IH. intros x a' Ha'. apply H. by right.
Qed.

Lemma solver_ready_spec (cs : list Cell) (b : CellBase) (t : TriangleData)
    (e : Edge) :
  solver_ready cs = true → Triangle b t ∈ cs → e ∈ edges b →
  edge_ready cs b t e = true.
Proof.
  unfold solver_ready. rewrite forallb_forall. intros H Hc He.
  apply list_elem_of_In, H in Hc. rewrite forallb_forall in Hc.
  by apply Hc, list_elem_of_In.
Qed.

Lemma stage_total (delta_t : R) (cs : list Cell) :
  solver_ready cs = true → ∃ tmp, stage delta_t cs = Ok tmp.
Proof.
  intros Hr. apply foldM_Ok. intros tmp c Hc.
  destruct c as [b t | b]; simpl; [| eauto].
  destruct (edge_flux_total cs b t (edges b)) with (acc := @nil R)
    as [fl ->]; [| simpl; eauto].
  intros e He. by apply (solver_ready_spec cs b t e).
Qed.

Lemma same_frame_refl (c : Cell) : same_frame c c.
Proof. by destruct c. Qed.

Lemma same_frame_trans (c1 c2 c3 : Cell) :
  same_frame c1 c2 → same_frame c2 c3 → same_frame c1 c3.
Proof.
  destruct c1, c2, c3; simpl; try done.
  - intros (-> & -> & -> & -> & ->) (-> & -> & -> & -> & ->). done.
  - by intros -> ->.
Qed.

Lemma same_frame_assign (c : Cell) (v : R) :
  same_frame c (assign_concentration c v).
Proof. by destruct c. Qed.

Lemma same_frames_refl (cs : list Cell) : Forall2 same_frame cs cs.
Proof. apply Forall_Forall2_diag, Forall_forall. intros. apply same_frame_refl. Qed.

Lemma same_frames_trans (cs1 cs2 cs3 : list Cell) :
  Forall2 same_frame cs1 cs2 → Forall2 same_frame cs2 cs3 →
  Forall2 same_frame cs1 cs3.
Proof. apply Forall2_trans, same_frame_trans. Qed.

(** The commit loop changes concentrations only. *)
Lemma commit_frame (tmp : odict nat R) (cs cs' : list Cell) :
  commit tmp cs = Ok cs' → Forall2 same_frame cs cs'.
Proof.
  unfold commit. generalize (okeys tmp) as ks. intros ks. revert cs.
  induction ks as [| k ks IH]; intros cs H; simpl in H.
  - inversion H. apply same_frames_refl.
  - destruct (oget tmp k) as [v |]; [| done]. simpl in H.
    destruct (cs !! k) as [c |] eqn:Ek; [| done]. simpl in H.
    apply IH in H. eapply same_frames_trans; [| exact H].
    rewrite <- (list_insert_id cs k c Ek) at 1.
    apply Forall2_insert; [apply same_frames_refl | apply same_frame_assign].
Qed.

Lemma commit_fold (tmp : odict nat R) (ks : list nat) :
  ∀ cs cs' : list Cell,
    foldM (fun cs cell_id =>
             v ←! of_option KeyError (oget tmp cell_id);
             c ←! of_option IndexError (cs !! cell_id);
             Ok (<[cell_id := assign_concentration c v]> cs)) cs ks = Ok cs' →
    ∀ i, cs' !! i
         = if decide (i ∈ ks)
           then c ← cs !! i; v ← oget tmp i; Some (assign_concentration c v)
           else cs !! i.
Proof.
  induction ks as [| k ks IH]; intros cs cs' H i; simpl in H.
  - inversion H. rewrite decide_False; [done | apply not_elem_of_nil].
  - destruct (oget tmp k) as [v |] eqn:Ev; [| done]. simpl in H.
    destruct (cs !! k) as [c |] eqn:Ek; [| done]. simpl in H.
    rewrite (IH _ _ H i). clear IH H.
    assert (Hlt : k < length cs) by (apply lookup_lt_is_Some; eauto).
    destruct (decide (i = k)) as [-> | Hne].
    + rewrite list_lookup_insert_eq by done.
      rewrite (decide_True (P := k ∈ k :: ks)) by left.
      rewrite Ek. simpl. rewrite Ev. simpl.
      destruct (decide (k ∈ ks)); [| done]. simpl. by destruct c.
    + rewrite list_lookup_insert_ne by done.
      destruct (decide (i ∈ ks)) as [Hin | Hnin].
      * rewrite decide_True by by right. done.
      * rewrite decide_False; [done |].
        intros [? | ?]%elem_of_cons; done.
Qed.

Lemma commit_total (tmp : odict nat R) (cs : list Cell) :
  (∀ k, k ∈ okeys tmp → k < length cs) → ∃ cs', commit tmp cs = Ok cs'.
Proof.
  unfold commit.
  assert (Hk : ∀ k, k ∈ okeys tmp → is_Some (oget tmp k))
    by (intros k; apply oget_is_Some).
  revert Hk. generalize (okeys tmp) as ks. intros ks. revert cs.
  induction ks as [| k ks IH]; intros cs Hk Hlt; simpl; [eauto |].
  destruct (Hk k) as [v ->]; [left |]. simpl.
  destruct (lookup_lt_is_Some_2 cs k) as [c ->]; [apply Hlt; left |]. simpl.
  apply IH.
  - intros k' Hk'. apply Hk. by right.
  - intros k' Hk'. rewrite length_insert. apply Hlt. by right.
Qed.

Lemma staged_is_Some (delta_t : R) (cs : list Cell) (k : nat) :
  is_Some (staged delta_t cs k) ↔ ∃ b t, cs !! k = Some (Triangle b t).
Proof.
  unfold staged. destruct (cs !! k) as [[b t | b] |]; split;
    try (intros [? ?]; done); try (intros (? & ? & ?); done); eauto.
Qed.

(** With ids equal to positions, committing the staged values gives every
    Triangle the spec's new concentration and changes nothing else. *)
Lemma commit_spec (delta_t : R) (cs cs' : list Cell) (tmp : odict nat R) :
  ids_ok cs → stage delta_t cs = Ok tmp → commit tmp cs = Ok cs' →
  cs' = committed delta_t cs.
Proof.
  intros Hids Hst Hc. pose proof (stage_spec delta_t cs tmp Hids Hst) as Hs.
  apply list_eq. intros i. unfold commit in Hc.
  rewrite (commit_fold tmp _ _ _ Hc i). unfold committed.
  rewrite list_lookup_fmap.
  destruct (decide (i ∈ okeys tmp)) as [Hin | Hnin].
  - apply oget_is_Some in Hin. rewrite Hs in Hin |- *.
    apply staged_is_Some in Hin as (b & t & Hi).
    unfold staged. rewrite Hi. done.
  - assert (Hn : ¬ is_Some (staged delta_t cs i))
      by (rewrite <- Hs; by rewrite <- oget_is_Some).
    rewrite staged_is_Some in Hn.
    destruct (cs !! i) as [[b t | b] |] eqn:Hi; simpl; try done.
    destruct Hn. eauto.
Qed.

Lemma stage_commit_total (delta_t : R) (cs : list Cell) :
  ids_ok cs → solver_ready cs = true →
  ∃ tmp cs', stage delta_t cs = Ok tmp ∧ commit tmp cs = Ok cs'.
Proof.
  intros Hids Hr. destruct (stage_total delta_t cs Hr) as [tmp Hst].
  destruct (commit_total tmp cs) as [cs' Hc]; [| eauto].
  intros k Hk. apply oget_is_Some in Hk.
  rewrite (stage_spec delta_t cs tmp Hids Hst) in Hk.
  apply staged_is_Some in Hk as (b & t & Hi).
  apply lookup_lt_is_Some. eauto.
Qed.

Lemma solver_step_inv (delta_t : R) (s s' : Simulation) :
  solver_step delta_t s = Ok s' →
  ∃ tmp cs',
    stage delta_t (cells (sim_mesh s)) = Ok tmp ∧
    commit tmp (cells (sim_mesh s)) = Ok cs' ∧
    s' = mkSimulation (set_cells (sim_mesh s) cs') (borders s)
           (oil_in_fishing_grounds s ++ [total_oil (borders s) cs'])
           (source_point s) (attr_number_of_steps s).
Proof.
  unfold solver_step. intros H.
  destruct (stage _ _) as [tmp |]; [| done]. simpl in H.
  destruct (commit tmp _) as [cs' |] eqn:Ec; [| done]. simpl in H.
  inversion H. exists tmp, cs'. done.
Qed.

Lemma committed_lookup_triangle (delta_t : R) (cs : list Cell) (i : nat)
    (b : CellBase) (t : TriangleData) :
  cs !! i = Some (Triangle b t) →
  committed delta_t cs !! i
  = Some (Triangle b (set_concentration t
                        (spec_new_concentration delta_t cs b t))).
Proof. intros H. unfold committed. by rewrite list_lookup_fmap, H. Qed.

Lemma committed_lookup_line (delta_t : R) (cs : list Cell) (i : nat)
    (b : CellBase) :
  cs !! i = Some (Line b) → committed delta_t cs !! i = Some (Line b).
Proof. intros H. unfold committed. by rewrite list_lookup_fmap, H. Qed.

(** C2.  A step of [solver] first stages, from the pre-step cells alone, a
    new value for every Triangle under the Triangle's id, then commits the
    staged values; on a cell list whose ids are the positions, the
    [concentration] of every Triangle after the step equals its pre-step
    concentration minus [delta_t * (sum of the upwind fluxes over its
    edges whose neighbour is a Triangle) / area], the fluxes being taken
    from the pre-step concentrations; its centroid, normals, area and
    mean flows are those of before the step, and every Line is unchanged.  The step completes when
    the lookups of the flux loop succeed ([solver_ready]). *)
Theorem C2_solver_step_update :
  (∀ (delta_t : R) (s : Simulation),
     ids_ok (cells (sim_mesh s)) →
     solver_ready (cells (sim_mesh s)) = true →
     ∃ s', solver_step delta_t s = Ok s') ∧
  (∀ (delta_t : R) (s s' : Simulation),
     ids_ok (cells (sim_mesh s)) →
     solver_step delta_t s = Ok s' →
     let cs := cells (sim_mesh s) in
     let cs' := cells (sim_mesh s') in
     ∃ tmp : odict nat R,
       stage delta_t cs = Ok tmp ∧
       commit tmp cs = Ok cs' ∧
       length cs' = length cs ∧
       (∀ i b t, cs !! i = Some (Triangle b t) →
          oget tmp (cell_id b)
          = Some (spec_new_concentration delta_t cs b t) ∧
          ∃ t', cs' !! i = Some (Triangle b t') ∧
            concentration t'
            = (concentration t
               - (delta_t * sum_R (spec_edge_fluxes cs b t)) / area t)%R ∧
            center_point t' = center_point t ∧
            normals t' = normals t ∧
            area t' = area t ∧
            mean_flow t' = mean_flow t) ∧
       (∀ i b, cs !! i = Some (Line b) →
          oget tmp i = None ∧ cs' !! i = Some (Line b))).
Proof.
  split.
  - intros delta_t s Hids Hr.
    destruct (stage_commit_total delta_t _ Hids Hr) as (tmp & cs' & H1 & H2).
    unfold solver_step. rewrite H1. simpl. rewrite H2. simpl. eauto.
  - intros delta_t s s' Hids H cs cs'.
    apply solver_step_inv in H as (tmp & cs1 & Hst & Hc & ->).
    subst cs cs'. simpl. exists tmp. split; [done |]. split; [done |].
    pose proof (commit_spec delta_t _ _ _ Hids Hst Hc) as ->.
    pose proof (stage_spec delta_t _ _ Hids Hst) as Hs.
    split; [unfold committed; by rewrite length_fmap |]. split.
    + intros i b t Hi. split.
      * rewrite Hs. pose proof (Hids i _ Hi) as Hid. simpl in Hid.
        rewrite Hid. unfold staged. by rewrite Hi.
      * eexists. split; [by apply committed_lookup_triangle |].
        by cbn [set_concentration concentration center_point normals area
                mean_flow spec_new_concentration].
    + intros i b Hi. split.
      * rewrite Hs. unfold staged. by rewrite Hi.
      * by apply committed_lookup_line.
Qed.

(** ** The fishing-grounds series *)

Lemma in_fishing_grounds_true (borders : (R * R) * (R * R)) (p : vec) :
  in_fishing_grounds borders p = true ↔ in_region borders p.
Proof.
  unfold in_fishing_grounds, in_region, Rleb.
  repeat destruct (Rle_dec _ _); simpl; split; try done; tauto.
Qed.

Lemma fishing_grounds_terms_spec (borders : (R * R) * (R * R))
    (cs : list Cell) :
  fishing_grounds_terms borders cs
  = (fun t => (concentration t * area t)%R)
      <$> filter (fun t => in_region borders (center_point t)) (triangles cs).
Proof.
  unfold fishing_grounds_terms, triangles.
  induction cs as [| c cs IH]; [done |].
  destruct c as [b t | b]; cbn [omap list_omap]; [| done].
  rewrite filter_cons.
  destruct (decide (in_region borders (center_point t))) as [Hin | Hout].
  - apply in_fishing_grounds_true in Hin. rewrite Hin. rewrite fmap_cons.
    f_equal. apply IH.
  - destruct (in_fishing_grounds borders (center_point t)) eqn:E; [| apply IH].
    by apply in_fishing_grounds_true in E.
Qed.

Lemma total_oil_spec (borders : (R * R) * (R * R)) (cs : list Cell) :
  total_oil borders cs = spec_region_total borders cs.
Proof.
  unfold total_oil, spec_region_total.
  by rewrite py_sum_sum_R, fishing_grounds_terms_spec.
Qed.

Lemma solver_step_series (delta_t : R) (s s' : Simulation) :
  solver_step delta_t s = Ok s' →
  borders s' = borders s ∧
  oil_in_fishing_grounds s'
  = oil_in_fishing_grounds s
    ++ [spec_region_total (borders s) (cells (sim_mesh s'))].
Proof.
  intros H. apply solver_step_inv in H as (tmp & cs' & _ & _ & ->).
  simpl. by rewrite total_oil_spec.
Qed.

Lemma solver_loop_series (n : nat) (delta_t : R) :
  ∀ s s' : Simulation,
    solver_loop n delta_t s = Ok s' →
    borders s' = borders s ∧
    ∃ l : list R,
      oil_in_fishing_grounds s' = oil_in_fishing_grounds s ++ l ∧
      length l = n ∧
      ∀ i, i < n →
        ∃ s_i, solver_loop (S i) delta_t s = Ok s_i ∧
               l !! i = Some (spec_region_total (borders s)
                                (cells (sim_mesh s_i))).
Proof.
  induction n as [| n IH]; intros s s' H; simpl in H.
  - inversion H; subst. split; [done |]. exists []. rewrite app_nil_r.
    split; [done |]. split; [done |]. intros i Hi. lia.
  - destruct (solver_step delta_t s) as [s1 |] eqn:E1; [| done]. simpl in H.
    destruct (solver_step_series _ _ _ E1) as [Hb1 Ho1].
    destruct (IH s1 s' H) as (Hb & l & Hl & Hlen & Hent).
    split; [congruence |].
    exists (spec_region_total (borders s) (cells (sim_mesh s1)) :: l).
    split; [by rewrite Hl, Ho1, <- app_assoc |].
    split; [simpl; by rewrite Hlen |].
    intros [| i] Hi.
    + exists s1. simpl. by rewrite E1.
    + destruct (Hent i) as (s_i & Hs_i & Hli); [lia |].
      exists s_i. split.
      * change (solver_loop (S (S i)) delta_t s)
          with (s0 ←! solver_step delta_t s; solver_loop (S i) delta_t s0).
        by rewrite E1.
      * simpl. by rewrite Hli, Hb1.
Qed.

(** ** What the solver leaves alone *)

Lemma solver_loop_frame (n : nat) (delta_t : R) :
  ∀ s s' : Simulation,
    solver_loop n delta_t s = Ok s' →
    attr_number_of_steps s' = attr_number_of_steps s ∧
    points (sim_mesh s') = points (sim_mesh s) ∧
    mesh_cell_blocks (sim_mesh s') = mesh_cell_blocks (sim_mesh s) ∧
    mesh_edges (sim_mesh s') = mesh_edges (sim_mesh s) ∧
    borders s' = borders s ∧
    source_point s' = source_point s ∧
    Forall2 same_frame (cells (sim_mesh s)) (cells (sim_mesh s')).
Proof.
  induction n as [| n IH]; intros s s' H; simpl in H.
  - inversion H; subst. repeat split; try done. apply same_frames_refl.
  - destruct (solver_step delta_t s) as [s1 |] eqn:E1; [| done]. simpl in H.
    apply solver_step_inv in E1 as (tmp & cs1 & _ & Hc & ->).
    apply IH in H as (H0 & H1 & H2 & H3 & H4 & H5 & H6). simpl in *.
    repeat split; try done.
    eapply same_frames_trans; [by eapply commit_frame | done].
Qed.

Lemma same_frame_base (c c' : Cell) : same_frame c c' → base c' = base c.
Proof. destruct c, c'; simpl; try done. by intros (-> & _). Qed.

Lemma ids_ok_frame (cs cs' : list Cell) :
  Forall2 same_frame cs cs' → ids_ok cs → ids_ok cs'.
Proof.
  intros Hf Hids i c' Hi.
  destruct (Forall2_lookup_r _ _ _ _ _ Hf Hi) as (c & Hc & Hcc).
  rewrite (same_frame_base _ _ Hcc). by apply Hids.
Qed.

Lemma edge_ready_frame (cs cs' : list Cell) (b : CellBase)
    (t t' : TriangleData) (e : Edge) :
  Forall2 same_frame cs cs' →
  normals t' = normals t → mean_flow t' = mean_flow t →
  edge_ready cs' b t' e = edge_ready cs b t e.
Proof.
  intros Hf Hn Hm. unfold edge_ready. rewrite Hn, Hm.
  destruct (neighbour_ids b !! e) as [[n |] |]; try done.
  destruct (cs !! n) as [c |] eqn:Ec.
  - destruct (Forall2_lookup_l _ _ _ _ _ Hf Ec) as (c' & -> & Hcc).
    by destruct c, c'.
  - destruct (cs' !! n) as [c' |] eqn:Ec'; [| done].
    destruct (Forall2_lookup_r _ _ _ _ _ Hf Ec') as (c & Hc & _).
    congruence.
Qed.

Lemma solver_ready_frame (cs cs' : list Cell) :
  Forall2 same_frame cs cs' →
  solver_ready cs = true → solver_ready cs' = true.
Proof.
  intros Hf Hr. unfold solver_ready. apply forallb_forall.
  intros c' Hc'. apply list_elem_of_In, list_elem_of_lookup in Hc' as [i Hi].
  destruct (Forall2_lookup_r _ _ _ _ _ Hf Hi) as (c & Hc & Hcc).
  destruct c' as [b' t' | b']; [| done].
  destruct c as [b t | b]; [| done].
  destruct Hcc as (-> & _ & _ & Hn & Hm).
  apply forallb_forall. intros e He.
  rewrite (edge_ready_frame cs cs' b t t' e Hf Hn Hm).
  apply (solver_ready_spec cs b t e Hr).
  - by eapply list_elem_of_lookup_2.
  - by apply list_elem_of_In.
Qed.

(** [solver] completes every requested step on a cell list whose ids are
    the positions and whose flux lookups succeed. *)
Lemma solver_loop_total (n : nat) (delta_t : R) :
  ∀ s : Simulation,
    ids_ok (cells (sim_mesh s)) →
    solver_ready (cells (sim_mesh s)) = true →
    ∃ s', solver_loop n delta_t s = Ok s'.
Proof.
  induction n as [| n IH]; intros s Hids Hr; simpl; [eauto |].
  destruct (stage_commit_total delta_t _ Hids Hr) as (tmp & cs' & H1 & H2).
  unfold solver_step. rewrite H1. simpl. rewrite H2. simpl.
  pose proof (commit_frame _ _ _ H2) as Hf.
  apply IH; simpl.
  - by eapply ids_ok_frame.
  - by eapply solver_ready_frame.
Qed.

Lemma solver_step_total (delta_t : R) (s : Simulation) :
  ids_ok (cells (sim_mesh s)) →
  solver_ready (cells (sim_mesh s)) = true →
  ∃ s', solver_step delta_t s = Ok s'.
Proof.
  intros Hids Hr.
  destruct (stage_commit_total delta_t _ Hids Hr) as (tmp & cs' & H1 & H2).
  unfold solver_step. rewrite H1. simpl. rewrite H2. simpl. eauto.
Qed.

(** The step does not look at [_number_of_steps]. *)
Lemma solver_step_attr (delta_t : R) (s s' : Simulation) (k : nat) :
  solver_step delta_t s = Ok s' →
  solver_step delta_t (set_number_of_steps s k)
  = Ok (set_number_of_steps s' k).
Proof.
  intros H. apply solver_step_inv in H as (tmp & cs' & Hs & Hc & ->).
  unfold solver_step. cbn [set_number_of_steps sim_mesh].
  rewrite Hs. cbn [rbind]. rewrite Hc. done.
Qed.

Lemma solver_loop_attr (n : nat) (delta_t : R) :
  ∀ (s s' : Simulation) (k : nat),
    solver_loop n delta_t s = Ok s' →
    solver_loop n delta_t (set_number_of_steps s k)
    = Ok (set_number_of_steps s' k).
Proof.
  induction n as [| n IH]; intros s s' k H; simpl in H.
  - by inversion H.
  - destruct (solver_step delta_t s) as [s1 |] eqn:E1; [| done]. simpl in H.
    cbn [solver_loop]. rewrite (solver_step_attr _ _ _ k E1). cbn [rbind].
    by apply IH.
Qed.

Lemma solver_series (n : nat) (delta_t : R) (s s' : Simulation) :
  solver n delta_t s = Ok s' →
  borders s' = borders s ∧
  ∃ l : list R,
    oil_in_fishing_grounds s' = oil_in_fishing_grounds s ++ l ∧
    length l = n ∧
    ∀ i, i < n →
      ∃ s_i, solver (S i) delta_t s = Ok s_i ∧
             l !! i = Some (spec_region_total (borders s)
                              (cells (sim_mesh s_i))).
Proof.
  unfold solver. intros H.
  apply solver_loop_series in H as (Hb & l & Hl & Hlen & Hent).
  split; [exact Hb |]. exists l. split; [exact Hl |]. split; [exact Hlen |].
  intros i Hi. destruct (Hent i Hi) as (s_i & Hs & Hli).
  exists (set_number_of_steps s_i (S i)). split; [| exact Hli].
  exact (solver_loop_attr _ _ _ _ (S i) Hs).
Qed.

Lemma solver_frame (n : nat) (delta_t : R) (s s' : Simulation) :
  solver n delta_t s = Ok s' →
  attr_number_of_steps s' = Some n ∧
  points (sim_mesh s') = points (sim_mesh s) ∧
  mesh_cell_blocks (sim_mesh s') = mesh_cell_blocks (sim_mesh s) ∧
  mesh_edges (sim_mesh s') = mesh_edges (sim_mesh s) ∧
  borders s' = borders s ∧
  source_point s' = source_point s ∧
  Forall2 same_frame (cells (sim_mesh s)) (cells (sim_mesh s')).
Proof. unfold solver. intros H. by apply solver_loop_frame in H. Qed.

Lemma solver_total (n : nat) (delta_t : R) (s : Simulation) :
  ids_ok (cells (sim_mesh s)) →
  solver_ready (cells (sim_mesh s)) = true →
  ∃ s', solver n delta_t s = Ok s'.
Proof. intros Hids Hr. unfold solver. by apply solver_loop_total. Qed.

(** C3.  Every step of [solver] appends exactly one scalar to the
    fishing-grounds series: the sum of [concentration * area] over the
    Triangles whose centroid lies in the rectangle (bounds included),
    taken on the cells as committed by that step.  After [n] steps the
    series has [n] more entries, entry [i] of them being that sum after
    step [i]; started from an empty series it has exactly [n] entries.
    [solver] completes the [n] steps when the mesh is ready for it. *)
Theorem C3_fishing_grounds_series :
  (∀ (delta_t : R) (s s' : Simulation),
     solver_step delta_t s = Ok s' →
     oil_in_fishing_grounds s'
     = oil_in_fishing_grounds s
       ++ [spec_region_total (borders s) (cells (sim_mesh s'))]) ∧
  (∀ (n : nat) (delta_t : R) (s s' : Simulation),
     solver n delta_t s = Ok s' →
     ∃ l : list R,
       oil_in_fishing_grounds s' = oil_in_fishing_grounds s ++ l ∧
       length l = n ∧
       ∀ i, i < n →
         ∃ s_i, solver (S i) delta_t s = Ok s_i ∧
                l !! i = Some (spec_region_total (borders s)
                                 (cells (sim_mesh s_i)))) ∧
  (∀ (n : nat) (delta_t : R) (s s' : Simulation),
     oil_in_fishing_grounds s = [] →
     solver n delta_t s = Ok s' →
     length (oil_in_fishing_grounds s') = n) ∧
  (∀ (n : nat) (delta_t : R) (s : Simulation),
     ids_ok (cells (sim_mesh s)) →
     solver_ready (cells (sim_mesh s)) = true →
     ∃ s', solver n delta_t s = Ok s').
Proof.
  split; [| split; [| split]].
  - intros delta_t s s' H. by apply solver_step_series in H as [_ ?].
  - intros n delta_t s s' H. by apply solver_series in H as [_ ?].
  - intros n delta_t s s' Hempty H.
    apply solver_series in H as (_ & l & Hl & Hlen & _).
    by rewrite Hl, Hempty.
  - intros n delta_t s. apply solver_total.
Qed.

(** C9.  Running [solver] changes nothing in the mesh but the
    concentrations of the Triangles: the node table, the cell blocks, the
    adjacency index, the borders and the source point are the same, the
    cell list has the same length, and every cell keeps its id, nodes,
    edges, coords and neighbour_ids, a Triangle staying a Triangle with
    the same centre, area, normals and mean flow, a Line staying the same
    Line; the former series is a prefix of the new one.  Besides the
    concentrations and the series, [solver] sets only [_number_of_steps],
    the attribute that the plot reads.  [solver] completes when the mesh
    is ready for it. *)
Theorem C9_solver_frame :
  (∀ (n : nat) (delta_t : R) (s s' : Simulation),
     solver n delta_t s = Ok s' →
     attr_number_of_steps s' = Some n ∧
     points (sim_mesh s') = points (sim_mesh s) ∧
     mesh_cell_blocks (sim_mesh s') = mesh_cell_blocks (sim_mesh s) ∧
     mesh_edges (sim_mesh s') = mesh_edges (sim_mesh s) ∧
     borders s' = borders s ∧
     source_point s' = source_point s ∧
     length (cells (sim_mesh s')) = length (cells (sim_mesh s)) ∧
     (∃ l, oil_in_fishing_grounds s' = oil_in_fishing_grounds s ++ l) ∧
     ∀ i c, cells (sim_mesh s) !! i = Some c →
       ∃ c', cells (sim_mesh s') !! i = Some c' ∧
             cell_id (base c') = cell_id (base c) ∧
             nodes (base c') = nodes (base c) ∧
             edges (base c') = edges (base c) ∧
             coords (base c') = coords (base c) ∧
             neighbour_ids (base c') = neighbour_ids (base c) ∧
             match c, c' with
             | Triangle _ t, Triangle _ t' =>
                 center_point t' = center_point t ∧ area t' = area t ∧
                 normals t' = normals t ∧ mean_flow t' = mean_flow t
             | Line _, Line _ => True
             | _, _ => False
             end) ∧
  (∀ (n : nat) (delta_t : R) (s : Simulation),
     ids_ok (cells (sim_mesh s)) →
     solver_ready (cells (sim_mesh s)) = true →
     ∃ s', solver n delta_t s = Ok s').
Proof.
  split; [| intros n delta_t s; apply solver_total].
  intros n delta_t s s' H.
  pose proof (solver_series n delta_t s s' H) as (_ & l & Hl & _).
  apply solver_frame in H as (H0 & H1 & H2 & H3 & H4 & H5 & H6).
  repeat split; try done.
  - symmetry. by eapply Forall2_length.
  - by exists l.
  - intros i c Hi.
    destruct (Forall2_lookup_l _ _ _ _ _ H6 Hi) as (c' & Hi' & Hcc).
    exists c'. split; [done |].
    rewrite (same_frame_base _ _ Hcc). repeat split.
    destruct c as [b t | b], c' as [b' t' | b']; simpl in Hcc; try done.
    tauto.
Qed.

(** ** Cell ids and positions *)

Lemma ids_ok_nil : ids_ok [].
Proof. intros i c H. by rewrite lookup_nil in H. Qed.

Lemma ids_ok_snoc (cs : list Cell) (c : Cell) :
  ids_ok cs → cell_id (base c) = length cs → ids_ok (cs ++ [c]).
Proof.
  intros Hids Hc i c' Hi. apply lookup_snoc_Some in Hi as [[Hlt Hi] | [-> ->]].
  - by apply Hids.
  - done.
Qed.

Lemma ids_ok_seq (cs : list Cell) :
  (fun c => cell_id (base c)) <$> cs = seq 0 (length cs) → ids_ok cs.
Proof.
  intros H i c Hi.
  assert (Hl : ((fun c => cell_id (base c)) <$> cs) !! i
               = Some (cell_id (base c)))
    by by rewrite list_lookup_fmap, Hi.
  rewrite H in Hl. apply lookup_seq in Hl as [Hl _]. simpl in Hl. done.
Qed.

Lemma Line_init_inv (cid : nat) (ns : list nat) (cds : odict nat vec)
    (c : Cell) :
  Line_init cid ns cds = Ok c →
  cell_id (base c) = cid ∧ neighbour_ids (base c) = ∅.
Proof.
  unfold Line_init. destruct (Line_define_edges ns); simpl; [| done].
  by inversion 1.
Qed.

Lemma Triangle_init_id (cid : nat) (ns : list nat) (cds : odict nat vec)
    (c : Cell) :
  Triangle_init cid ns cds = Ok c →
  cell_id (base c) = cid ∧ neighbour_ids (base c) = ∅.
Proof.
  unfold Triangle_init. destruct (Triangle_define_edges ns); simpl; [| done].
  destruct (compute_normal _ _ _); simpl; [| done].
  destruct (compute_area cds); simpl; [| done].
  by inversion 1.
Qed.

(** The factory of [create_cells] builds a cell with the id it is given
    and no neighbour yet. *)
Lemma CellFactory_call_init (r : CellRecord) (c : Cell) :
  CellFactory_call CellFactory_init r = Ok c →
  cell_id (base c) = rec_id r ∧ neighbour_ids (base c) = ∅.
Proof.
  unfold CellFactory_call, CellFactory_init.
  rewrite !lookup_insert, lookup_empty.
  destruct (decide ("triangle" = rec_type r)); simpl.
  - apply Triangle_init_id.
  - destruct (decide ("line" = rec_type r)); simpl; [| done].
    apply Line_init_inv.
Qed.

Lemma create_block_cells_ids (P : list Cell → Prop) (pts : list vec)
    (type : string) (data : list (list nat)) (cs cs' : list Cell) :
  (∀ cs c, P cs → cell_id (base c) = length cs →
           neighbour_ids (base c) = ∅ → P (cs ++ [c])) →
  P cs →
  create_block_cells CellFactory_init pts type cs data = Ok cs' → P cs'.
Proof.
  intros Hstep. unfold create_block_cells. apply foldM_invariant.
  clear cs cs'. intros x row y Hx H.
  destruct (cell_coords pts row) as [cds |]; simpl in H; [| done].
  destruct (CellFactory_call _ _) as [c |] eqn:E; simpl in H; [| done].
  inversion H; subst. apply CellFactory_call_init in E as [Hid Hnb].
  by apply Hstep.
Qed.

Lemma create_cells_invariant (P : list Cell → Prop) (m m' : Mesh) :
  (∀ cs c, P cs → cell_id (base c) = length cs →
           neighbour_ids (base c) = ∅ → P (cs ++ [c])) →
  P (cells m) → create_cells m = Ok m' → P (cells m').
Proof.
  intros Hstep Hm. unfold create_cells.
  destruct (foldM _ _ _) as [cs |] eqn:E; simpl; [| done].
  intros Hok. inversion Hok; subst. simpl. clear Hok. revert E.
  apply foldM_invariant; [| done].
  intros x blk y Hx Hy. destruct (decide (block_type blk = "vertex")).
  - by inversion Hy; subst.
  - by eapply create_block_cells_ids.
Qed.

Lemma create_cells_ids_ok (m m' : Mesh) :
  ids_ok (cells m) → create_cells m = Ok m' → ids_ok (cells m').
Proof.
  apply create_cells_invariant. intros cs c Hcs Hid _.
  by apply ids_ok_snoc.
Qed.

Lemma fresh_ids_nil : fresh_ids [].
Proof. split; [apply ids_ok_nil |]. intros c Hc. by apply elem_of_nil in Hc. Qed.

Lemma create_cells_fresh (m m' : Mesh) :
  fresh_ids (cells m) → create_cells m = Ok m' → fresh_ids (cells m').
Proof.
  apply create_cells_invariant. intros cs c [Hids Hnb] Hid Hc. split.
  - by apply ids_ok_snoc.
  - intros c' [Hc' | ->%list_elem_of_singleton]%elem_of_app; auto.
Qed.

Lemma assign_neighbours_ids_ok (m : Mesh) :
  ids_ok (cells m) → ids_ok (cells (assign_neighbours m)).
Proof.
  intros Hids i c Hi. rewrite assign_neighbours_cells in Hi.
  rewrite list_lookup_fmap in Hi.
  destruct (cells m !! i) as [c0 |] eqn:E; [| done].
  inversion Hi; subst. rewrite assigned_cell_base_id. by apply Hids.
Qed.

Lemma init_cell_base (source : vec) (cs : list Cell) (c c' : Cell) :
  init_cell source cs c = Ok c' →
  cell_id (base c') = cell_id (base c) ∧
  ∀ e n, neighbour_ids (base c') !! e = Some (NbId n) →
         neighbour_ids (base c) !! e = Some (NbId n).
Proof.
  destruct c as [b t | b]; simpl; [| by inversion 1].
  destruct (foldM _ _ _) as [st |] eqn:E; simpl; [| done].
  intros Hok. inversion Hok; subst; simpl. clear Hok. split; [done |].
  revert E. generalize (mean_flow t), (neighbour_ids b).
  induction (edges b) as [| e0 es IH]; intros mf nbs Hf; simpl in Hf.
  - by inversion Hf; subst.
  - rewrite init_edge_eq in Hf.
    destruct (edge_vectors _ _ _); simpl in Hf; [| done].
    intros e n Hn. specialize (IH _ _ Hf e n Hn).
    unfold neighbour_get in IH. destruct (nbs !! e0) eqn:E0; [done |].
    simpl in IH. destruct (decide (e0 = e)) as [-> | Hne].
    + by rewrite lookup_insert_eq in IH.
    + by rewrite lookup_insert_ne in IH.
Qed.

Lemma initial_conditions_base (s s' : Simulation) :
  initial_conditions s = Ok s' →
  Forall2 (fun c c' =>
             cell_id (base c') = cell_id (base c) ∧
             ∀ e n, neighbour_ids (base c') !! e = Some (NbId n) →
                    neighbour_ids (base c) !! e = Some (NbId n))
          (cells (sim_mesh s)) (cells (sim_mesh s')).
Proof.
  intros H. apply initial_conditions_cells in H as [H _].
  apply rmapM_Forall2 in H. eapply Forall2_impl; [exact H |].
  intros c c'. apply init_cell_base.
Qed.

Lemma initial_conditions_ids_ok (s s' : Simulation) :
  ids_ok (cells (sim_mesh s)) → initial_conditions s = Ok s' →
  ids_ok (cells (sim_mesh s')).
Proof.
  intros Hids H i c' Hi. apply initial_conditions_base in H.
  destruct (Forall2_lookup_r _ _ _ _ _ H Hi) as (c & Hc & Hid & _).
  rewrite Hid. by apply Hids.
Qed.

Lemma solver_ids_ok (n : nat) (delta_t : R) (s s' : Simulation) :
  ids_ok (cells (sim_mesh s)) → solver n delta_t s = Ok s' →
  ids_ok (cells (sim_mesh s')).
Proof.
  intros Hids H. apply solver_frame in H as (_ & _ & _ & _ & _ & _ & Hf).
  by eapply ids_ok_frame.
Qed.

Lemma edge_cell_ids_elem (cs : list Cell) (e : Edge) (n : nat) :
  n ∈ edge_cell_ids cs e → ∃ c, c ∈ cs ∧ cell_id (base c) = n.
Proof.
  unfold edge_cell_ids. rewrite list_elem_of_In, in_flat_map.
  intros (c & Hc & Hn). exists c. split; [by apply list_elem_of_In |].
  apply in_flat_map in Hn as (e' & _ & Hn).
  destruct (decide (e' = e)); simpl in Hn; [| done].
  by destruct Hn.
Qed.

Lemma last_other_elem (cid : nat) (ids : list nat) (n : nat) :
  last_other cid ids = Some n → n ∈ ids.
Proof.
  unfold last_other. intros H. apply last_Some_elem_of in H.
  by apply list_elem_of_filter in H as [_ ?].
Qed.

(** On a freshly created mesh, every neighbour that the topology passes
    record is the id, hence the position, of a cell. *)
Lemma link_neighbours_valid (m : Mesh) :
  mesh_edges m = ∅ → fresh_ids (cells m) →
  neighbours_valid (cells (assign_neighbours (build_topology m))).
Proof.
  intros Hempty [Hids Hnb] c e n Hc Hn.
  rewrite once_cells in Hc |- *.
  apply list_elem_of_fmap in Hc as (c0 & -> & Hc0).
  rewrite assigned_cell_neighbours, neighbours_after_lookup in Hn.
  rewrite (Hnb c0 Hc0), lookup_empty in Hn.
  destruct (decide (e ∈ edges (base c0))); [| done].
  destruct (last_other _ _) as [n' |] eqn:El; [| done].
  inversion Hn; subst n'. apply last_other_elem in El.
  rewrite build_topology_lookup, Hempty, lookup_total_empty in El.
  simpl in El. apply edge_cell_ids_elem in El as (c1 & Hc1 & Hid).
  apply list_elem_of_lookup in Hc1 as [i Hi].
  pose proof (Hids i c1 Hi) as Hi'. rewrite Hid in Hi'. subst i.
  exists (assigned_cell (mesh_edges (build_topology m)) c1).
  rewrite list_lookup_fmap, Hi. simpl. split; [done |].
  by rewrite assigned_cell_base_id.
Qed.

Lemma neighbours_valid_step (cs cs' : list Cell) :
  Forall2 (fun c c' =>
             cell_id (base c') = cell_id (base c) ∧
             ∀ e n, neighbour_ids (base c') !! e = Some (NbId n) →
                    neighbour_ids (base c) !! e = Some (NbId n)) cs cs' →
  neighbours_valid cs → neighbours_valid cs'.
Proof.
  intros Hf Hv c' e n Hc' Hn.
  apply list_elem_of_lookup in Hc' as [i Hi].
  destruct (Forall2_lookup_r _ _ _ _ _ Hf Hi) as (c & Hc & _ & Hnb).
  destruct (Hv c e n) as (c1 & Hc1 & Hid1);
    [by eapply list_elem_of_lookup_2 | by apply Hnb |].
  destruct (Forall2_lookup_l _ _ _ _ _ Hf Hc1) as (c1' & Hc1' & Hid & _).
  exists c1'. split; [done | congruence].
Qed.

Lemma same_frames_base (cs cs' : list Cell) :
  Forall2 same_frame cs cs' →
  Forall2 (fun c c' =>
             cell_id (base c') = cell_id (base c) ∧
             ∀ e n, neighbour_ids (base c') !! e = Some (NbId n) →
                    neighbour_ids (base c) !! e = Some (NbId n)) cs cs'.
Proof.
  intros Hf. eapply Forall2_impl; [exact Hf |].
  intros c c' H. by rewrite (same_frame_base _ _ H).
Qed.

(** C8.  [create_cells] keeps the invariant "the cell at position [i] has
    id [i]" and establishes it on a new mesh; [build_topology],
    [assign_neighbours], [initial_conditions] and [solver] keep it; and in
    the state that [run_config] reaches, indexing the cell list by any
    recorded neighbour id retrieves the cell with that id. *)
Theorem C8_cell_id_is_position :
  (∀ m m', ids_ok (cells m) → create_cells m = Ok m' → ids_ok (cells m')) ∧
  (∀ msh_points msh_cells m',
     create_cells (read_mesh msh_points msh_cells Mesh_init) = Ok m' →
     ids_ok (cells m')) ∧
  (∀ m, ids_ok (cells m) →
        ids_ok (cells (build_topology m)) ∧
        ids_ok (cells (assign_neighbours m))) ∧
  (∀ s s', ids_ok (cells (sim_mesh s)) → initial_conditions s = Ok s' →
           ids_ok (cells (sim_mesh s'))) ∧
  (∀ n delta_t s s', ids_ok (cells (sim_mesh s)) →
                     solver n delta_t s = Ok s' →
                     ids_ok (cells (sim_mesh s'))) ∧
  (∀ msh_points msh_cells borders n delta_t s,
     run_config msh_points msh_cells borders n delta_t = Ok s →
     ids_ok (cells (sim_mesh s)) ∧ neighbours_valid (cells (sim_mesh s))).
Proof.
  split; [apply create_cells_ids_ok |].
  split; [intros pts blocks m'; apply create_cells_ids_ok, ids_ok_nil |].
  split; [intros m Hm; split; [done | by apply assign_neighbours_ids_ok] |].
  split; [apply initial_conditions_ids_ok |].
  split; [apply solver_ids_ok |].
  intros pts blocks bd n delta_t s H. unfold run_config, setup_mesh in H.
  destruct (create_cells _) as [m |] eqn:Ec; simpl in H; [| done].
  destruct (initial_conditions _) as [s1 |] eqn:Ei; simpl in H; [| done].
  assert (Hfresh : fresh_ids (cells m)).
  { apply (create_cells_fresh (read_mesh pts blocks Mesh_init) m);
      [apply fresh_ids_nil | exact Ec]. }
  assert (Hme : mesh_edges m = ∅).
  { unfold create_cells in Ec. destruct (foldM _ _ _); simpl in Ec; [| done].
    by inversion Ec. }
  pose proof (link_neighbours_valid m Hme Hfresh) as Hv.
  pose proof (assign_neighbours_ids_ok (build_topology m) (proj1 Hfresh))
    as Hids.
  pose proof (initial_conditions_base _ _ Ei) as Hb1.
  pose proof (solver_frame _ _ _ _ H) as (_ & _ & _ & _ & _ & _ & Hf).
  split.
  - eapply solver_ids_ok; [| exact H].
    eapply initial_conditions_ids_ok; [| exact Ei]. exact Hids.
  - eapply neighbours_valid_step; [apply same_frames_base, Hf |].
    eapply neighbours_valid_step; [exact Hb1 |]. exact Hv.
Qed.

(** ** Runs on the square mesh *)

Lemma square_ids_ok : ids_ok (cells (sim_mesh square_initialized)).
Proof. apply ids_ok_seq. vm_compute. reflexivity. Qed.

Lemma square_ready : solver_ready (cells (sim_mesh square_initialized)) = true.
Proof. vm_compute. reflexivity. Qed.

Lemma square_solver (n : nat) :
  solver n 0.01%R square_initialized = Ok (square_after n).
Proof.
  unfold square_after.
  destruct (solver_total n 0.01%R square_initialized square_ids_ok square_ready)
    as [s' ->].
  done.
Qed.

Lemma square_solver_step :
  solver_step 0.01%R square_initialized = Ok square_stepped.
Proof.
  unfold square_stepped.
  destruct (solver_step_total 0.01%R square_initialized square_ids_ok
              square_ready) as [s' ->].
  done.
Qed.

Lemma square_run_config (n : nat) :
  run_config square_points square_blocks ((0, 1), (0, 1))%R n 0.01%R
  = Ok (square_after n).
Proof.
  unfold run_config, setup_mesh. rewrite square_create_cells. cbn [rbind].
  change (Simulation_init (assign_neighbours (build_topology square_created))
            ((0, 1), (0, 1))%R) with square_sim.
  rewrite square_initial_conditions. cbn [rbind]. apply square_solver.
Qed.

Lemma C2_solver_step_update_witness :
  (∃ s', solver_step 0.01%R square_initialized = Ok s') ∧
  let cs := cells (sim_mesh square_initialized) in
  let cs' := cells (sim_mesh square_stepped) in
  ∃ tmp : odict nat R,
    stage 0.01%R cs = Ok tmp ∧
    commit tmp cs = Ok cs' ∧
    length cs' = length cs ∧
    (∀ i b t, cs !! i = Some (Triangle b t) →
       oget tmp (cell_id b) = Some (spec_new_concentration 0.01%R cs b t) ∧
       ∃ t', cs' !! i = Some (Triangle b t') ∧
         concentration t'
         = (concentration t
            - (0.01 * sum_R (spec_edge_fluxes cs b t)) / area t)%R ∧
         center_point t' = center_point t ∧
         normals t' = normals t ∧
         area t' = area t ∧
         mean_flow t' = mean_flow t) ∧
    (∀ i b, cs !! i = Some (Line b) →
       oget tmp i = None ∧ cs' !! i = Some (Line b)).
Proof.
  split.
  - apply (proj1 C2_solver_step_update 0.01%R square_initialized).
    + exact square_ids_ok.
    + exact square_ready.
  - apply (proj2 C2_solver_step_update 0.01%R square_initialized
             square_stepped).
    + exact square_ids_ok.
    + exact square_solver_step.
Defined.

Lemma C3_fishing_grounds_series_witness :
  (oil_in_fishing_grounds square_stepped
   = oil_in_fishing_grounds square_initialized
     ++ [spec_region_total (borders square_initialized)
           (cells (sim_mesh square_stepped))]) ∧
  length (oil_in_fishing_grounds (square_after 2)) = 2 ∧
  (∃ s', solver 2 0.01%R square_initialized = Ok s').
Proof.
  split; [| split].
  - apply (proj1 C3_fishing_grounds_series 0.01%R square_initialized).
    exact square_solver_step.
  - apply (proj1 (proj2 (proj2 C3_fishing_grounds_series))
             2 0.01%R square_initialized).
    + vm_compute. reflexivity.
    + exact (square_solver 2).
  - apply (proj2 (proj2 (proj2 C3_fishing_grounds_series))
             2 0.01%R square_initialized).
    + exact square_ids_ok.
    + exact square_ready.
Defined.

Lemma C8_cell_id_is_position_witness :
  ids_ok (cells (sim_mesh (square_after 2))) ∧
  neighbours_valid (cells (sim_mesh (square_after 2))).
Proof.
  apply (proj2 (proj2 (proj2 (proj2 (proj2 C8_cell_id_is_position))))
           square_points square_blocks ((0, 1), (0, 1))%R 2 0.01%R).
  exact (square_run_config 2).
Defined.

Lemma C9_solver_frame_witness :
  mesh_edges (sim_mesh (square_after 2))
  = mesh_edges (sim_mesh square_initialized) ∧
  length (cells (sim_mesh (square_after 2)))
  = length (cells (sim_mesh square_initialized)).
Proof.
  destruct (proj1 C9_solver_frame 2 0.01%R square_initialized (square_after 2)
              (square_solver 2))
    as (_ & _ & _ & H3 & _ & _ & H6 & _).
  split; [exact H3 | exact H6].
Defined.

(** * Further properties of the code *)

(** ** The flux over an edge, seen from both sides *)

(** Seen from the two cells of an edge (opposite normals, the same mean
    flow, the two concentrations exchanged), [oil_velocity] gives opposite
    fluxes: what leaves one cell across the edge enters the other. *)
Theorem oil_velocity_opposite_sides (outer_normal mean_flow : vec)
    (c_here c_there : R) :
  oil_velocity (vneg outer_normal) mean_flow c_there c_here
  = (- oil_velocity outer_normal mean_flow c_here c_there)%R.
Proof.
  unfold oil_velocity. rewrite (dot_comm_vneg mean_flow outer_normal).
  set (v := dot mean_flow outer_normal).
  destruct (Rtotal_order v 0) as [Hneg | [Hzero | Hpos]].
  - rewrite (Rgtb_true (- v) 0) by lra. rewrite (Rgtb_false v 0) by lra. ring.
  - rewrite (Rgtb_false (- v) 0) by lra. rewrite (Rgtb_false v 0) by lra.
    rewrite Hzero. ring.
  - rewrite (Rgtb_false (- v) 0) by lra. rewrite (Rgtb_true v 0) by lra. ring.
Qed.

(** ** The initial concentration *)

Lemma norm_pow2 (a : vec) : (norm a ^ 2 = a.1 * a.1 + a.2 * a.2)%R.
Proof. rewrite <- norm_sqr. ring. Qed.

(** [initial_oil_concentration] lies in (0, 1]; it is 1 at the source
    point and nowhere else. *)
Theorem initial_oil_concentration_range (source location : vec) :
  (0 < initial_oil_concentration source location <= 1)%R ∧
  (initial_oil_concentration source location = 1%R ↔ location = source).
Proof.
  unfold initial_oil_concentration. rewrite norm_pow2.
  destruct location as [x y], source as [sx sy]. unfold vsub; simpl.
  set (d := ((x - sx) * (x - sx) + (y - sy) * (y - sy))%R).
  assert (Hd : (0 <= d)%R).
  { unfold d. apply Rplus_le_le_0_compat; apply Rle_0_sqr. }
  assert (Hdef : d = ((x - sx) * (x - sx) + (y - sy) * (y - sy))%R) by done.
  clearbody d.
  assert (Harg : (- d / 0.01 <= 0)%R) by lra.
  split; [split |].
  - apply exp_pos.
  - destruct Harg as [Hlt | Heq].
    + left. rewrite <- exp_0. by apply exp_increasing.
    + right. rewrite Heq. apply exp_0.
  - split.
    + intros H. rewrite <- exp_0 in H. apply exp_inv in H.
      assert (Hd0 : d = 0%R) by lra.
      rewrite Hd0 in Hdef.
      assert (Hx : ((x - sx) * (x - sx) = 0)%R)
        by (pose proof (Rle_0_sqr (x - sx)); pose proof (Rle_0_sqr (y - sy));
            unfold Rsqr in *; lra).
      assert (Hy : ((y - sy) * (y - sy) = 0)%R) by lra.
      apply Rmult_integral in Hx. apply Rmult_integral in Hy.
      f_equal; lra.
    + intros Heq. inversion Heq; subst x y.
      assert (Hd0 : d = 0%R) by (rewrite Hdef; ring).
      rewrite Hd0. replace (- 0 / 0.01)%R with 0%R by lra.
      apply exp_0.
Qed.

(** ** Triangle geometry *)

Lemma perm3_cases {A : Type} (a b c : A) (l : list A) :
  [a; b; c] ≡ₚ l →
  l = [a; b; c] ∨ l = [a; c; b] ∨ l = [b; a; c] ∨
  l = [b; c; a] ∨ l = [c; a; b] ∨ l = [c; b; a].
Proof.
  intros Hp. pose proof (Permutation_length Hp) as Hlen.
  destruct l as [| x [| y [| z [| ? ?]]]]; try done.
  assert (Hx : x ∈ [a; b; c]) by (rewrite Hp; left).
  apply elem_of_cons in Hx as [-> | Hx];
    [| apply elem_of_cons in Hx as [-> | Hx];
       [| apply list_elem_of_singleton in Hx as ->]].
  - apply Permutation_cons_inv, Permutation_length_2_inv in Hp
      as [Heq | Heq]; inversion Heq; subst; tauto.
  - assert (Hq : [b; a; c] ≡ₚ [b; y; z]) by (rewrite <- Hp; apply perm_swap).
    apply Permutation_cons_inv, Permutation_length_2_inv in Hq
      as [Heq | Heq]; inversion Heq; subst; tauto.
  - assert (Hq : [c; a; b] ≡ₚ [c; y; z]).
    { rewrite <- Hp. symmetry.
      etrans; [apply perm_skip, perm_swap | apply perm_swap]. }
    apply Permutation_cons_inv, Permutation_length_2_inv in Hq
      as [Heq | Heq]; inversion Heq; subst; tauto.
Qed.

Lemma compute_area_three (k1 k2 k3 : nat) (p1 p2 p3 : vec) :
  compute_area [(k1, p1); (k2, p2); (k3, p3)]
  = Ok (Rabs (cross (vsub p2 p1) (vsub p3 p1)) / 2)%R.
Proof.
  unfold compute_area, cross, vsub. simpl. f_equal.
  unfold Rdiv. rewrite Rabs_mult. rewrite (Rabs_pos_eq (/ 2.0)) by lra.
  replace (/ 2.0)%R with (/ 2)%R by lra. f_equal. f_equal. ring.
Qed.

Lemma compute_area_not_three (cds : odict nat vec) :
  length cds ≠ 3 → compute_area cds = Raise ValueError.
Proof.
  intros H. unfold compute_area, ovalues.
  destruct cds as [| ? [| ? [| ? [| ? ?]]]]; done.
Qed.

(** [compute_area] needs exactly three coordinates, else it raises
    [ValueError]; the area is never negative, does not depend on the order
    of the three entries nor on a common translation of the points, and is
    0 exactly when the three points are collinear. *)
Theorem compute_area_properties :
  (∀ (cds : odict nat vec) (a : R),
     compute_area cds = Ok a → length cds = 3 ∧ (0 <= a)%R) ∧
  (∀ cds : odict nat vec,
     length cds ≠ 3 → compute_area cds = Raise ValueError) ∧
  (∀ cds cds' : odict nat vec,
     cds ≡ₚ cds' → compute_area cds = compute_area cds') ∧
  (∀ (k1 k2 k3 : nat) (p1 p2 p3 d : vec),
     compute_area [(k1, vadd p1 d); (k2, vadd p2 d); (k3, vadd p3 d)]
     = compute_area [(k1, p1); (k2, p2); (k3, p3)]) ∧
  (∀ (k1 k2 k3 : nat) (p1 p2 p3 : vec),
     compute_area [(k1, p1); (k2, p2); (k3, p3)] = Ok 0%R
     ↔ cross (vsub p2 p1) (vsub p3 p1) = 0%R).
Proof.
  split; [| split; [apply compute_area_not_three | split; [| split]]].
  - intros cds a H.
    destruct (decide (length cds = 3)) as [Hl | Hl].
    + split; [done |].
      destruct cds as [| [k1 p1] [| [k2 p2] [| [k3 p3] [| ? ?]]]]; try done.
      rewrite compute_area_three in H. inversion H; subst.
      pose proof (Rabs_pos (cross (vsub p2 p1) (vsub p3 p1))). lra.
    + by rewrite compute_area_not_three in H.
  - intros cds cds' Hp. pose proof (Permutation_length Hp) as Hlen.
    destruct (decide (length cds = 3)) as [Hl | Hl].
    + destruct cds as [| [k1 p1] [| [k2 p2] [| [k3 p3] [| ? ?]]]]; try done.
      apply perm3_cases in Hp
        as [-> | [-> | [-> | [-> | [-> | ->]]]]];
        rewrite !compute_area_three; f_equal; f_equal;
        unfold cross, vsub; simpl;
        first [ f_equal; ring
              | rewrite <- Rabs_Ropp; f_equal; ring ].
    + rewrite !compute_area_not_three; [done | lia | done].
  - intros k1 k2 k3 p1 p2 p3 d. rewrite !compute_area_three.
    f_equal. f_equal. f_equal. unfold cross, vsub, vadd; simpl. ring.
  - intros k1 k2 k3 p1 p2 p3. rewrite compute_area_three. split.
    + intros H. injection H as H0.
      destruct (Req_dec (cross (vsub p2 p1) (vsub p3 p1)) 0) as [Hz | Hne];
        [exact Hz |].
      apply Rabs_no_R0 in Hne. exfalso. apply Hne. lra.
    + intros ->. rewrite Rabs_R0. f_equal. lra.
Qed.

Lemma compute_area_properties_witness :
  compute_area [(0, (0, 0)%R); (1, (1, 0)%R); (2, (0, 1)%R)]
  = compute_area [(2, (0, 1)%R); (0, (0, 0)%R); (1, (1, 0)%R)].
Proof.
  apply (proj1 (proj2 (proj2 compute_area_properties))).
  etrans; [apply perm_skip, perm_swap | apply perm_swap].
Defined.

(** ** Canonical edges *)

Lemma sorted_pair_comm (a b : nat) : sorted_pair a b = sorted_pair b a.
Proof. unfold sorted_pair. f_equal; lia. Qed.

Lemma sorted_pair_le (a b : nat) : (sorted_pair a b).1 ≤ (sorted_pair a b).2.
Proof. unfold sorted_pair. simpl. lia. Qed.

Lemma sorted_pair_ends (a b : nat) :
  sorted_pair a b = (a, b) ∨ sorted_pair a b = (b, a).
Proof.
  unfold sorted_pair. destruct (decide (a ≤ b)).
  - left. f_equal; lia.
  - right. f_equal; lia.
Qed.

Lemma perm3_intro {A : Type} (x y z : A) (l : list A) :
  l = [x; y; z] ∨ l = [x; z; y] ∨ l = [y; x; z] ∨
  l = [y; z; x] ∨ l = [z; x; y] ∨ l = [z; y; x] →
  [x; y; z] ≡ₚ l.
Proof.
  intros [-> | [-> | [-> | [-> | [-> | ->]]]]].
  - done.
  - apply perm_skip, perm_swap.
  - apply perm_swap.
  - etrans; [apply perm_swap | apply perm_skip, perm_swap].
  - etrans; [apply perm_skip, perm_swap | apply perm_swap].
  - etrans; [apply perm_swap |].
    etrans; [apply perm_skip, perm_swap | apply perm_swap].
Qed.

Lemma Triangle_define_edges_not_three (ns : list nat) :
  length ns ≠ 3 → Triangle_define_edges ns = Raise AssertionError.
Proof. destruct ns as [| ? [| ? [| ? [| ? ?]]]]; done. Qed.

(** Edge keys are canonical.  [Triangle.define_edges] fails its assertion
    unless there are three nodes; its three edges are pairs of the
    triangle's nodes with the smaller node id first, and listing the same
    nodes in another order gives the same edges in another order.  A Line
    gives the same edge for either order of its two nodes, and that edge is
    an edge of every triangle that has both nodes. *)
Theorem define_edges_canonical :
  (∀ ns : list nat,
     length ns ≠ 3 → Triangle_define_edges ns = Raise AssertionError) ∧
  (∀ (ns : list nat) (es : list Edge),
     Triangle_define_edges ns = Ok es →
     length ns = 3 ∧ length es = 3 ∧
     ∀ e, e ∈ es → e.1 ≤ e.2 ∧ e.1 ∈ ns ∧ e.2 ∈ ns) ∧
  (∀ (ns ns' : list nat) (es : list Edge),
     ns ≡ₚ ns' → Triangle_define_edges ns = Ok es →
     ∃ es', Triangle_define_edges ns' = Ok es' ∧ es ≡ₚ es') ∧
  (∀ a b : nat,
     Line_define_edges [a; b] = Ok [sorted_pair a b] ∧
     Line_define_edges [b; a] = Line_define_edges [a; b]) ∧
  (∀ (a b : nat) (ns : list nat) (es : list Edge),
     a ≠ b → a ∈ ns → b ∈ ns → Triangle_define_edges ns = Ok es →
     sorted_pair a b ∈ es).
Proof.
  split; [apply Triangle_define_edges_not_three |].
  split; [| split; [| split]].
  - intros ns es H.
    destruct ns as [| n0 [| n1 [| n2 [| ? ?]]]]; try done.
    inversion H; subst. split; [done |]. split; [done |].
    intros e He. split; [| split].
    + repeat (apply elem_of_cons in He as [-> | He]);
        try apply sorted_pair_le. by apply elem_of_nil in He.
    + repeat (apply elem_of_cons in He as [-> | He]);
        [| | | by apply elem_of_nil in He];
        match goal with
        | |- (sorted_pair ?x ?y).1 ∈ _ =>
            destruct (sorted_pair_ends x y) as [-> | ->]
        end; simpl; set_solver.
    + repeat (apply elem_of_cons in He as [-> | He]);
        [| | | by apply elem_of_nil in He];
        match goal with
        | |- (sorted_pair ?x ?y).2 ∈ _ =>
            destruct (sorted_pair_ends x y) as [-> | ->]
        end; simpl; set_solver.
  - intros ns ns' es Hp H.
    destruct ns as [| a [| b [| c [| ? ?]]]]; try done.
    inversion H; subst; clear H.
    apply perm3_cases in Hp as [-> | [-> | [-> | [-> | [-> | ->]]]]];
      simpl; eexists; (split; [reflexivity |]);
      apply perm3_intro;
      rewrite ?(sorted_pair_comm b a), ?(sorted_pair_comm c b),
        ?(sorted_pair_comm a c); tauto.
  - intros a b. split; [done |]. simpl. by rewrite sorted_pair_comm.
  - intros a b ns es Hab Ha Hb H.
    destruct ns as [| n0 [| n1 [| n2 [| ? ?]]]]; try done.
    inversion H; subst; clear H.
    repeat (apply elem_of_cons in Ha as [-> | Ha]);
      try (by apply elem_of_nil in Ha);
      repeat (apply elem_of_cons in Hb as [-> | Hb]);
      try (by apply elem_of_nil in Hb); try done;
      rewrite ?(sorted_pair_comm n1 n0), ?(sorted_pair_comm n2 n1),
        ?(sorted_pair_comm n0 n2); set_solver.
Qed.

Lemma define_edges_canonical_witness :
  sorted_pair 2 0 ∈ [(0, 1); (1, 2); (0, 2)].
Proof.
  apply (proj2 (proj2 (proj2 (proj2 define_edges_canonical)))
           2 0 [0; 1; 2]).
  - done.
  - set_solver.
  - set_solver.
  - reflexivity.
Defined.

(** ** What a constructed Triangle looks like *)

Lemma norm_vsub_self (p : vec) : norm (vsub p p) = 0%R.
Proof.
  unfold norm, vsub; simpl.
  replace ((p.1 - p.1) * (p.1 - p.1) + (p.2 - p.2) * (p.2 - p.2))%R
    with 0%R by ring.
  apply sqrt_0.
Qed.

Lemma edge_normal_same_point (cds : odict nat vec) (center : vec) (e : Edge)
    (p : vec) :
  oget cds e.1 = Some p → oget cds e.2 = Some p →
  edge_normal cds center e = Raise ValueError.
Proof.
  intros H1 H2. unfold edge_normal. rewrite H1, H2. simpl.
  unfold Reqb. destruct (Req_EM_T _ 0) as [| Hne]; [done |].
  destruct Hne. rewrite <- (norm_vsub_self p). apply (norm_rot (vsub p p)).
Qed.

Lemma edge_normal_missing (cds : odict nat vec) (center : vec) (e : Edge) :
  oget cds e.1 = None ∨ oget cds e.2 = None →
  edge_normal cds center e = Raise KeyError.
Proof.
  intros H. unfold edge_normal.
  destruct (oget cds e.1); simpl; [| done].
  destruct (oget cds e.2); simpl; [| done].
  by destruct H.
Qed.

Lemma compute_normal_distinct_ends (cds : odict nat vec) (center : vec)
    (es : list Edge) (ns : gmap Edge vec) (a b : nat) :
  compute_normal cds center es = Ok ns → sorted_pair a b ∈ es → a ≠ b.
Proof.
  intros H He ->.
  destruct (compute_normal_inv cds center es ∅ ns H _ He)
    as (p1 & p2 & H1 & H2 & Hn).
  unfold sorted_pair in H1, H2. simpl in H1, H2.
  rewrite Nat.min_id in H1. rewrite Nat.max_id in H2.
  assert (p1 = p2) by congruence. subst. by rewrite norm_vsub_self in Hn.
Qed.

Lemma compute_normal_keys (cds : odict nat vec) (center : vec)
    (es : list Edge) (ns : gmap Edge vec) :
  compute_normal cds center es = Ok ns →
  ∀ e, is_Some (ns !! e) ↔ e ∈ es.
Proof.
  intros H e.
  pose proof (compute_normal_inv cds center es ∅ ns H) as Hes.
  destruct (compute_normal_from_ok cds center es ∅ Hes)
    as (ns' & Hns' & Hin & Hout).
  assert (ns' = ns) by (unfold compute_normal in H; congruence). subst ns'.
  split.
  - intros Hs. destruct (decide (e ∈ es)) as [| Hn]; [done |].
    rewrite (Hout e Hn), lookup_empty in Hs. by destruct Hs.
  - intros He. destruct (Hin e He) as (p1 & p2 & _ & _ & ->). eauto.
Qed.

Lemma sorted_pair_inj (a b c d : nat) :
  sorted_pair a b = sorted_pair c d → (a = c ∧ b = d) ∨ (a = d ∧ b = c).
Proof. unfold sorted_pair. intros H. inversion H. lia. Qed.

Lemma compute_area_Ok (cds : odict nat vec) (a : R) :
  compute_area cds = Ok a → length cds = 3 ∧ (0 <= a)%R.
Proof.
  intros H. destruct (decide (length cds = 3)) as [Hl | Hl].
  - split; [done |].
    destruct cds as [| [k1 p1] [| [k2 p2] [| [k3 p3] [| ? ?]]]]; try done.
    rewrite compute_area_three in H. inversion H; subst.
    pose proof (Rabs_pos (cross (vsub p2 p1) (vsub p3 p1))). lra.
  - by rewrite compute_area_not_three in H.
Qed.

(** [Triangle.__init__]: with other than three nodes the assertion fails;
    two nodes at the same position give [ValueError], a node without
    coordinates [KeyError].  A Triangle that is constructed has the given
    id, nodes and coordinates, no neighbour, no mean flow and concentration
    0; its three nodes are different, its three edges are different, it
    has exactly three coordinates, a non-negative area and a normal for
    each of its edges and for nothing else. *)
Theorem Triangle_init_contract :
  (∀ (cid : nat) (ns : list nat) (cds : odict nat vec),
     length ns ≠ 3 → Triangle_init cid ns cds = Raise AssertionError) ∧
  (∀ (cid n0 n1 n2 : nat) (cds : odict nat vec) (p : vec),
     oget cds n0 = Some p → oget cds n1 = Some p →
     Triangle_init cid [n0; n1; n2] cds = Raise ValueError) ∧
  (∀ (cid n0 n1 n2 : nat) (cds : odict nat vec),
     oget cds n0 = None ∨ oget cds n1 = None →
     Triangle_init cid [n0; n1; n2] cds = Raise KeyError) ∧
  (∀ (cid : nat) (ns : list nat) (cds : odict nat vec) (c : Cell),
     Triangle_init cid ns cds = Ok c →
     ∃ b t, c = Triangle b t ∧
       cell_id b = cid ∧ nodes b = ns ∧ coords b = cds ∧
       neighbour_ids b = ∅ ∧ mean_flow t = ∅ ∧ concentration t = 0%R ∧
       NoDup ns ∧ NoDup (edges b) ∧ length (edges b) = 3 ∧
       length cds = 3 ∧ (0 <= area t)%R ∧
       ∀ e, is_Some (normals t !! e) ↔ e ∈ edges b).
Proof.
  split; [| split; [| split]].
  - intros cid ns cds H. unfold Triangle_init.
    by rewrite Triangle_define_edges_not_three.
  - intros cid n0 n1 n2 cds p H0 H1. unfold Triangle_init. simpl.
    unfold compute_normal. cbn [foldM].
    rewrite (edge_normal_same_point cds _ (sorted_pair n0 n1) p); [done | |];
      destruct (sorted_pair_ends n0 n1) as [-> | ->]; done.
  - intros cid n0 n1 n2 cds H. unfold Triangle_init. simpl.
    unfold compute_normal. cbn [foldM].
    rewrite (edge_normal_missing cds _ (sorted_pair n0 n1)); [done |].
    destruct (sorted_pair_ends n0 n1) as [-> | ->]; simpl; tauto.
  - intros cid ns cds c H.
    assert (∃ b t, c = Triangle b t) as (b & t & ->).
    { unfold Triangle_init in H.
      destruct (Triangle_define_edges ns); simpl in H; [| done].
      destruct (compute_normal _ _ _); simpl in H; [| done].
      destruct (compute_area cds); simpl in H; [| done].
      inversion H. eauto. }
    exists b, t. split; [done |].
    apply Triangle_init_inv in H
      as (n0 & n1 & n2 & -> & Hb & Hc & Hn & Ha & Hmf & Hconc).
    assert (He : edges b
                 = [sorted_pair n0 n1; sorted_pair n1 n2; sorted_pair n2 n0])
      by by subst b.
    rewrite He in Hn |- *.
    assert (H01 : n0 ≠ n1)
      by (eapply compute_normal_distinct_ends; [exact Hn | set_solver]).
    assert (H12 : n1 ≠ n2)
      by (eapply compute_normal_distinct_ends; [exact Hn | set_solver]).
    assert (H20 : n2 ≠ n0)
      by (eapply compute_normal_distinct_ends; [exact Hn | set_solver]).
    pose proof (compute_area_Ok cds (area t) Ha) as [Hlen Hpos].
    subst b. simpl. repeat split; try done.
    + repeat constructor; rewrite ?elem_of_cons, ?elem_of_nil;
        intuition congruence.
    + repeat constructor; try apply not_elem_of_nil.
      * rewrite !elem_of_cons, elem_of_nil.
        intros [Heq | [Heq | []]]; apply sorted_pair_inj in Heq; lia.
      * rewrite !elem_of_cons, elem_of_nil.
        intros [Heq | []]; apply sorted_pair_inj in Heq; lia.
    + intros Hs. by apply (compute_normal_keys _ _ _ _ Hn).
    + intros Hs. by apply (compute_normal_keys _ _ _ _ Hn).
Qed.

Lemma Triangle_init_contract_witness :
  ∃ b t, square_triangle 0 [0; 1; 2] [(0, 1); (1, 2); (0, 2)] = Triangle b t ∧
         NoDup (nodes b) ∧ NoDup (edges b) ∧ (0 <= area t)%R.
Proof.
  destruct (proj2 (proj2 (proj2 Triangle_init_contract))
              _ _ _ _ square_triangle0_init)
    as (b & t & Hc & _ & Hns & _ & _ & _ & _ & Hnd & Hed & _ & _ & Ha & _).
  exists b, t. rewrite Hns. tauto.
Defined.

(** ** When the solver completes *)

Lemma foldM_Ok_elem {A B : Type} (f : B → A → result B) (l : list A) :
  ∀ b b', foldM f b l = Ok b' → ∀ a, a ∈ l → ∃ x y, f x a = Ok y.
Proof.
  induction l as [| a0 l IH]; intros b b' H a Ha.
  - by apply elem_of_nil in Ha.
  - simpl in H. destruct (f b a0) as [b1 |] eqn:E; [| done]. simpl in H.
    apply elem_of_cons in Ha as [-> | Ha]; [eauto |].
    by apply (IH b1 b').
Qed.

Lemma foldM_Raise_elem {A B : Type} (f : B → A → result B) (l : list A) :
  ∀ b e, foldM f b l = Raise e → ∃ x a, a ∈ l ∧ f x a = Raise e.
Proof.
  induction l as [| a0 l IH]; intros b e H; [done |].
  simpl in H. destruct (f b a0) as [b1 |] eqn:E; simpl in H.
  - destruct (IH b1 e H) as (x & a & Ha & Hx). exists x, a.
    split; [by right | done].
  - inversion H; subst. exists b, a0. split; [left | done].
Qed.

Lemma edge_flux_ready (cs : list Cell) (b : CellBase) (t : TriangleData)
    (acc acc' : list R) (e : Edge) :
  edge_flux cs b t acc e = Ok acc' → edge_ready cs b t e = true.
Proof.
  unfold edge_flux, edge_ready, neighbour_get.
  destruct (neighbour_ids b !! e) as [[n |] |]; simpl; try done.
  destruct (cs !! n) as [[bn tn | bn] |]; simpl; try done.
  destruct (normals t !! e); simpl; [| done].
  destruct (mean_flow t !! e); simpl; [| done].
  done.
Qed.

Lemma edge_flux_raises (cs : list Cell) (b : CellBase) (t : TriangleData)
    (acc : list R) (e : Edge) (x : exn) :
  edge_flux cs b t acc e = Raise x →
  x = TypeError ∨ x = IndexError ∨ x = KeyError.
Proof.
  unfold edge_flux, neighbour_get.
  destruct (neighbour_ids b !! e) as [[n |] |]; simpl;
    try (intros H; inversion H; tauto).
  destruct (cs !! n) as [[bn tn | bn] |]; simpl;
    try (intros H; inversion H; tauto).
  destruct (normals t !! e); simpl; [| intros H; inversion H; tauto].
  destruct (mean_flow t !! e); simpl; intros H; inversion H; tauto.
Qed.

Lemma stage_ready (delta_t : R) (cs : list Cell) (tmp : odict nat R) :
  stage delta_t cs = Ok tmp → solver_ready cs = true.
Proof.
  intros H. unfold solver_ready. apply forallb_forall. intros c Hc.
  apply list_elem_of_In in Hc.
  destruct (foldM_Ok_elem _ _ _ _ H c Hc) as (x & y & Hxy).
  destruct c as [b t | b]; [| done]. simpl in Hxy.
  destruct (foldM (edge_flux cs b t) [] (edges b)) as [fl |] eqn:E; [| done].
  apply forallb_forall. intros e He. apply list_elem_of_In in He.
  destruct (foldM_Ok_elem _ _ _ _ E e He) as (acc & acc' & Hacc).
  by apply edge_flux_ready in Hacc.
Qed.

Lemma stage_raises (delta_t : R) (cs : list Cell) (x : exn) :
  stage delta_t cs = Raise x →
  x = TypeError ∨ x = IndexError ∨ x = KeyError.
Proof.
  intros H. apply foldM_Raise_elem in H as (tmp & c & _ & H).
  destruct c as [b t | b]; [| done]. simpl in H.
  destruct (foldM (edge_flux cs b t) [] (edges b)) as [fl |] eqn:E; [done |].
  simpl in H. inversion H; subst.
  apply foldM_Raise_elem in E as (acc & e' & _ & E).
  by apply edge_flux_raises in E.
Qed.

Lemma commit_raises (tmp : odict nat R) (cs : list Cell) (x : exn) :
  commit tmp cs = Raise x → x = IndexError ∨ x = KeyError.
Proof.
  intros H. apply foldM_Raise_elem in H as (cs1 & k & _ & H).
  destruct (oget tmp k); simpl in H; [| inversion H; tauto].
  destruct (cs1 !! k); simpl in H; [done | inversion H; tauto].
Qed.

Lemma solver_step_raises (delta_t : R) (s : Simulation) (x : exn) :
  solver_step delta_t s = Raise x →
  x = TypeError ∨ x = IndexError ∨ x = KeyError.
Proof.
  unfold solver_step. intros H.
  destruct (stage _ _) as [tmp |] eqn:Es; simpl in H.
  - destruct (commit tmp _) as [cs' |] eqn:Ec; simpl in H; [done |].
    inversion H; subst. apply commit_raises in Ec. tauto.
  - inversion H; subst. by apply stage_raises in Es.
Qed.

Lemma solver_loop_raises (n : nat) (delta_t : R) :
  ∀ (s : Simulation) (x : exn),
    solver_loop n delta_t s = Raise x →
    x = TypeError ∨ x = IndexError ∨ x = KeyError.
Proof.
  induction n as [| n IH]; intros s x H; [done |]. simpl in H.
  destruct (solver_step delta_t s) as [s1 |] eqn:E; simpl in H.
  - by apply (IH s1).
  - inversion H; subst. by apply solver_step_raises in E.
Qed.

(** A run of [solver] on cells whose ids are their positions completes
    exactly when it has no step to make or the lookups of the flux loop
    succeed on the cells it starts from: a step that completes leaves
    them succeeding, so a run fails in its first step or not at all.  When
    a run fails it is with [TypeError] (an edge without recorded
    neighbour), [IndexError] or [KeyError]. *)
Theorem solver_completes_iff_ready (n : nat) (delta_t : R) (s : Simulation) :
  ids_ok (cells (sim_mesh s)) →
  ((∃ s', solver n delta_t s = Ok s')
   ↔ n = 0 ∨ solver_ready (cells (sim_mesh s)) = true) ∧
  (∀ x, solver n delta_t s = Raise x →
        solver_step delta_t s = Raise x ∧
        (x = TypeError ∨ x = IndexError ∨ x = KeyError)).
Proof.
  intros Hids. split; [split |].
  - intros [s' H]. destruct n as [| n]; [by left | right].
    unfold solver in H. simpl in H.
    destruct (solver_step _ _) as [s1 |] eqn:E; [| done].
    apply solver_step_inv in E as (tmp & cs' & Hst & _ & _).
    by apply stage_ready in Hst.
  - intros [-> | Hr]; [by eexists | by apply solver_total].
  - intros x H. split; [| by apply solver_loop_raises in H].
    destruct (solver_step delta_t s) as [s1 |] eqn:E.
    + apply solver_step_inv in E as (tmp & cs' & Hst & _ & _).
      apply stage_ready in Hst.
      destruct (solver_total n delta_t s Hids Hst) as [s' Hs'].
      congruence.
    + destruct n as [| n]; [done |].
      unfold solver in H. cbn [solver_loop] in H.
      destruct (solver_step delta_t (set_number_of_steps s (S n)))
        as [s1 |] eqn:E1.
      * unfold solver_step in E, E1. simpl in E1.
        destruct (stage delta_t (cells (sim_mesh s))) as [tmp |];
          simpl in E, E1; [| done].
        destruct (commit tmp (cells (sim_mesh s))) as [cs' |] eqn:Ec;
          simpl in E, E1; done.
      * simpl in H. unfold solver_step in E, E1. simpl in E1.
        destruct (stage delta_t (cells (sim_mesh s))) as [tmp |];
          simpl in E, E1; [| congruence].
        destruct (commit tmp (cells (sim_mesh s))) as [cs' |] eqn:Ec;
          simpl in E, E1; [done | congruence].
Qed.

Lemma solver_completes_iff_ready_witness :
  (∃ s', solver 3 0.01%R square_initialized = Ok s')
  ↔ 3 = 0 ∨ solver_ready (cells (sim_mesh square_initialized)) = true.
Proof.
  apply (solver_completes_iff_ready 3 0.01%R square_initialized).
  exact square_ids_ok.
Defined.

(** ** Runs of the solver compose *)

Lemma solver_loop_add (n m : nat) (delta_t : R) :
  ∀ s : Simulation,
    solver_loop (n + m) delta_t s
    = (s' ←! solver_loop n delta_t s; solver_loop m delta_t s').
Proof.
  induction n as [| n IH]; intros s; [done |].
  cbn [Nat.add solver_loop].
  destruct (solver_step delta_t s) as [s1 |]; simpl; [apply IH | done].
Qed.

Lemma solver_step_set_number (delta_t : R) (s : Simulation) (k : nat) :
  solver_step delta_t (set_number_of_steps s k)
  = (s' ←! solver_step delta_t s; Ok (set_number_of_steps s' k)).
Proof.
  unfold solver_step. simpl.
  destruct (stage delta_t (cells (sim_mesh s))) as [tmp |]; simpl; [| done].
  destruct (commit tmp (cells (sim_mesh s))) as [cs' |] eqn:Ec; simpl; done.
Qed.

Lemma solver_loop_set_number (n : nat) (delta_t : R) (k : nat) :
  ∀ s : Simulation,
    solver_loop n delta_t (set_number_of_steps s k)
    = (s' ←! solver_loop n delta_t s; Ok (set_number_of_steps s' k)).
Proof.
  induction n as [| n IH]; intros s; [done |].
  cbn [solver_loop]. rewrite solver_step_set_number.
  destruct (solver_step delta_t s) as [s1 |]; simpl; [apply IH | done].
Qed.

(** Calling [solver] for [n] steps and then again for [m] steps leaves the
    simulation as one call for [n + m] steps does (the same cells, the
    same fishing-grounds series, the same exception when a step fails),
    except for the recorded [_number_of_steps], which is that of the last
    call. *)
Theorem solver_runs_compose (n m : nat) (delta_t : R) (s : Simulation) :
  (s' ←! solver n delta_t s; solver m delta_t s')
  = (s' ←! solver (n + m) delta_t s; Ok (set_number_of_steps s' m)).
Proof.
  unfold solver. rewrite !solver_loop_set_number, solver_loop_add.
  destruct (solver_loop n delta_t s) as [s1 |]; simpl; [| done].
  change (set_number_of_steps (set_number_of_steps s1 n) m)
    with (set_number_of_steps s1 m).
  rewrite solver_loop_set_number.
  destruct (solver_loop m delta_t s1) as [s2 |]; simpl; done.
Qed.

(** ** initial_conditions *)

Lemma init_edges_nbs (cs : list Cell) (center : vec) (es : list Edge) :
  ∀ (nbs : gmap Edge nb_value) (mf : gmap Edge vec)
    (st : gmap Edge nb_value * gmap Edge vec),
    foldM (init_edge cs center) (nbs, mf) es = Ok st →
    ∀ e, st.1 !! e = if decide (e ∈ es)
                     then Some (default NbEmpty (nbs !! e))
                     else nbs !! e.
Proof.
  induction es as [| e0 es IH]; intros nbs mf st H e; simpl in H.
  - inversion H; subst.
    destruct (decide (e ∈ [])) as [Hin |]; [by apply elem_of_nil in Hin | done].
  - rewrite init_edge_eq in H.
    destruct (edge_vectors cs center (nbs !! e0)) as [vs0 |]; [| done].
    simpl in H. rewrite (IH _ _ _ H e). clear IH H.
    assert (Hl : (neighbour_get nbs e0).2 !! e
                 = if decide (e = e0) then Some (default NbEmpty (nbs !! e0))
                   else nbs !! e).
    { unfold neighbour_get.
      destruct (decide (e = e0)) as [-> | Hne];
        destruct (nbs !! e0) as [v |] eqn:E0; simpl; try done.
      - apply lookup_insert_eq.
      - by apply lookup_insert_ne. }
    rewrite Hl.
    destruct (decide (e ∈ es)) as [Hin | Hnin],
             (decide (e ∈ e0 :: es)) as [Hin' | Hnin'],
             (decide (e = e0)) as [-> | Hne]; try done.
    + exfalso. apply Hnin'. by right.
    + exfalso. apply Hnin'. by right.
    + apply elem_of_cons in Hin' as [? | ?]; done.
    + exfalso. apply Hnin'. left.
Qed.

(** The edge loop changes nothing when every edge has a recorded value and
    the mean flow it would store. *)
Lemma init_edges_fixed (cs : list Cell) (center : vec)
    (nbs : gmap Edge nb_value) (mf : gmap Edge vec) (es : list Edge) :
  (∀ e, e ∈ es → is_Some (nbs !! e) ∧
                 ∃ vs, edge_vectors cs center (nbs !! e) = Ok vs ∧
                       mf !! e = Some (np_mean_axis0 vs)) →
  foldM (init_edge cs center) (nbs, mf) es = Ok (nbs, mf).
Proof.
  induction es as [| e0 es IH]; intros H; simpl; [done |].
  destruct (H e0) as ([v Hv] & vs & Hvs & Hmf); [left |].
  rewrite init_edge_eq, Hvs. simpl. unfold neighbour_get. rewrite Hv. simpl.
  rewrite (insert_id mf e0 _ Hmf). apply IH.
  intros e He. apply H. by right.
Qed.

Lemma rmapM_id {A : Type} (f : A → result A) (l : list A) :
  (∀ a, a ∈ l → f a = Ok a) → rmapM f l = Ok l.
Proof.
  induction l as [| a l IH]; intros H; simpl; [done |].
  rewrite (H a) by left. simpl. rewrite IH; [done |].
  intros a' Ha'. apply H. by right.
Qed.

Lemma rmapM_Raise {A B : Type} (f : A → result B) (l : list A) (x : exn) :
  rmapM f l = Raise x → ∃ a, a ∈ l ∧ f a = Raise x.
Proof.
  induction l as [| a l IH]; intros H; simpl in H; [done |].
  destruct (f a) as [b |] eqn:E; simpl in H.
  - destruct (rmapM f l) as [bs |]; simpl in H; [done |].
    destruct IH as (a' & Ha' & Hf); [done |].
    exists a'. split; [by right | done].
  - exists a. split; [left | congruence].
Qed.

Lemma init_cells_view (source : vec) (cs cs' : list Cell) :
  rmapM (init_cell source cs) cs = Ok cs' →
  cell_view <$> cs' = cell_view <$> cs.
Proof.
  intros H. apply rmapM_Forall2 in H.
  induction H as [| c c' l l' Hc _ IH]; [done |].
  simpl. f_equal; [by eapply init_cell_view | done].
Qed.

Lemma init_cell_twice (source : vec) (cs : list Cell) (c c' : Cell) :
  init_cell source cs c = Ok c' → init_cell source cs c' = Ok c'.
Proof.
  destruct c as [b t | b]; simpl; [| by inversion 1].
  destruct (foldM _ _ _) as [[nbs' mf'] |] eqn:E; simpl; [| done].
  intros Hok. inversion Hok; subst c'; clear Hok. simpl.
  pose proof (init_edges_nbs _ _ _ _ _ _ E) as Hn.
  apply init_edges_fold in E as (Ha & Hb & _). simpl in Ha, Hb, Hn.
  rewrite init_edges_fixed; [by destruct t |].
  intros e He. split.
  - rewrite Hn. destruct (decide (e ∈ edges b)); [eauto | done].
  - destruct (Hb e He) as (vs & Hvs & Hl). exists vs.
    by rewrite Ha.
Qed.

(** Calling [initial_conditions] a second time changes nothing: the
    concentrations, the mean flows and the keys created in
    [neighbour_ids] are those of the first call. *)
Theorem initial_conditions_idempotent (s s' : Simulation) :
  initial_conditions s = Ok s' → initial_conditions s' = Ok s'.
Proof.
  intros H. apply initial_conditions_cells in H as [Hm Hs].
  pose proof (init_cells_view _ _ _ Hm) as Hv.
  unfold initial_conditions.
  rewrite for_each_cell_view
    by (intros; first [by apply init_cell_ext | by eapply init_cell_view]).
  assert (Hsrc : source_point s' = source_point s) by by rewrite Hs.
  rewrite Hsrc, rmapM_id.
  - simpl. rewrite Hs at 1 3. by destruct s.
  - intros c' Hc'. rewrite (init_cell_ext _ _ (cells (sim_mesh s)) _ Hv).
    apply rmapM_Forall2 in Hm.
    apply list_elem_of_lookup in Hc' as [i Hi].
    destruct (Forall2_lookup_r _ _ _ _ _ Hm Hi) as (c & _ & Hc).
    by eapply init_cell_twice.
Qed.

Lemma initial_conditions_idempotent_witness :
  initial_conditions square_initialized = Ok square_initialized.
Proof.
  apply (initial_conditions_idempotent square_sim).
  exact square_initial_conditions.
Defined.

Lemma edge_vectors_raises (cs : list Cell) (center : vec)
    (nb : option nb_value) (x : exn) :
  edge_vectors cs center nb = Raise x → x = IndexError.
Proof.
  unfold edge_vectors. destruct nb as [[[| n] |] |]; try done.
  destruct (cs !! S n) as [[? ? | ?] |]; try done. by inversion 1.
Qed.

Lemma edge_vectors_in_range (cs : list Cell) (center : vec) (n : nat) :
  (∃ vs, edge_vectors cs center (Some (NbId n)) = Ok vs)
  ↔ n = 0 ∨ n < length cs.
Proof.
  unfold edge_vectors. destruct n as [| n].
  - split; [by left | eauto].
  - rewrite <- lookup_lt_is_Some. split.
    + intros [vs H]. right. destruct (cs !! S n); [eauto | done].
    + intros [? | [c ->]]; [done |]. destruct c; eauto.
Qed.

(** [initial_conditions] completes exactly when every neighbour id
    recorded for an edge of a Triangle is a position of the cell list (the
    ids recorded in a Line are not read).  When it fails, it is with
    [IndexError]. *)
Theorem initial_conditions_completes (s : Simulation) :
  ((∃ s', initial_conditions s = Ok s')
   ↔ ∀ b t e n, Triangle b t ∈ cells (sim_mesh s) → e ∈ edges b →
                neighbour_ids b !! e = Some (NbId n) →
                n < length (cells (sim_mesh s))) ∧
  (∀ x, initial_conditions s = Raise x → x = IndexError).
Proof.
  split; [split |].
  - intros [s' H] b t e n Hc He Hn.
    apply initial_conditions_cells in H as [Hm _].
    apply rmapM_Forall2 in Hm.
    pose proof Hc as Hc'. apply list_elem_of_lookup in Hc' as [i Hi].
    destruct (Forall2_lookup_l _ _ _ _ _ Hm Hi) as (c' & _ & Hinit).
    simpl in Hinit.
    destruct (foldM _ _ _) as [st |] eqn:Ef; [| done].
    apply init_edges_fold in Ef as (_ & Hb & _).
    destruct (Hb e He) as (vs & Hvs & _). rewrite Hn in Hvs.
    destruct (proj1 (edge_vectors_in_range (cells (sim_mesh s))
                       (center_point t) n)) as [-> | Hlt];
      [eauto | | done].
    apply lookup_lt_Some in Hi. lia.
  - intros Hr. unfold initial_conditions.
    rewrite for_each_cell_view
      by (intros; first [by apply init_cell_ext | by eapply init_cell_view]).
    destruct (rmapM_Ok (init_cell (source_point s) (cells (sim_mesh s)))
                (cells (sim_mesh s))) as [cs' ->]; [| simpl; eauto].
    intros c Hc. destruct c as [b t |]; simpl; [| eauto].
    destruct (init_edges_total (cells (sim_mesh s)) (center_point t) (edges b)
                (neighbour_ids b) (mean_flow t)) as [st ->]; [| simpl; eauto].
    intros e He.
    destruct (neighbour_ids b !! e) as [[n |] |] eqn:En;
      [| by eexists | by eexists].
    apply edge_vectors_in_range. right. by apply (Hr b t e n).
  - intros x. unfold initial_conditions.
    rewrite for_each_cell_view
      by (intros; first [by apply init_cell_ext | by eapply init_cell_view]).
    destruct (rmapM _ _) as [cs' |] eqn:Em; simpl; [done |].
    intros H. inversion H; subst; clear H.
    apply rmapM_Raise in Em as (c & _ & Hc).
    destruct c as [b t |]; simpl in Hc; [| done].
    destruct (foldM _ _ _) as [st |] eqn:Ef; simpl in Hc; [done |].
    inversion Hc; subst; clear Hc.
    apply foldM_Raise_elem in Ef as ([nbs mf] & e & _ & He).
    rewrite init_edge_eq in He.
    destruct (edge_vectors _ _ _) as [vs |] eqn:Ev; simpl in He; [done |].
    inversion He; subst. by apply edge_vectors_raises in Ev.
Qed.

Lemma initial_conditions_completes_witness :
  (∃ s', initial_conditions square_sim = Ok s')
  ↔ ∀ b t e n, Triangle b t ∈ cells (sim_mesh square_sim) → e ∈ edges b →
               neighbour_ids b !! e = Some (NbId n) →
               n < length (cells (sim_mesh square_sim)).
Proof. exact (proj1 (initial_conditions_completes square_sim)). Defined.

(** What [initial_conditions] does to each cell. *)
Lemma initial_conditions_cells_frame (s s' : Simulation) :
  initial_conditions s = Ok s' →
  Forall2 (fun c c' =>
             match c, c' with
             | Line b, Line b' => b' = b
             | Triangle b t, Triangle b' t' =>
                 cell_id b' = cell_id b ∧ nodes b' = nodes b ∧
                 edges b' = edges b ∧ coords b' = coords b ∧
                 center_point t' = center_point t ∧ area t' = area t ∧
                 normals t' = normals t ∧
                 concentration t'
                 = initial_oil_concentration (source_point s)
                     (center_point t) ∧
                 (∀ e, neighbour_ids b' !! e
                       = if decide (e ∈ edges b)
                         then Some (default NbEmpty (neighbour_ids b !! e))
                         else neighbour_ids b !! e) ∧
                 (∀ e, e ∉ edges b → mean_flow t' !! e = mean_flow t !! e)
             | _, _ => False
             end)
          (cells (sim_mesh s)) (cells (sim_mesh s')).
Proof.
  intros H. apply initial_conditions_cells in H as [Hm Hs].
  apply rmapM_Forall2 in Hm. eapply Forall2_impl; [exact Hm |].
  intros c c' Hc. destruct c as [b t | b]; simpl in Hc; [| by inversion Hc].
  destruct (foldM _ _ _) as [st |] eqn:Ef; simpl in Hc; [| done].
  inversion Hc; subst c'; clear Hc. simpl.
  pose proof (init_edges_nbs _ _ _ _ _ _ Ef) as Hn.
  apply init_edges_fold in Ef as (_ & _ & Hout).
  repeat split; done.
Qed.

(** What [initial_conditions] changes and what it leaves: the mesh apart
    from its cells, the borders, the series, the source point are as
    before; a Line is as before; a Triangle keeps its id, nodes, edges,
    coordinates, centre, area and normals, gets the Gaussian of its centre
    as concentration, gets the key of each of its edges in [neighbour_ids]
    (with the empty list where the key was missing) and nothing else there,
    and keeps its mean flow outside its edges. *)
Theorem initial_conditions_frame (s s' : Simulation) :
  initial_conditions s = Ok s' →
  points (sim_mesh s') = points (sim_mesh s) ∧
  mesh_cell_blocks (sim_mesh s') = mesh_cell_blocks (sim_mesh s) ∧
  mesh_edges (sim_mesh s') = mesh_edges (sim_mesh s) ∧
  borders s' = borders s ∧
  oil_in_fishing_grounds s' = oil_in_fishing_grounds s ∧
  source_point s' = source_point s ∧
  attr_number_of_steps s' = attr_number_of_steps s ∧
  Forall2 (fun c c' =>
             match c, c' with
             | Line b, Line b' => b' = b
             | Triangle b t, Triangle b' t' =>
                 cell_id b' = cell_id b ∧ nodes b' = nodes b ∧
                 edges b' = edges b ∧ coords b' = coords b ∧
                 center_point t' = center_point t ∧ area t' = area t ∧
                 normals t' = normals t ∧
                 concentration t'
                 = initial_oil_concentration (source_point s)
                     (center_point t) ∧
                 (∀ e, neighbour_ids b' !! e
                       = if decide (e ∈ edges b)
                         then Some (default NbEmpty (neighbour_ids b !! e))
                         else neighbour_ids b !! e) ∧
                 (∀ e, e ∉ edges b → mean_flow t' !! e = mean_flow t !! e)
             | _, _ => False
             end)
          (cells (sim_mesh s)) (cells (sim_mesh s')).
Proof.
  intros H. pose proof (initial_conditions_cells_frame s s' H) as Hf.
  apply initial_conditions_cells in H as [_ Hs].
  repeat (split; [by rewrite Hs |]). exact Hf.
Qed.

Lemma initial_conditions_frame_witness :
  borders square_initialized = borders square_sim ∧
  oil_in_fishing_grounds square_initialized
  = oil_in_fishing_grounds square_sim.
Proof.
  destruct (initial_conditions_frame square_sim square_initialized
              square_initial_conditions)
    as (_ & _ & _ & Hb & Ho & _).
  exact (conj Hb Ho).
Defined.

(** ** The neighbours recorded on a freshly created mesh *)

Lemma edge_cell_ids_elem_iff (cs : list Cell) (e : Edge) (n : nat) :
  n ∈ edge_cell_ids cs e
  ↔ ∃ c, c ∈ cs ∧ cell_id (base c) = n ∧ e ∈ edges (base c).
Proof.
  unfold edge_cell_ids. rewrite list_elem_of_In, in_flat_map. split.
  - intros (c & Hc & Hn). exists c. split; [by apply list_elem_of_In |].
    apply in_flat_map in Hn as (e' & He' & Hn).
    destruct (decide (e' = e)) as [-> |]; simpl in Hn; [| done].
    destruct Hn as [Hn | []]. split; [done | by apply list_elem_of_In].
  - intros (c & Hc & Hid & He). exists c. split; [by apply list_elem_of_In |].
    apply in_flat_map. exists e. split; [by apply list_elem_of_In |].
    rewrite decide_True by done. left. done.
Qed.

Lemma last_other_Some (cid : nat) (ids : list nat) (n : nat) :
  last_other cid ids = Some n → n ∈ ids ∧ n ≠ cid.
Proof.
  unfold last_other. intros H. apply last_Some_elem_of in H.
  apply list_elem_of_filter in H. tauto.
Qed.

Lemma last_other_None (cid : nat) (ids : list nat) (n : nat) :
  last_other cid ids = None → n ∈ ids → n = cid.
Proof.
  unfold last_other. intros H Hn. apply last_None in H.
  destruct (decide (n = cid)) as [| Hne]; [done |].
  assert (Hin : n ∈ filter (λ n, n ≠ cid) ids)
    by (apply list_elem_of_filter; done).
  rewrite H in Hin. by apply elem_of_nil in Hin.
Qed.

Lemma last_other_pair (a b : nat) :
  a ≠ b → last_other a [a; b] = Some b ∧ last_other b [a; b] = Some a.
Proof.
  intros Hne. unfold last_other.
  rewrite !filter_cons, !filter_nil.
  repeat case_decide; done.
Qed.

(** The neighbours that [build_topology] and [assign_neighbours] record on
    a mesh as [create_cells] leaves it (ids equal to positions, no
    neighbour yet, empty adjacency index).  A recorded neighbour of a
    cell over an edge is never the cell itself, is the position of a cell,
    and that cell has the edge too; the edge is one of the cell's own.
    No entry is the empty list.  Where nothing is recorded for an edge of
    the cell, no other cell has the edge.  Two different cells that alone
    share an edge are recorded as each other's neighbour over it. *)
Theorem topology_neighbours_sound (m : Mesh) :
  mesh_edges m = ∅ → fresh_ids (cells m) →
  (∀ i c e, cells (assign_neighbours (build_topology m)) !! i = Some c →
     match neighbour_ids (base c) !! e with
     | Some (NbId n) =>
         e ∈ edges (base c) ∧ n ≠ i ∧
         ∃ cn, cells (assign_neighbours (build_topology m)) !! n = Some cn ∧
               e ∈ edges (base cn)
     | Some NbEmpty => False
     | None =>
         e ∉ edges (base c) ∨
         ∀ j cj, cells (assign_neighbours (build_topology m)) !! j = Some cj →
                 e ∈ edges (base cj) → j = i
     end) ∧
  (∀ e a b, a ≠ b → edge_cell_ids (cells m) e = [a; b] →
     ∃ ca cb,
       cells (assign_neighbours (build_topology m)) !! a = Some ca ∧
       cells (assign_neighbours (build_topology m)) !! b = Some cb ∧
       neighbour_ids (base ca) !! e = Some (NbId b) ∧
       neighbour_ids (base cb) !! e = Some (NbId a)).
Proof.
  intros Hempty [Hids Hnb].
  assert (Hme : ∀ e, mesh_edges (build_topology m) !!! e
                     = edge_cell_ids (cells m) e).
  { intros e. by rewrite build_topology_lookup, Hempty, lookup_total_empty. }
  assert (Hpos : ∀ c, c ∈ cells m →
                      cells m !! cell_id (base c) = Some c).
  { intros c Hc. apply list_elem_of_lookup in Hc as [i Hi].
    by rewrite (Hids i c Hi). }
  assert (Hlook : ∀ c e, c ∈ cells m →
            neighbour_ids
              (base (assigned_cell (mesh_edges (build_topology m)) c)) !! e
            = match (if decide (e ∈ edges (base c))
                     then last_other (cell_id (base c))
                            (edge_cell_ids (cells m) e)
                     else None) with
              | Some n => Some (NbId n)
              | None => None
              end).
  { intros c e Hc.
    rewrite assigned_cell_neighbours, neighbours_after_lookup, Hme.
    by rewrite (Hnb c Hc), lookup_empty. }
  rewrite once_cells.
  remember (mesh_edges (build_topology m)) as me eqn:Eme in *. split.
  - intros i c' e Hi. rewrite list_lookup_fmap in Hi.
    destruct (cells m !! i) as [c |] eqn:Ei; [| done].
    injection Hi as <-.
    assert (Hc : c ∈ cells m) by (apply list_elem_of_lookup; eauto).
    rewrite (Hlook c e Hc), assigned_cell_edges, (Hids i c Ei).
    destruct (decide (e ∈ edges (base c))) as [He | He]; [| by left].
    destruct (last_other i (edge_cell_ids (cells m) e)) as [n |] eqn:El.
    + apply last_other_Some in El as [Hn Hne].
      apply edge_cell_ids_elem_iff in Hn as (cn & Hcn & Hid & Hen).
      split; [done |]. split; [done |].
      exists (assigned_cell me cn).
      rewrite list_lookup_fmap, <- Hid, (Hpos cn Hcn), assigned_cell_edges.
      done.
    + right. intros j cj' Hj Hej. rewrite list_lookup_fmap in Hj.
      destruct (cells m !! j) as [cj |] eqn:Ej; [| done].
      injection Hj as <-.
      rewrite assigned_cell_edges in Hej.
      apply (last_other_None i (edge_cell_ids (cells m) e) j El).
      apply edge_cell_ids_elem_iff. exists cj.
      split; [apply list_elem_of_lookup; eauto |].
      split; [by apply Hids | done].
  - intros e a b Hne Hab.
    assert (Ha : a ∈ edge_cell_ids (cells m) e) by (rewrite Hab; left).
    assert (Hb : b ∈ edge_cell_ids (cells m) e)
      by (rewrite Hab; right; left).
    apply edge_cell_ids_elem_iff in Ha as (ca & Hca & Hida & Hea).
    apply edge_cell_ids_elem_iff in Hb as (cb & Hcb & Hidb & Heb).
    destruct (last_other_pair a b Hne) as [Lab Lba].
    exists (assigned_cell me ca), (assigned_cell me cb).
    rewrite !list_lookup_fmap, <- Hida at 1. rewrite (Hpos ca Hca).
    rewrite <- Hidb at 1. rewrite (Hpos cb Hcb).
    rewrite (Hlook ca e Hca), (Hlook cb e Hcb), Hida, Hidb, Hab.
    rewrite !decide_True by done. by rewrite Lab, Lba.
Qed.

Lemma square_created_fresh : fresh_ids (cells square_created).
Proof.
  apply (create_cells_fresh
           (read_mesh square_points square_blocks Mesh_init) square_created);
    [apply fresh_ids_nil | apply square_create_cells].
Qed.

Lemma topology_neighbours_sound_witness :
  ∃ ca cb,
    cells (assign_neighbours (build_topology square_created)) !! 0 = Some ca ∧
    cells (assign_neighbours (build_topology square_created)) !! 1 = Some cb ∧
    neighbour_ids (base ca) !! (0, 2) = Some (NbId 1) ∧
    neighbour_ids (base cb) !! (0, 2) = Some (NbId 0).
Proof.
  apply (proj2 (topology_neighbours_sound square_created eq_refl
                  square_created_fresh)).
  - lia.
  - vm_compute. reflexivity.
Defined.

(** ** The cells that create_cells makes *)

Lemma cell_coords_fold (pts : list vec) (row : list nat) :
  ∀ d0 d : odict nat vec,
    foldM (fun d p => xy ←! of_option IndexError (pts !! p); Ok (oset d p xy))
          d0 row = Ok d →
    (∀ p, oget d p = if decide (p ∈ row) then pts !! p else oget d0 p) ∧
    (∀ p, p ∈ row → p < length pts).
Proof.
  induction row as [| p0 row IH]; intros d0 d H; simpl in H.
  - inversion H; subst. split.
    + intros p. destruct (decide (p ∈ [])) as [Hin |];
        [by apply elem_of_nil in Hin | done].
    + intros p Hp. by apply elem_of_nil in Hp.
  - destruct (pts !! p0) as [xy |] eqn:E0; simpl in H; [| done].
    apply IH in H as [Ha Hb]. split.
    + intros p. rewrite Ha.
      destruct (decide (p ∈ row)) as [Hin | Hnin],
               (decide (p ∈ p0 :: row)) as [Hin' | Hnin']; try done.
      * exfalso. apply Hnin'. by right.
      * apply elem_of_cons in Hin' as [-> | ?]; [| done].
        by rewrite oget_oset_eq.
      * apply oget_oset_ne. intros ->. apply Hnin'. left.
    + intros p [-> | Hp]%elem_of_cons; [| by apply Hb].
      by apply lookup_lt_Some in E0.
Qed.

Lemma cell_coords_spec (pts : list vec) (row : list nat)
    (cds : odict nat vec) :
  cell_coords pts row = Ok cds →
  (∀ p, oget cds p = if decide (p ∈ row) then pts !! p else None) ∧
  (∀ p, p ∈ row → p < length pts).
Proof. intros H. by apply cell_coords_fold in H. Qed.

Lemma cell_coords_total (pts : list vec) (row : list nat) :
  (∀ p, p ∈ row → p < length pts) → ∃ cds, cell_coords pts row = Ok cds.
Proof.
  intros H. apply foldM_Ok. intros d p Hp.
  destruct (lookup_lt_is_Some_2 pts p (H p Hp)) as [xy ->]. simpl. eauto.
Qed.

Lemma cell_coords_three (pts : list vec) (n0 n1 n2 : nat) (p0 p1 p2 : vec) :
  pts !! n0 = Some p0 → pts !! n1 = Some p1 → pts !! n2 = Some p2 →
  n0 ≠ n1 → n1 ≠ n2 → n2 ≠ n0 →
  cell_coords pts [n0; n1; n2] = Ok [(n0, p0); (n1, p1); (n2, p2)].
Proof.
  intros H0 H1 H2 H01 H12 H20. unfold cell_coords. cbn [foldM].
  rewrite H0. cbn [of_option rbind oset].
  rewrite H1. cbn [of_option rbind oset].
  rewrite (decide_False (P := n0 = n1)) by done.
  rewrite H2. cbn [of_option rbind oset].
  rewrite (decide_False (P := n0 = n2)) by done.
  rewrite (decide_False (P := n1 = n2)) by done.
  done.
Qed.

Lemma vsub_norm_ne_0 (p q : vec) : p ≠ q → norm (vsub q p) ≠ 0%R.
Proof.
  intros Hne. apply norm_ne_0. destruct p as [px py], q as [qx qy]. simpl.
  destruct (Req_dec qx px) as [-> | ?]; [| left; lra].
  destruct (Req_dec qy py) as [-> | ?]; [done | right; lra].
Qed.

(** The two ends of a canonical edge, read through a coordinate
    dictionary that agrees with the points on both nodes. *)
Lemma edge_ends_lookup (pts : list vec) (cds : odict nat vec) (a b : nat)
    (q1 q2 : vec) :
  oget cds a = pts !! a → oget cds b = pts !! b →
  oget cds (sorted_pair a b).1 = Some q1 →
  oget cds (sorted_pair a b).2 = Some q2 →
  (pts !! a = Some q1 ∧ pts !! b = Some q2)
  ∨ (pts !! a = Some q2 ∧ pts !! b = Some q1).
Proof.
  intros Ha Hb H1 H2.
  destruct (sorted_pair_ends a b) as [E | E]; rewrite E in H1, H2;
    simpl in H1, H2; [left | right]; split; congruence.
Qed.

Lemma CellFactory_call_cases (r : CellRecord) (c : Cell) :
  CellFactory_call CellFactory_init r = Ok c →
  (rec_type r = "triangle" ∧
   Triangle_init (rec_id r) (rec_nodes r) (rec_coords r) = Ok c)
  ∨ (rec_type r = "line" ∧
     Line_init (rec_id r) (rec_nodes r) (rec_coords r) = Ok c).
Proof.
  unfold CellFactory_call, CellFactory_init.
  rewrite !lookup_insert, lookup_empty.
  destruct (decide ("triangle" = rec_type r)) as [<- |]; simpl; [by left |].
  destruct (decide ("line" = rec_type r)) as [<- |]; simpl; [by right | done].
Qed.

Lemma CellFactory_call_triangle (cid : nat) (ns : list nat)
    (cds : odict nat vec) :
  CellFactory_call CellFactory_init (mkCellRecord "triangle" cid ns cds)
  = Triangle_init cid ns cds.
Proof. done. Qed.

Lemma CellFactory_call_line (cid : nat) (ns : list nat)
    (cds : odict nat vec) :
  CellFactory_call CellFactory_init (mkCellRecord "line" cid ns cds)
  = Line_init cid ns cds.
Proof. done. Qed.

Lemma Triangle_init_shape (cid : nat) (ns : list nat) (cds : odict nat vec)
    (c : Cell) :
  Triangle_init cid ns cds = Ok c →
  cell_type c = "triangle" ∧ nodes (base c) = ns ∧ coords (base c) = cds ∧
  ∃ n0 n1 n2, ns = [n0; n1; n2] ∧
    ∀ e, e ∈ [sorted_pair n0 n1; sorted_pair n1 n2; sorted_pair n2 n0] →
         ∃ q1 q2, oget cds e.1 = Some q1 ∧ oget cds e.2 = Some q2 ∧
                  norm (vsub q2 q1) ≠ 0%R.
Proof.
  intros H.
  assert (∃ b t, c = Triangle b t) as (b & t & ->).
  { unfold Triangle_init in H.
    destruct (Triangle_define_edges ns); simpl in H; [| done].
    destruct (compute_normal _ _ _); simpl in H; [| done].
    destruct (compute_area cds); simpl in H; [| done].
    inversion H. eauto. }
  apply Triangle_init_inv in H as (n0 & n1 & n2 & -> & -> & _ & Hn & _).
  simpl. repeat split; try done. exists n0, n1, n2. split; [done |].
  simpl in Hn. by apply (compute_normal_inv _ _ _ _ _ Hn).
Qed.

Lemma Line_init_shape (cid : nat) (ns : list nat) (cds : odict nat vec)
    (c : Cell) :
  Line_init cid ns cds = Ok c →
  cell_type c = "line" ∧ nodes (base c) = ns ∧ coords (base c) = cds ∧
  ∃ n0 n1, ns = [n0; n1].
Proof.
  unfold Line_init.
  destruct ns as [| n0 [| n1 [| ? ?]]]; simpl; try done.
  inversion 1; subst; simpl. repeat split; eauto.
Qed.

Lemma Triangle_init_total (cid n0 n1 n2 : nat) (p0 p1 p2 : vec) :
  n0 ≠ n1 → n1 ≠ n2 → n2 ≠ n0 → p0 ≠ p1 → p1 ≠ p2 → p2 ≠ p0 →
  ∃ c, Triangle_init cid [n0; n1; n2] [(n0, p0); (n1, p1); (n2, p2)] = Ok c.
Proof.
  intros N01 N12 N20 H01 H12 H20. unfold Triangle_init.
  cbn [Triangle_define_edges rbind].
  destruct (compute_normal_from_ok [(n0, p0); (n1, p1); (n2, p2)]
              (compute_center_point [(n0, p0); (n1, p1); (n2, p2)])
              [sorted_pair n0 n1; sorted_pair n1 n2; sorted_pair n2 n0] ∅)
    as (ns & Hns & _).
  - assert (L0 : oget [(n0, p0); (n1, p1); (n2, p2)] n0 = Some p0)
      by (simpl; by rewrite decide_True).
    assert (L1 : oget [(n0, p0); (n1, p1); (n2, p2)] n1 = Some p1)
      by (simpl; rewrite decide_False by done; by rewrite decide_True).
    assert (L2 : oget [(n0, p0); (n1, p1); (n2, p2)] n2 = Some p2)
      by (simpl; rewrite !decide_False by done; by rewrite decide_True).
    intros e He. rewrite !elem_of_cons, elem_of_nil in He.
    destruct He as [-> | [-> | [-> | []]]].
    + destruct (sorted_pair_ends n0 n1) as [-> | ->]; simpl fst; simpl snd;
        eexists _, _; (split; [eassumption |]); (split; [eassumption |]);
        apply vsub_norm_ne_0; congruence.
    + destruct (sorted_pair_ends n1 n2) as [-> | ->]; simpl fst; simpl snd;
        eexists _, _; (split; [eassumption |]); (split; [eassumption |]);
        apply vsub_norm_ne_0; congruence.
    + destruct (sorted_pair_ends n2 n0) as [-> | ->]; simpl fst; simpl snd;
        eexists _, _; (split; [eassumption |]); (split; [eassumption |]);
        apply vsub_norm_ne_0; congruence.
  - unfold compute_normal. rewrite Hns. cbn [rbind].
    rewrite compute_area_three. cbn [rbind]. eauto.
Qed.

Lemma edge_positions_distinct (pts : list vec) (cds : odict nat vec)
    (a b : nat) :
  oget cds a = pts !! a → oget cds b = pts !! b →
  (∃ q1 q2, oget cds (sorted_pair a b).1 = Some q1 ∧
            oget cds (sorted_pair a b).2 = Some q2 ∧
            norm (vsub q2 q1) ≠ 0%R) →
  ∃ pa pb, pts !! a = Some pa ∧ pts !! b = Some pb ∧ pa ≠ pb.
Proof.
  intros Ha Hb (q1 & q2 & H1 & H2 & Hn).
  assert (Hq : q1 ≠ q2) by (intros ->; by rewrite norm_vsub_self in Hn).
  destruct (edge_ends_lookup pts cds a b q1 q2 Ha Hb H1 H2) as [[? ?] | [? ?]];
    eexists _, _; (split; [eassumption |]); (split; [eassumption |]);
    congruence.
Qed.

Lemma row_built (pts : list vec) (ty : string) (cid : nat) (row : list nat)
    (cds : odict nat vec) (c : Cell) :
  cell_coords pts row = Ok cds →
  CellFactory_call CellFactory_init (mkCellRecord ty cid row cds) = Ok c →
  built_from pts (ty, row) c ∧ row_buildable pts (ty, row).
Proof.
  intros Hc Hf. apply cell_coords_spec in Hc as [Hget Hlt].
  apply CellFactory_call_cases in Hf as [[Hty Hi] | [Hty Hi]];
    simpl in Hty, Hi; subst ty.
  - apply Triangle_init_shape in Hi
      as (Ht & Hn & Hcd & n0 & n1 & n2 & -> & He).
    split.
    + split; [done |]. split; [done |]. simpl. intros p. by rewrite Hcd.
    + right. split; [done |]. simpl.
      assert (G : ∀ a, a ∈ [n0; n1; n2] → oget cds a = pts !! a).
      { intros a Ha. rewrite Hget. by rewrite decide_True. }
      destruct (edge_positions_distinct pts cds n0 n1)
        as (p0 & p1 & L0 & L1 & D01);
        [apply G; set_solver | apply G; set_solver | apply He; set_solver |].
      destruct (edge_positions_distinct pts cds n1 n2)
        as (p1' & p2 & L1' & L2 & D12);
        [apply G; set_solver | apply G; set_solver | apply He; set_solver |].
      destruct (edge_positions_distinct pts cds n2 n0)
        as (p2' & p0' & L2' & L0' & D20);
        [apply G; set_solver | apply G; set_solver | apply He; set_solver |].
      exists n0, n1, n2, p0, p1, p2.
      repeat split; try done; congruence.
  - apply Line_init_shape in Hi as (Ht & Hn & Hcd & n0 & n1 & ->).
    split.
    + split; [done |]. split; [done |]. simpl. intros p. by rewrite Hcd.
    + left. split; [done |]. exists n0, n1. simpl.
      split; [done |]. split; apply Hlt; set_solver.
Qed.

Lemma row_buildable_ok (pts : list vec) (ty : string) (cid : nat)
    (row : list nat) :
  row_buildable pts (ty, row) →
  ∃ cds c, cell_coords pts row = Ok cds ∧
           CellFactory_call CellFactory_init (mkCellRecord ty cid row cds)
           = Ok c.
Proof.
  intros [[Hty (n0 & n1 & Hrow & H0 & H1)]
         | [Hty (n0 & n1 & n2 & p0 & p1 & p2 & Hrow & L0 & L1 & L2
                 & D01 & D12 & D20)]];
    simpl in Hty, Hrow; subst ty row.
  - destruct (cell_coords_total pts [n0; n1]) as [cds Hc].
    { intros p. rewrite !elem_of_cons, elem_of_nil.
      intros [-> | [-> | []]]; done. }
    exists cds. rewrite CellFactory_call_line, Hc. simpl. eauto.
  - assert (n0 ≠ n1) by congruence.
    assert (n1 ≠ n2) by congruence.
    assert (n2 ≠ n0) by congruence.
    rewrite (cell_coords_three pts n0 n1 n2 p0 p1 p2) by done.
    destruct (Triangle_init_total cid n0 n1 n2 p0 p1 p2) as [c Hc];
      try done.
    eexists _, c. split; [done |]. by rewrite CellFactory_call_triangle.
Qed.

Lemma create_block_cells_built (pts : list vec) (ty : string)
    (data : list (list nat)) :
  ∀ cs cs' : list Cell,
    create_block_cells CellFactory_init pts ty cs data = Ok cs' →
    ∃ new, cs' = cs ++ new ∧
           Forall2 (built_from pts) ((fun row => (ty, row)) <$> data) new ∧
           Forall (row_buildable pts) ((fun row => (ty, row)) <$> data).
Proof.
  unfold create_block_cells.
  induction data as [| row data IH]; intros cs cs' H; simpl in H.
  - inversion H; subst. exists []. rewrite app_nil_r.
    split; [done |]. split; constructor.
  - destruct (cell_coords pts row) as [cds |] eqn:Ec; simpl in H; [| done].
    destruct (CellFactory_call _ _) as [c |] eqn:Ef; simpl in H; [| done].
    apply IH in H as (new & -> & Hb & Hr).
    destruct (row_built _ _ _ _ _ _ Ec Ef) as [Hbc Hrc].
    exists (c :: new). rewrite <- app_assoc. split; [done |].
    split; simpl; by constructor.
Qed.

Lemma create_block_cells_total (pts : list vec) (ty : string)
    (data : list (list nat)) :
  Forall (row_buildable pts) ((fun row => (ty, row)) <$> data) →
  ∀ cs, ∃ cs', create_block_cells CellFactory_init pts ty cs data = Ok cs'.
Proof.
  unfold create_block_cells.
  induction data as [| row data IH]; intros H cs; simpl; [eauto |].
  simpl in H. apply Forall_cons in H as [Hrow H].
  destruct (row_buildable_ok pts ty (length cs) row Hrow)
    as (cds & c & -> & Hc).
  simpl. rewrite Hc. simpl. by apply IH.
Qed.

Lemma create_cells_fold_built (pts : list vec) (blocks : list CellBlock) :
  ∀ cs cs' : list Cell,
    foldM (fun cs cell_block =>
             if decide (block_type cell_block = "vertex") then Ok cs
             else create_block_cells CellFactory_init pts
                    (block_type cell_block) cs (block_data cell_block))
          cs blocks = Ok cs' →
    ∃ new, cs' = cs ++ new ∧
           Forall2 (built_from pts) (block_rows blocks) new ∧
           Forall (row_buildable pts) (block_rows blocks).
Proof.
  induction blocks as [| blk blocks IH]; intros cs cs' H; simpl in H.
  - inversion H; subst. exists []. rewrite app_nil_r.
    split; [done |]. split; constructor.
  - simpl. destruct (decide (block_type blk = "vertex")); simpl in H.
    + by apply IH in H.
    + destruct (create_block_cells _ _ _ _ _) as [cs1 |] eqn:Eb;
        simpl in H; [| done].
      apply create_block_cells_built in Eb as (new1 & -> & Hb1 & Hr1).
      apply IH in H as (new2 & -> & Hb2 & Hr2).
      exists (new1 ++ new2). rewrite app_assoc. split; [done |].
      split; [by apply Forall2_app | by apply Forall_app].
Qed.

Lemma create_cells_fold_total (pts : list vec) (blocks : list CellBlock) :
  Forall (row_buildable pts) (block_rows blocks) →
  ∀ cs, ∃ cs',
    foldM (fun cs cell_block =>
             if decide (block_type cell_block = "vertex") then Ok cs
             else create_block_cells CellFactory_init pts
                    (block_type cell_block) cs (block_data cell_block))
          cs blocks = Ok cs'.
Proof.
  induction blocks as [| blk blocks IH]; intros H cs; simpl; [eauto |].
  simpl in H. destruct (decide (block_type blk = "vertex")); simpl.
  - by apply IH.
  - apply Forall_app in H as [H1 H2].
    destruct (create_block_cells_total pts (block_type blk) (block_data blk)
                H1 cs) as [cs1 ->].
    simpl. by apply IH.
Qed.

(** [create_cells] completes exactly when every row of every block other
    than the vertex blocks can be built: it is a line on two nodes or a
    triangle on three nodes at three different positions, and its nodes
    are indices into the points (so any other block type makes it fail).
    It then keeps the cells that were there and appends one cell per such
    row, in the order of the blocks and rows, with the type of the block,
    the nodes of the row and the coordinates of these nodes; points,
    blocks and adjacency index are left as they were. *)
Theorem create_cells_contract (m : Mesh) :
  ((∃ m', create_cells m = Ok m')
   ↔ Forall (row_buildable (points m)) (block_rows (mesh_cell_blocks m))) ∧
  (∀ m', create_cells m = Ok m' →
     points m' = points m ∧
     mesh_cell_blocks m' = mesh_cell_blocks m ∧
     mesh_edges m' = mesh_edges m ∧
     ∃ new, cells m' = cells m ++ new ∧
            Forall2 (built_from (points m))
                    (block_rows (mesh_cell_blocks m)) new).
Proof.
  split; [split |].
  - intros [m' H]. unfold create_cells in H.
    destruct (foldM _ _ _) as [cs |] eqn:E; simpl in H; [| done].
    by apply create_cells_fold_built in E as (new & _ & _ & Hr).
  - intros H. unfold create_cells.
    destruct (create_cells_fold_total (points m) (mesh_cell_blocks m) H
                (cells m)) as [cs ->].
    simpl. eauto.
  - intros m' H. unfold create_cells in H.
    destruct (foldM _ _ _) as [cs |] eqn:E; simpl in H; [| done].
    inversion H; subst m'; clear H. simpl.
    apply create_cells_fold_built in E as (new & -> & Hb & _).
    repeat split; try done. by exists new.
Qed.

Lemma create_cells_contract_witness :
  Forall (row_buildable square_points) (block_rows square_blocks).
Proof.
  apply (proj1 (proj1 (create_cells_contract
                         (read_mesh square_points square_blocks Mesh_init)))).
  exists square_created. exact square_create_cells.
Defined.

(** ** CellFactory.register *)

(** The first registration of a key wins: [register] leaves a factory
    that already has the key as it is, so the constructors of "line" and
    "triangle" cannot be replaced and a second registration of a key has no
    effect; a key that is new is served by the registered constructor, and
    calls for any other type are served as before. *)
Theorem register_first_wins (key : string) (type type' : constructor)
    (cell_types : gmap string constructor) (r : CellRecord) :
  (is_Some (cell_types !! key) → register key type cell_types = cell_types) ∧
  register key type' (register key type cell_types)
  = register key type cell_types ∧
  register "line" type CellFactory_init = CellFactory_init ∧
  register "triangle" type CellFactory_init = CellFactory_init ∧
  (cell_types !! key = None → rec_type r = key →
   CellFactory_call (register key type cell_types) r
   = type (rec_id r) (rec_nodes r) (rec_coords r)) ∧
  (rec_type r ≠ key →
   CellFactory_call (register key type cell_types) r
   = CellFactory_call cell_types r).
Proof.
  repeat split.
  - intros [c Hc]. unfold register. by rewrite Hc.
  - unfold register. destruct (cell_types !! key) as [c |] eqn:E.
    + by rewrite E.
    + by rewrite lookup_insert_eq.
  - intros Hn <-. unfold CellFactory_call, register. rewrite Hn.
    by rewrite lookup_insert_eq.
  - intros Hne. unfold CellFactory_call, register.
    destruct (cell_types !! key); [done |].
    by rewrite lookup_insert_ne.
Qed.

Lemma register_first_wins_witness :
  CellFactory_call (register "quad" Line_init CellFactory_init)
    (mkCellRecord "quad" 7 [0; 1] [])
  = Line_init 7 [0; 1] [].
Proof.
  apply (proj1 (proj2 (proj2 (proj2 (proj2
           (register_first_wins "quad" Line_init Line_init CellFactory_init
              (mkCellRecord "quad" 7 [0; 1] []))))))); done.
Defined.

(** ** The three normals of a constructed Triangle *)

Section NormalsClosed.
Local Open Scope R_scope.

(** The normal of an edge is the edge vector turned by a quarter, with the
    sign that the test against the centre selects. *)
Lemma outward_normal_cases (p1 p2 center : vec) :
  norm (vsub p2 p1) ≠ 0 →
  outward_normal p1 p2 center
  = if Rgtb (dot (- (vsub p2 p1).2, (vsub p2 p1).1)
                 (vsub center (vdiv (vadd p1 p2) 2))) 0
    then vneg (- (vsub p2 p1).2, (vsub p2 p1).1)
    else (- (vsub p2 p1).2, (vsub p2 p1).1).
Proof.
  intros Hn. unfold outward_normal. cbv zeta.
  set (ev := vsub p2 p1) in *. set (tc := vsub center _).
  rewrite (norm_rot ev).
  pose proof (norm_nonneg ev) as Hpos.
  assert (HL : 0 < norm ev) by lra.
  set (L := norm ev) in *. clearbody L.
  assert (Hd : dot (vdiv (- ev.2, ev.1) L) tc
               = dot (- ev.2, ev.1) tc / L).
  { unfold dot, vdiv; simpl. field. lra. }
  rewrite Hd.
  assert (Hs : Rgtb (dot (- ev.2, ev.1) tc / L) 0
               = Rgtb (dot (- ev.2, ev.1) tc) 0).
  { set (x := dot _ tc). clearbody x. unfold Rgtb.
    pose proof (Rinv_0_lt_compat L HL) as Hi. unfold Rdiv.
    destruct (Rgt_dec (x * / L) 0), (Rgt_dec x 0); try done; exfalso; nra. }
  rewrite Hs. clear Hs Hd.
  destruct (Rgtb (dot (- ev.2, ev.1) tc) 0); unfold vscale, vneg, vdiv; simpl;
    f_equal; field; lra.
Qed.

(** For the centre of the three corners, the test of [compute_normal] on
    the edge from [pa] to [pb] is on the sign of the cross product with
    the third corner. *)
Lemma centroid_test (pa pb pc center : vec) :
  3 * center.1 = pa.1 + pb.1 + pc.1 →
  3 * center.2 = pa.2 + pb.2 + pc.2 →
  dot (- (vsub pb pa).2, (vsub pb pa).1)
      (vsub center (vdiv (vadd pa pb) 2))
  = cross (vsub pb pa) (vsub pc pa) / 3.
Proof.
  intros H1 H2. unfold dot, cross, vsub, vdiv, vadd; simpl.
  replace center.1 with ((pa.1 + pb.1 + pc.1) / 3) by lra.
  replace center.2 with ((pa.2 + pb.2 + pc.2) / 3) by lra.
  field.
Qed.

Lemma centroid_normal (pa pb pc center : vec) :
  3 * center.1 = pa.1 + pb.1 + pc.1 →
  3 * center.2 = pa.2 + pb.2 + pc.2 →
  pa ≠ pb →
  outward_normal pa pb center
  = if Rgtb (cross (vsub pb pa) (vsub pc pa)) 0
    then vneg (- (vsub pb pa).2, (vsub pb pa).1)
    else (- (vsub pb pa).2, (vsub pb pa).1).
Proof.
  intros H1 H2 Hne.
  rewrite outward_normal_cases by by apply vsub_norm_ne_0.
  rewrite (centroid_test pa pb pc center H1 H2).
  set (D := cross _ _). clearbody D.
  assert (Hs : Rgtb (D / 3) 0 = Rgtb D 0).
  { unfold Rgtb. destruct (Rgt_dec (D / 3) 0), (Rgt_dec D 0); try done;
      exfalso; lra. }
  by rewrite Hs.
Qed.

(** The normal stored for an edge, whichever of its ends comes first in
    the canonical key. *)
Lemma centroid_normal_either (pa pb pc center v : vec) :
  3 * center.1 = pa.1 + pb.1 + pc.1 →
  3 * center.2 = pa.2 + pb.2 + pc.2 →
  pa ≠ pb →
  v = outward_normal pa pb center ∨ v = outward_normal pb pa center →
  dot v (vsub center (vdiv (vadd pa pb) 2))
  = - (Rabs (cross (vsub pb pa) (vsub pc pa)) / 3) ∧
  (cross (vsub pb pa) (vsub pc pa) ≠ 0 →
   v = if Rgtb (cross (vsub pb pa) (vsub pc pa)) 0
       then vneg (- (vsub pb pa).2, (vsub pb pa).1)
       else (- (vsub pb pa).2, (vsub pb pa).1)).
Proof.
  intros H1 H2 Hne Hv.
  pose proof (centroid_test pa pb pc center H1 H2) as Ht.
  assert (Hv' : v = (if Rgtb (cross (vsub pb pa) (vsub pc pa)) 0
                     then vneg (- (vsub pb pa).2, (vsub pb pa).1)
                     else (- (vsub pb pa).2, (vsub pb pa).1))
                ∨ (v = vneg (- (vsub pb pa).2, (vsub pb pa).1) ∧
                   cross (vsub pb pa) (vsub pc pa) = 0)).
  { destruct Hv as [-> | ->].
    - left. by apply centroid_normal.
    - rewrite (centroid_normal pb pa pc center) by (try lra; congruence).
      assert (Hc : cross (vsub pa pb) (vsub pc pb)
                   = - cross (vsub pb pa) (vsub pc pa))
        by (unfold cross, vsub; simpl; ring).
      rewrite Hc. set (D := cross (vsub pb pa) _). clearbody D.
      assert (Hr : (- (vsub pa pb).2, (vsub pa pb).1)
                   = vneg (- (vsub pb pa).2, (vsub pb pa).1))
        by (unfold vneg, vsub; simpl; f_equal; ring).
      rewrite Hr. unfold Rgtb.
      destruct (Rgt_dec (- D) 0), (Rgt_dec D 0); try lra.
      + left. unfold vneg; simpl. f_equal; ring.
      + left. done.
      + right. split; [done | lra]. }
  clear Hv. set (D := cross (vsub pb pa) (vsub pc pa)) in *.
  set (r := (- (vsub pb pa).2, (vsub pb pa).1)) in *.
  set (w := vsub center _) in *. unfold Rgtb in Hv' |- *.
  destruct Hv' as [-> | [-> HD]].
  - destruct (Rgt_dec D 0) as [Hp | Hp].
    + split; [| done]. rewrite dot_vneg, Ht, Rabs_right by lra. lra.
    + split; [| done]. rewrite Ht, Rabs_left1 by lra. lra.
  - split; [| done]. rewrite dot_vneg, Ht, HD, Rabs_R0. lra.
Qed.
End NormalsClosed.

Lemma center_three (k0 k1 k2 : nat) (p0 p1 p2 : vec) :
  (3 * (compute_center_point [(k0, p0); (k1, p1); (k2, p2)]).1
   = p0.1 + p1.1 + p2.1)%R ∧
  (3 * (compute_center_point [(k0, p0); (k1, p1); (k2, p2)]).2
   = p0.2 + p1.2 + p2.2)%R.
Proof.
  unfold compute_center_point, np_mean, py_sum, ovalues. simpl.
  split; field.
Qed.

(** The normal stored for the canonical edge on [a] and [b]. *)
Lemma stored_normal (cds : odict nat vec) (center : vec) (es : list Edge)
    (ns : gmap Edge vec) (a b : nat) (pa pb : vec) :
  compute_normal cds center es = Ok ns →
  sorted_pair a b ∈ es →
  oget cds a = Some pa → oget cds b = Some pb →
  pa ≠ pb ∧
  ∃ v, ns !! sorted_pair a b = Some v ∧
       (v = outward_normal pa pb center ∨ v = outward_normal pb pa center).
Proof.
  intros Hn He Ha Hb.
  pose proof (compute_normal_inv cds center es ∅ ns Hn) as Hes.
  destruct (compute_normal_from_ok cds center es ∅ Hes)
    as (ns' & Hns' & Hin & _).
  assert (ns' = ns) by (unfold compute_normal in Hn; congruence). subst ns'.
  destruct (Hes _ He) as (q1 & q2 & H1 & H2 & Hnz).
  destruct (Hin _ He) as (q1' & q2' & H1' & H2' & Hv).
  assert (q1' = q1) by congruence. assert (q2' = q2) by congruence.
  subst q1' q2'.
  assert (Hq : q1 ≠ q2) by (intros ->; by rewrite norm_vsub_self in Hnz).
  destruct (sorted_pair_ends a b) as [E | E]; rewrite E in H1, H2;
    simpl in H1, H2.
  - assert (q1 = pa) by congruence. assert (q2 = pb) by congruence. subst.
    split; [done |]. eauto.
  - assert (q1 = pb) by congruence. assert (q2 = pa) by congruence. subst.
    split; [done |]. eauto.
Qed.

(** The normals of a Triangle made from its three nodes and their
    positions, as [create_cells] makes it.  For each edge, the product of
    the stored normal with the vector from the middle of the edge to the
    centre is minus two thirds of the area: the normal points away from the
    centre, strictly unless the area is 0.  When the area is not 0 the
    three normals add up to the zero vector. *)
Theorem triangle_normals_closed (cid n0 n1 n2 : nat) (p0 p1 p2 : vec)
    (b : CellBase) (t : TriangleData) :
  Triangle_init cid [n0; n1; n2] [(n0, p0); (n1, p1); (n2, p2)]
  = Ok (Triangle b t) →
  ∃ v01 v12 v20 : vec,
    normals t !! sorted_pair n0 n1 = Some v01 ∧
    normals t !! sorted_pair n1 n2 = Some v12 ∧
    normals t !! sorted_pair n2 n0 = Some v20 ∧
    dot v01 (vsub (center_point t) (vdiv (vadd p0 p1) 2))
    = (- (2 * area t / 3))%R ∧
    dot v12 (vsub (center_point t) (vdiv (vadd p1 p2) 2))
    = (- (2 * area t / 3))%R ∧
    dot v20 (vsub (center_point t) (vdiv (vadd p2 p0) 2))
    = (- (2 * area t / 3))%R ∧
    (area t ≠ 0%R → vadd (vadd v01 v12) v20 = (0, 0)%R).
Proof.
  intros H.
  apply Triangle_init_inv in H
    as (m0 & m1 & m2 & Hns & Hb & Hc & Hn & Ha & _).
  injection Hns as <- <- <-.
  assert (He : edges b
               = [sorted_pair n0 n1; sorted_pair n1 n2; sorted_pair n2 n0])
    by by subst b.
  rewrite He, <- Hc in Hn. clear He Hb.
  assert (N01 : n0 ≠ n1)
    by (eapply compute_normal_distinct_ends; [exact Hn | set_solver]).
  assert (N12 : n1 ≠ n2)
    by (eapply compute_normal_distinct_ends; [exact Hn | set_solver]).
  assert (N20 : n2 ≠ n0)
    by (eapply compute_normal_distinct_ends; [exact Hn | set_solver]).
  assert (L0 : oget [(n0, p0); (n1, p1); (n2, p2)] n0 = Some p0)
    by (simpl; by rewrite decide_True).
  assert (L1 : oget [(n0, p0); (n1, p1); (n2, p2)] n1 = Some p1)
    by (simpl; rewrite decide_False by done; by rewrite decide_True).
  assert (L2 : oget [(n0, p0); (n1, p1); (n2, p2)] n2 = Some p2)
    by (simpl; rewrite !decide_False by done; by rewrite decide_True).
  destruct (stored_normal _ _ _ _ n0 n1 p0 p1 Hn) as (D01 & v01 & S01 & V01);
    [by left | done | done |].
  destruct (stored_normal _ _ _ _ n1 n2 p1 p2 Hn) as (D12 & v12 & S12 & V12);
    [by right; left | done | done |].
  destruct (stored_normal _ _ _ _ n2 n0 p2 p0 Hn) as (D20 & v20 & S20 & V20);
    [by right; right; left | done | done |].
  destruct (center_three n0 n1 n2 p0 p1 p2) as [C1 C2].
  rewrite <- Hc in C1, C2.
  rewrite compute_area_three in Ha. injection Ha as Ha.
  set (D := cross (vsub p1 p0) (vsub p2 p0)) in *.
  assert (E12 : cross (vsub p2 p1) (vsub p0 p1) = D)
    by (unfold D, cross, vsub; simpl; ring).
  assert (E20 : cross (vsub p0 p2) (vsub p1 p2) = D)
    by (unfold D, cross, vsub; simpl; ring).
  destruct (centroid_normal_either p0 p1 p2 (center_point t) v01)
    as [A01 B01]; [lra | lra | done | done |].
  destruct (centroid_normal_either p1 p2 p0 (center_point t) v12)
    as [A12 B12]; [lra | lra | done | done |].
  destruct (centroid_normal_either p2 p0 p1 (center_point t) v20)
    as [A20 B20]; [lra | lra | done | done |].
  rewrite E12 in A12, B12. rewrite E20 in A20, B20. fold D in A01, B01.
  exists v01, v12, v20. rewrite <- Ha.
  repeat (split; [first [done | lra] |]).
  intros Hnz.
  assert (HD : D ≠ 0%R).
  { intros HD. apply Hnz. rewrite HD, Rabs_R0. lra. }
  rewrite (B01 HD), (B12 HD), (B20 HD).
  destruct (Rgtb D 0); unfold vadd, vneg, vsub; simpl; f_equal; ring.
Qed.

Lemma triangle_normals_closed_witness :
  match square_triangle 0 [0; 1; 2] [(0, 1); (1, 2); (0, 2)] with
  | Triangle b t =>
      ∃ v, normals t !! (0, 1) = Some v ∧
           dot v (vsub (center_point t) (vdiv (vadd (0, 0)%R (1, 0)%R) 2))
           = (- (2 * area t / 3))%R
  | Line _ => False
  end.
Proof.
  destruct (triangle_normals_closed 0 0 1 2 (0, 0)%R (1, 0)%R (1, 1)%R _ _
              square_triangle0_init)
    as (v01 & _ & _ & S01 & _ & _ & D01 & _).
  exists v01. split; [exact S01 | exact D01].
Defined.

(** ** The solver conserves the oil *)

Lemma sum_R_Permutation (xs ys : list R) : xs ≡ₚ ys → sum_R xs = sum_R ys.
Proof.
  induction 1 as [| x xs ys _ IH | x y xs | xs ys zs _ IH1 _ IH2]; simpl;
    [done | rewrite IH; done | lra | congruence].
Qed.

Lemma sum_R_cons (x : R) (xs : list R) : sum_R (x :: xs) = (x + sum_R xs)%R.
Proof. done. Qed.

Lemma sum_R_opp {A : Type} (f : A → R) (l : list A) :
  sum_R ((fun x => (- f x)%R) <$> l) = (- sum_R (f <$> l))%R.
Proof.
  induction l as [| x l IH]; [simpl; lra |].
  rewrite !fmap_cons, !sum_R_cons, IH. lra.
Qed.

Lemma sum_R_omap_default {A : Type} (f : A → option R) (l : list A) :
  sum_R (omap f l) = sum_R ((fun x => default 0%R (f x)) <$> l).
Proof.
  induction l as [| x l IH]; [done |].
  rewrite fmap_cons, sum_R_cons, <- IH. cbn [omap list_omap].
  destruct (f x); simpl; [done | lra].
Qed.

Lemma sum_R_ext {A : Type} (f g : A → R) (l : list A) :
  (∀ x, x ∈ l → f x = g x) → sum_R (f <$> l) = sum_R (g <$> l).
Proof.
  induction l as [| x l IH]; intros H; [done |].
  rewrite !fmap_cons, !sum_R_cons, (H x) by left. rewrite IH; [done |].
  intros y Hy. apply H. by right.
Qed.

(** A map that sends a duplicate-free list into itself and undoes itself
    permutes the list. *)
Lemma involution_Permutation {A : Type} (f : A → A) (l : list A) :
  NoDup l → (∀ x, x ∈ l → f x ∈ l) → (∀ x, x ∈ l → f (f x) = x) →
  f <$> l ≡ₚ l.
Proof.
  intros Hnd Hin Hinv. apply NoDup_Permutation; [| done |].
  - apply NoDup_fmap_2_strong; [| done].
    intros x y Hx Hy Hxy. rewrite <- (Hinv x Hx), <- (Hinv y Hy).
    by rewrite Hxy.
  - intros x. rewrite list_elem_of_fmap. split.
    + intros (y & -> & Hy). by apply Hin.
    + intros Hx. exists (f x). split; [by rewrite Hinv | by apply Hin].
Qed.

Lemma sum_R_antisymmetric {A : Type} (f : A → A) (g : A → R) (l : list A) :
  NoDup l → (∀ x, x ∈ l → f x ∈ l) → (∀ x, x ∈ l → f (f x) = x) →
  (∀ x, x ∈ l → g (f x) = (- g x)%R) →
  sum_R (g <$> l) = 0%R.
Proof.
  intros Hnd Hin Hinv Hanti.
  assert (H : sum_R (g <$> l) = (- sum_R (g <$> l))%R).
  { transitivity (sum_R (g <$> (f <$> l))).
    - apply sum_R_Permutation, fmap_Permutation. symmetry.
      by apply involution_Permutation.
    - rewrite <- list_fmap_compose, <- (sum_R_opp g l).
      apply sum_R_ext. intros x Hx. simpl. by apply Hanti. }
  lra.
Qed.

Lemma oil_velocity_vneg (outer_normal mean_flow : vec) (c_here c_there : R) :
  oil_velocity (vneg outer_normal) mean_flow c_there c_here
  = (- oil_velocity outer_normal mean_flow c_here c_there)%R.
Proof.
  unfold oil_velocity. rewrite (dot_comm_vneg mean_flow outer_normal).
  set (v := dot mean_flow outer_normal).
  destruct (Rtotal_order v 0) as [Hneg | [Hzero | Hpos]].
  - rewrite (Rgtb_true (- v) 0) by lra. rewrite (Rgtb_false v 0) by lra. ring.
  - rewrite (Rgtb_false (- v) 0) by lra. rewrite (Rgtb_false v 0) by lra.
    rewrite Hzero. ring.
  - rewrite (Rgtb_false (- v) 0) by lra. rewrite (Rgtb_true v 0) by lra. ring.
Qed.

Lemma half_edges_elem (cs : list Cell) (x : nat * Edge) :
  x ∈ half_edges cs
  ↔ ∃ b t, Triangle b t ∈ cs ∧ x.1 = cell_id b ∧ x.2 ∈ edges b.
Proof.
  unfold half_edges. rewrite list_elem_of_In, in_flat_map. split.
  - intros (c & Hc & Hx). destruct c as [b t | b]; [| done].
    apply list_elem_of_In, list_elem_of_fmap in Hx as (e & -> & He).
    exists b, t. split; [by apply list_elem_of_In | done].
  - intros (b & t & Hc & H1 & H2). exists (Triangle b t).
    split; [by apply list_elem_of_In |].
    apply list_elem_of_In, list_elem_of_fmap. exists x.2.
    split; [| done]. destruct x; simpl in *; by subst.
Qed.

Lemma half_edges_NoDup (cs : list Cell) :
  ids_ok cs → (∀ b t, Triangle b t ∈ cs → NoDup (edges b)) →
  NoDup (half_edges cs).
Proof.
  intros Hids Hnd.
  assert (Hgen : ∀ pre l, cs = pre ++ l →
            NoDup (half_edges l) ∧
            ∀ x, x ∈ half_edges l → length pre ≤ x.1).
  { intros pre l. revert pre.
    induction l as [| c l IH]; intros pre Hcs.
    - split; [constructor |]. intros x Hx. by apply elem_of_nil in Hx.
    - destruct (IH (pre ++ [c])) as [IHnd IHge];
        [by rewrite <- app_assoc |].
      rewrite length_app in IHge. simpl in IHge.
      destruct c as [b t | b]; simpl.
      + assert (Hid : cell_id b = length pre).
        { apply (Hids (length pre) (Triangle b t)).
          rewrite Hcs. by rewrite list_lookup_middle. }
        split.
        * apply NoDup_app. split; [| split; [| done]].
          -- apply NoDup_fmap_2; [by intros ? ? [=] |].
             apply (Hnd b t). rewrite Hcs. apply elem_of_app. right. left.
          -- intros x (e & -> & He)%list_elem_of_fmap Hx.
             apply IHge in Hx. simpl in Hx. lia.
        * intros x [(e & -> & He)%list_elem_of_fmap | Hx]%elem_of_app.
          -- simpl. lia.
          -- apply IHge in Hx. lia.
      + split; [done |]. intros x Hx. apply IHge in Hx. lia. }
  by destruct (Hgen [] cs eq_refl).
Qed.

Lemma ids_ok_position (cs : list Cell) (c : Cell) :
  ids_ok cs → c ∈ cs → cs !! cell_id (base c) = Some c.
Proof.
  intros Hids Hc. apply list_elem_of_lookup in Hc as [i Hi].
  by rewrite (Hids i c Hi).
Qed.

Lemma other_side_paired (cs : list Cell) (x : nat * Edge) :
  ids_ok cs → flux_paired cs → x ∈ half_edges cs →
  other_side cs x ∈ half_edges cs ∧
  other_side cs (other_side cs x) = x ∧
  half_edge_flux cs (other_side cs x) = (- half_edge_flux cs x)%R.
Proof.
  intros Hids Hp Hx. destruct x as [i e].
  apply half_edges_elem in Hx as (b & t & Hc & Hi & He). simpl in Hi, He.
  subst i. pose proof (ids_ok_position cs _ Hids Hc) as Hpos. simpl in Hpos.
  destruct (Hp _ _ _ Hpos) as (_ & _ & Hpair).
  assert (Hself : half_edge_flux cs (cell_id b, e) = 0%R →
            (cell_id b, e) ∈ half_edges cs ∧
            half_edge_flux cs (cell_id b, e)
            = (- half_edge_flux cs (cell_id b, e))%R).
  { intros H0. split; [| lra]. apply half_edges_elem. by exists b, t. }
  unfold other_side at 1 3 4. cbn [fst snd]. rewrite Hpos.
  destruct (neighbour_ids b !! e) as [[n |] |] eqn:En.
  - destruct (cs !! n) as [[bn tn | bn] |] eqn:Ecn.
    + destruct (Hpair e n bn tn He En Ecn)
        as (Hen & Hback & v & w & Hv & Hvn & Hw & Hwn).
      assert (Hidn : cell_id bn = n) by apply (Hids n _ Ecn).
      split; [| split].
      * apply half_edges_elem. exists bn, tn.
        split; [by eapply list_elem_of_lookup_2 | done].
      * unfold other_side. cbn [fst snd]. by rewrite Ecn, Hback, Hpos.
      * unfold half_edge_flux, neighbour_triangle. cbn [fst snd].
        rewrite Ecn, Hpos, Hback, En, Hpos, Ecn. simpl.
        rewrite Hv, Hvn, Hw, Hwn. simpl. apply oil_velocity_vneg.
    + split; [| split]; [| by unfold other_side; cbn [fst snd];
                             rewrite Hpos, En, Ecn |];
        apply Hself; unfold half_edge_flux, neighbour_triangle;
        cbn [fst snd]; by rewrite Hpos, En, Ecn.
    + split; [| split]; [| by unfold other_side; cbn [fst snd];
                             rewrite Hpos, En, Ecn |];
        apply Hself; unfold half_edge_flux, neighbour_triangle;
        cbn [fst snd]; by rewrite Hpos, En, Ecn.
  - split; [| split]; [| by unfold other_side; cbn [fst snd];
                           rewrite Hpos, En |];
      apply Hself; unfold half_edge_flux, neighbour_triangle;
      cbn [fst snd]; by rewrite Hpos, En.
  - split; [| split]; [| by unfold other_side; cbn [fst snd];
                           rewrite Hpos, En |];
      apply Hself; unfold half_edge_flux, neighbour_triangle;
      cbn [fst snd]; by rewrite Hpos, En.
Qed.

(** The fluxes that a step adds up over all Triangles cancel. *)
Lemma half_edge_fluxes_cancel (cs : list Cell) :
  ids_ok cs → flux_paired cs →
  sum_R (half_edge_flux cs <$> half_edges cs) = 0%R.
Proof.
  intros Hids Hp.
  apply (sum_R_antisymmetric (other_side cs)).
  - apply half_edges_NoDup; [done |]. intros b t Hc.
    apply list_elem_of_lookup in Hc as [i Hi]. by destruct (Hp _ _ _ Hi).
  - intros x Hx. by apply other_side_paired.
  - intros x Hx. by apply other_side_paired.
  - intros x Hx. by apply other_side_paired.
Qed.

Lemma cell_fluxes_half_edges (cs : list Cell) (b : CellBase)
    (t : TriangleData) :
  cs !! cell_id b = Some (Triangle b t) →
  sum_R (spec_edge_fluxes cs b t)
  = sum_R (half_edge_flux cs <$> ((fun e => (cell_id b, e)) <$> edges b)).
Proof.
  intros Hpos. unfold spec_edge_fluxes.
  rewrite sum_R_omap_default, <- list_fmap_compose.
  apply sum_R_ext. intros e He. unfold half_edge_flux. simpl.
  by rewrite Hpos.
Qed.

Lemma total_mass_cons_triangle (b : CellBase) (t : TriangleData)
    (l : list Cell) :
  total_mass (Triangle b t :: l)
  = (concentration t * area t + total_mass l)%R.
Proof. done. Qed.

Lemma total_mass_cons_line (b : CellBase) (l : list Cell) :
  total_mass (Line b :: l) = total_mass l.
Proof. done. Qed.

Lemma total_mass_committed (delta_t : R) (cs l : list Cell) :
  (∀ c, c ∈ l → cs !! cell_id (base c) = Some c) →
  (∀ b t, Triangle b t ∈ l → area t ≠ 0%R) →
  total_mass
    ((fun c => match c with
               | Triangle b t =>
                   Triangle b (set_concentration t
                                 (spec_new_concentration delta_t cs b t))
               | Line b => Line b
               end) <$> l)
  = (total_mass l
     - delta_t * sum_R (half_edge_flux cs <$> half_edges l))%R.
Proof.
  induction l as [| c l IH]; intros Hpos Harea.
  - unfold total_mass. simpl. lra.
  - rewrite fmap_cons.
    assert (IH' := IH (fun c' Hc' => Hpos c' (list_elem_of_further _ _ _ Hc'))
                      (fun b t Hc' => Harea b t (list_elem_of_further _ _ _ Hc'))).
    destruct c as [b t | b].
    + change (half_edges (Triangle b t :: l))
        with (((fun e => (cell_id b, e)) <$> edges b) ++ half_edges l).
      rewrite fmap_app, sum_R_app.
      rewrite <- (cell_fluxes_half_edges cs b t)
        by (apply (Hpos (Triangle b t)); left).
      rewrite !total_mass_cons_triangle, IH'.
      unfold spec_new_concentration. cbn [concentration area
        set_concentration].
      assert (Ha : area t ≠ 0%R) by (apply (Harea b t); left).
      field. done.
    + by rewrite !total_mass_cons_line.
Qed.

Lemma committed_mass (delta_t : R) (cs : list Cell) :
  ids_ok cs → flux_paired cs →
  total_mass (committed delta_t cs) = total_mass cs.
Proof.
  intros Hids Hp. unfold committed. rewrite total_mass_committed.
  - rewrite half_edge_fluxes_cancel by done. lra.
  - intros c Hc. by apply ids_ok_position.
  - intros b t Hc. apply list_elem_of_lookup in Hc as [i Hi].
    by destruct (Hp _ _ _ Hi) as (_ & Ha & _).
Qed.

Lemma same_frame_triangle_r (c : Cell) (b' : CellBase) (t' : TriangleData) :
  same_frame c (Triangle b' t') →
  ∃ t, c = Triangle b' t ∧ center_point t' = center_point t ∧
       area t' = area t ∧ normals t' = normals t ∧
       mean_flow t' = mean_flow t.
Proof.
  destruct c as [b t | b]; simpl; [| done].
  intros (-> & ? & ? & ? & ?). by exists t.
Qed.

Lemma flux_paired_frame (cs cs' : list Cell) :
  Forall2 same_frame cs cs' → flux_paired cs → flux_paired cs'.
Proof.
  intros Hf Hp i b t' Hi.
  destruct (Forall2_lookup_r _ _ _ _ _ Hf Hi) as (c & Hc & Hcc).
  apply same_frame_triangle_r in Hcc as (t & -> & _ & Ha & Hn & Hm).
  destruct (Hp _ _ _ Hc) as (Hnd & Har & Hpair).
  split; [done |]. split; [by rewrite Ha |].
  intros e n bn tn' He En Hcn.
  destruct (Forall2_lookup_r _ _ _ _ _ Hf Hcn) as (cn & Hcn0 & Hcc).
  apply same_frame_triangle_r in Hcc as (tn & -> & _ & _ & Hnn & Hmn).
  destruct (Hpair e n bn tn He En Hcn0) as (Hen & Hback & v & w & H).
  split; [done |]. split; [done |]. exists v, w.
  by rewrite Hn, Hnn, Hm, Hmn.
Qed.

Lemma region_total_all (borders : (R * R) * (R * R)) (cs : list Cell) :
  (∀ b t, Triangle b t ∈ cs → in_region borders (center_point t)) →
  spec_region_total borders cs = total_mass cs.
Proof.
  intros H. unfold spec_region_total, total_mass. f_equal. f_equal.
  induction cs as [| c cs IH]; [done |].
  assert (IH' := IH (fun b t Hc => H b t (list_elem_of_further _ _ _ Hc))).
  destruct c as [b t | b]; cbn [triangles omap list_omap]; [| exact IH'].
  fold (triangles cs). rewrite filter_cons_True by (apply (H b t); left).
  by rewrite IH'.
Qed.

Lemma region_cover_frame (borders : (R * R) * (R * R)) (cs cs' : list Cell) :
  Forall2 same_frame cs cs' →
  (∀ b t, Triangle b t ∈ cs → in_region borders (center_point t)) →
  ∀ b t, Triangle b t ∈ cs' → in_region borders (center_point t).
Proof.
  intros Hf H b t' Hc. apply list_elem_of_lookup in Hc as [i Hi].
  destruct (Forall2_lookup_r _ _ _ _ _ Hf Hi) as (c & Hc & Hcc).
  apply same_frame_triangle_r in Hcc as (t & -> & -> & _).
  apply (H b t). by eapply list_elem_of_lookup_2.
Qed.

Lemma solver_loop_conserves (n : nat) (delta_t : R) :
  ∀ s s' : Simulation,
    ids_ok (cells (sim_mesh s)) → flux_paired (cells (sim_mesh s)) →
    solver_loop n delta_t s = Ok s' →
    total_mass (cells (sim_mesh s')) = total_mass (cells (sim_mesh s)) ∧
    ((∀ b t, Triangle b t ∈ cells (sim_mesh s) →
             in_region (borders s) (center_point t)) →
     oil_in_fishing_grounds s'
     = oil_in_fishing_grounds s
       ++ replicate n (total_mass (cells (sim_mesh s)))).
Proof.
  induction n as [| n IH]; intros s s' Hids Hp H; simpl in H.
  - inversion H; subst. split; [done |]. intros _. by rewrite app_nil_r.
  - destruct (solver_step delta_t s) as [s1 |] eqn:E1; [| done]. simpl in H.
    apply solver_step_inv in E1 as (tmp & cs1 & Hst & Hc & ->).
    pose proof (commit_frame _ _ _ Hc) as Hf.
    pose proof (commit_spec _ _ _ _ Hids Hst Hc) as Hcs1.
    assert (Hm : total_mass cs1 = total_mass (cells (sim_mesh s)))
      by (rewrite Hcs1; by apply committed_mass).
    apply IH in H as [Hmass Hser]; simpl.
    + simpl in Hmass, Hser. split; [by rewrite Hmass |].
      intros Hcov. rewrite Hser by by eapply region_cover_frame.
      rewrite total_oil_spec, region_total_all
        by by eapply region_cover_frame.
      rewrite Hm, <- app_assoc. done.
    + by eapply ids_ok_frame.
    + by eapply flux_paired_frame.
Qed.

(** [solver] conserves the oil when both sides of every edge between two
    Triangles see the same edge ([flux_paired]) and ids are positions: what
    a step takes out of a Triangle across an edge is what it puts into the
    Triangle on the other side, so the sum of [concentration * area] over
    the Triangles is after a run what it was before.  When in addition the
    fishing grounds contain the centre of every Triangle, every value that
    the run appends to the series is that sum. *)
Theorem solver_conserves_oil (n : nat) (delta_t : R) (s s' : Simulation) :
  ids_ok (cells (sim_mesh s)) → flux_paired (cells (sim_mesh s)) →
  solver n delta_t s = Ok s' →
  total_mass (cells (sim_mesh s')) = total_mass (cells (sim_mesh s)) ∧
  ((∀ b t, Triangle b t ∈ cells (sim_mesh s) →
           in_region (borders s) (center_point t)) →
   oil_in_fishing_grounds s'
   = oil_in_fishing_grounds s
     ++ replicate n (total_mass (cells (sim_mesh s)))).
Proof.
  intros Hids Hp H. unfold solver in H.
  by apply solver_loop_conserves in H.
Qed.

(** *** The square mesh with its boundary first *)

Lemma square_triangle_012_init (cid : nat) :
  Triangle_init cid [0; 1; 2] (square_coords [0; 1; 2])
  = Ok (square_triangle cid [0; 1; 2] [(0, 1); (1, 2); (0, 2)]).
Proof.
  unfold Triangle_init. cbn [Triangle_define_edges rbind].
  change (sorted_pair 0 1) with (0, 1). change (sorted_pair 1 2) with (1, 2).
  change (sorted_pair 2 0) with (0, 2).
  unfold compute_normal. cbn [foldM].
  do 3 edge_normal_step. reflexivity.
Qed.

Lemma square_triangle_023_init (cid : nat) :
  Triangle_init cid [0; 2; 3] (square_coords [0; 2; 3])
  = Ok (square_triangle cid [0; 2; 3] [(0, 2); (2, 3); (0, 3)]).
Proof.
  unfold Triangle_init. cbn [Triangle_define_edges rbind].
  change (sorted_pair 0 2) with (0, 2). change (sorted_pair 2 3) with (2, 3).
  change (sorted_pair 3 0) with (0, 3).
  unfold compute_normal. cbn [foldM].
  do 3 edge_normal_step. reflexivity.
Qed.

Lemma bordered_create_cells :
  create_cells (read_mesh square_points bordered_blocks Mesh_init)
  = Ok bordered_created.
Proof.
  unfold create_cells, read_mesh, Mesh_init, bordered_created.
  cbn [points cells mesh_cell_blocks mesh_edges].
  unfold bordered_blocks. cbn [foldM block_type block_data].
  rewrite (decide_True (P := "vertex" = "vertex")) by done. cbn [rbind].
  rewrite (decide_False (P := "line" = "vertex")) by done.
  change (create_block_cells CellFactory_init square_points "line" []
            [[0; 1]; [1; 2]; [2; 3]; [3; 0]])
    with (Ok [square_line 0 [0; 1] (0, 1); square_line 1 [1; 2] (1, 2);
              square_line 2 [2; 3] (2, 3); square_line 3 [3; 0] (0, 3)]).
  cbn [rbind]. rewrite (decide_False (P := "triangle" = "vertex")) by done.
  unfold create_block_cells. cbn [foldM].
  change (cell_coords square_points [0; 1; 2]) with (Ok (square_coords [0; 1; 2])).
  change (cell_coords square_points [0; 2; 3]) with (Ok (square_coords [0; 2; 3])).
  cbn [rbind]. unfold CellFactory_call at 1. cbn [rec_type rec_id rec_nodes rec_coords].
  change (CellFactory_init !! "triangle") with (Some Triangle_init).
  cbn [of_option rbind length]. rewrite square_triangle_012_init. cbn [rbind app].
  unfold CellFactory_call at 1. cbn [rec_type rec_id rec_nodes rec_coords].
  change (CellFactory_init !! "triangle") with (Some Triangle_init).
  cbn [of_option rbind length]. rewrite square_triangle_023_init. cbn [rbind app].
  reflexivity.
Qed.

Lemma bordered_initial_conditions :
  initial_conditions bordered_sim = Ok bordered_initialized.
Proof.
  unfold bordered_initialized.
  destruct (initial_conditions_total bordered_sim) as [s' ->]; [| done].
  vm_compute. reflexivity.
Qed.

Lemma bordered_ids_ok : ids_ok (cells (sim_mesh bordered_initialized)).
Proof. apply ids_ok_seq. vm_compute. reflexivity. Qed.

Lemma bordered_ready :
  solver_ready (cells (sim_mesh bordered_initialized)) = true.
Proof. vm_compute. reflexivity. Qed.

Lemma bordered_solver (n : nat) :
  solver n 0.01%R bordered_initialized = Ok (bordered_after n).
Proof.
  unfold bordered_after.
  destruct (solver_total n 0.01%R bordered_initialized bordered_ids_ok
              bordered_ready) as [s' ->].
  done.
Qed.

Lemma bordered_lines (k : nat) :
  k < 4 → ∃ b, cells (sim_mesh bordered_sim) !! k = Some (Line b).
Proof.
  intros Hk. destruct k as [| [| [| [| k]]]]; [| | | | lia];
    eexists; reflexivity.
Qed.

Lemma bordered_cell4 :
  ∃ b t,
    cells (sim_mesh bordered_sim) !! 4 = Some (Triangle b t) ∧
    edges b = [(0, 1); (1, 2); (0, 2)] ∧
    neighbour_ids b !! (0, 1) = Some (NbId 0) ∧
    neighbour_ids b !! (1, 2) = Some (NbId 1) ∧
    neighbour_ids b !! (0, 2) = Some (NbId 5) ∧
    center_point t = compute_center_point (square_coords [0; 1; 2]) ∧
    normals t !! (0, 2)
    = Some (outward_normal (0, 0)%R (1, 1)%R
              (compute_center_point (square_coords [0; 1; 2]))) ∧
    compute_area (square_coords [0; 1; 2]) = Ok (area t).
Proof.
  eexists _, _. split; [reflexivity |]. split; [reflexivity |].
  split; [vm_compute; reflexivity |]. split; [vm_compute; reflexivity |].
  split; [vm_compute; reflexivity |]. split; [reflexivity |].
  split; [reflexivity |].
  change (square_coords [0; 1; 2])
    with [(0, (0, 0)%R); (1, (1, 0)%R); (2, (1, 1)%R)].
  cbn [area]. by rewrite compute_area_three.
Qed.

Lemma bordered_cell5 :
  ∃ b t,
    cells (sim_mesh bordered_sim) !! 5 = Some (Triangle b t) ∧
    edges b = [(0, 2); (2, 3); (0, 3)] ∧
    neighbour_ids b !! (0, 2) = Some (NbId 4) ∧
    neighbour_ids b !! (2, 3) = Some (NbId 2) ∧
    neighbour_ids b !! (0, 3) = Some (NbId 3) ∧
    center_point t = compute_center_point (square_coords [0; 2; 3]) ∧
    normals t !! (0, 2)
    = Some (outward_normal (0, 0)%R (1, 1)%R
              (compute_center_point (square_coords [0; 2; 3]))) ∧
    compute_area (square_coords [0; 2; 3]) = Ok (area t).
Proof.
  eexists _, _. split; [reflexivity |]. split; [reflexivity |].
  split; [vm_compute; reflexivity |]. split; [vm_compute; reflexivity |].
  split; [vm_compute; reflexivity |]. split; [reflexivity |].
  split; [reflexivity |].
  change (square_coords [0; 2; 3])
    with [(0, (0, 0)%R); (2, (1, 1)%R); (3, (0, 1)%R)].
  cbn [area]. by rewrite compute_area_three.
Qed.

Lemma bordered_normal4 :
  outward_normal (0, 0)%R (1, 1)%R
    (compute_center_point (square_coords [0; 1; 2])) = (-1, 1)%R.
Proof.
  change (square_coords [0; 1; 2])
    with [(0, (0, 0)%R); (1, (1, 0)%R); (2, (1, 1)%R)].
  destruct (center_three 0 1 2 (0, 0)%R (1, 0)%R (1, 1)%R) as [C1 C2].
  simpl in C1, C2.
  rewrite (centroid_normal (0, 0)%R (1, 1)%R (1, 0)%R); simpl; try lra.
  - unfold cross, vsub. simpl. rewrite Rgtb_false by lra.
    f_equal; lra.
  - intros H. inversion H. lra.
Qed.

Lemma bordered_normal5 :
  outward_normal (0, 0)%R (1, 1)%R
    (compute_center_point (square_coords [0; 2; 3])) = vneg (-1, 1)%R.
Proof.
  change (square_coords [0; 2; 3])
    with [(0, (0, 0)%R); (2, (1, 1)%R); (3, (0, 1)%R)].
  destruct (center_three 0 2 3 (0, 0)%R (1, 1)%R (0, 1)%R) as [C1 C2].
  simpl in C1, C2.
  rewrite (centroid_normal (0, 0)%R (1, 1)%R (0, 1)%R); simpl; try lra.
  - unfold cross, vsub. simpl. rewrite Rgtb_true by lra.
    unfold vneg. simpl. f_equal; lra.
  - intros H. inversion H. lra.
Qed.

(** Four lines and then two Triangles that share the edge (0,2), with
    opposite normals for it: after [initial_conditions] the two sides of
    that edge are paired. *)
Lemma paired_after_initial_conditions (s s' : Simulation)
    (b4 b5 : CellBase) (t4 t5 : TriangleData) (v : vec) :
  initial_conditions s = Ok s' →
  length (cells (sim_mesh s)) = 6 →
  (∀ k, k < 4 → ∃ b, cells (sim_mesh s) !! k = Some (Line b)) →
  cells (sim_mesh s) !! 4 = Some (Triangle b4 t4) →
  cells (sim_mesh s) !! 5 = Some (Triangle b5 t5) →
  edges b4 = [(0, 1); (1, 2); (0, 2)] →
  edges b5 = [(0, 2); (2, 3); (0, 3)] →
  neighbour_ids b4 !! (0, 1) = Some (NbId 0) →
  neighbour_ids b4 !! (1, 2) = Some (NbId 1) →
  neighbour_ids b4 !! (0, 2) = Some (NbId 5) →
  neighbour_ids b5 !! (0, 2) = Some (NbId 4) →
  neighbour_ids b5 !! (2, 3) = Some (NbId 2) →
  neighbour_ids b5 !! (0, 3) = Some (NbId 3) →
  normals t4 !! (0, 2) = Some v →
  normals t5 !! (0, 2) = Some (vneg v) →
  area t4 ≠ 0%R → area t5 ≠ 0%R →
  flux_paired (cells (sim_mesh s')).
Proof.
  intros Hinit Hlen Hlines H4 H5 E4 E5 N401 N412 N402 N502 N523 N503
         Nm4 Nm5 A4 A5.
  pose proof (initial_conditions_cells_frame _ _ Hinit) as Hf.
  destruct (initial_conditions_triangle s s' 4 b4 t4 Hinit H4)
    as (b4' & t4' & H4' & _ & _ & _ & _ & M4).
  destruct (initial_conditions_triangle s s' 5 b5 t5 Hinit H5)
    as (b5' & t5' & H5' & _ & _ & _ & _ & M5).
  remember (cells (sim_mesh s)) as cs0 eqn:Ecs0.
  remember (cells (sim_mesh s')) as cs1 eqn:Ecs1.
  clear Hinit Ecs0 Ecs1.
  assert (Hlen1 : length cs1 = 6) by by rewrite <- (Forall2_length _ _ _ Hf).
  assert (Hline : ∀ k b t, k < 4 → cs1 !! k ≠ Some (Triangle b t)).
  { intros k b t Hk Hc. destruct (Hlines k Hk) as [bl Hb].
    destruct (Forall2_lookup_l _ _ _ _ _ Hf Hb) as (c' & Hc' & Hcc).
    rewrite Hc in Hc'. injection Hc' as <-. done. }
  destruct (Forall2_lookup_l _ _ _ _ _ Hf H4) as (c4' & Hc4' & F4).
  destruct (Forall2_lookup_l _ _ _ _ _ Hf H5) as (c5' & Hc5' & F5).
  rewrite H4' in Hc4'. injection Hc4' as <-.
  rewrite H5' in Hc5'. injection Hc5' as <-.
  destruct F4 as (_ & _ & E4' & _ & _ & A4' & Nm4' & _ & Nb4 & _).
  destruct F5 as (_ & _ & E5' & _ & _ & A5' & Nm5' & _ & Nb5 & _).
  destruct (M4 (0, 2)) as (vs4 & Hvs4 & Mf4);
    [rewrite E4; right; right; left |].
  destruct (M5 (0, 2)) as (vs5 & Hvs5 & Mf5); [rewrite E5; left |].
  rewrite N402 in Hvs4. rewrite N502 in Hvs5.
  unfold edge_vectors in Hvs4, Hvs5. rewrite H5 in Hvs4. rewrite H4 in Hvs5.
  injection Hvs4 as <-. injection Hvs5 as <-.
  rewrite np_mean_axis0_two in Mf4, Mf5.
  assert (Mf : mean_flow t5' !! (0, 2) = mean_flow t4' !! (0, 2)).
  { rewrite Mf4, Mf5. f_equal. f_equal; lra. }
  assert (In4 : ∀ e, e ∈ [(0, 1); (1, 2); (0, 2)] →
                     neighbour_ids b4' !! e
                     = Some (default NbEmpty (neighbour_ids b4 !! e))).
  { intros e He. rewrite Nb4, E4. by destruct (decide _). }
  assert (In5 : ∀ e, e ∈ [(0, 2); (2, 3); (0, 3)] →
                     neighbour_ids b5' !! e
                     = Some (default NbEmpty (neighbour_ids b5 !! e))).
  { intros e He. rewrite Nb5, E5. by destruct (decide _). }
  assert (Hnd4 : NoDup [(0, 1); (1, 2); (0, 2)])
    by (apply (bool_decide_unpack _); vm_compute; exact I).
  assert (Hnd5 : NoDup [(0, 2); (2, 3); (0, 3)])
    by (apply (bool_decide_unpack _); vm_compute; exact I).
  intros i b t Hi.
  assert (Hcase : i = 4 ∨ i = 5).
  { destruct (decide (i < 4)) as [Hlt | Hge]; [destruct (Hline i b t); done |].
    apply lookup_lt_Some in Hi. lia. }
  destruct Hcase as [-> | ->].
  - rewrite H4' in Hi. injection Hi as <- <-.
    split; [by rewrite E4', E4 |]. split; [by rewrite A4' |].
    intros e n bn tn He En Hcn. rewrite E4', E4 in He.
    rewrite In4 in En by done.
    rewrite !elem_of_cons, elem_of_nil in He.
    destruct He as [-> | [-> | [-> | []]]].
    + rewrite N401 in En. injection En as <-. destruct (Hline 0 bn tn); [lia | done].
    + rewrite N412 in En. injection En as <-.
      destruct (Hline 1 bn tn); [lia | done].
    + rewrite N402 in En. injection En as <-.
      rewrite H5' in Hcn. injection Hcn as <- <-.
      split; [rewrite E5', E5; left |].
      split; [rewrite In5, N502 by left; done |].
      exists v. eexists. rewrite Nm4', Nm5', Mf. done.
  - rewrite H5' in Hi. injection Hi as <- <-.
    split; [by rewrite E5', E5 |]. split; [by rewrite A5' |].
    intros e n bn tn He En Hcn. rewrite E5', E5 in He.
    rewrite In5 in En by done.
    rewrite !elem_of_cons, elem_of_nil in He.
    destruct He as [-> | [-> | [-> | []]]].
    + rewrite N502 in En. injection En as <-.
      rewrite H4' in Hcn. injection Hcn as <- <-.
      split; [rewrite E4', E4; right; right; left |].
      split; [rewrite In4, N402 by (right; right; left); done |].
      exists (vneg v). eexists. rewrite Nm4', Nm5', Mf, Nm4, Nm5, Mf4.
      split; [done |]. split; [| done].
      f_equal. unfold vneg. simpl. destruct v. simpl. f_equal; lra.
    + rewrite N523 in En. injection En as <-.
      destruct (Hline 2 bn tn); [lia | done].
    + rewrite N503 in En. injection En as <-.
      destruct (Hline 3 bn tn); [lia | done].
Qed.

Lemma bordered_paired : flux_paired (cells (sim_mesh bordered_initialized)).
Proof.
  destruct bordered_cell4
    as (b4 & t4 & H4 & E4 & N401 & N412 & N402 & _ & Nm4 & A4).
  destruct bordered_cell5
    as (b5 & t5 & H5 & E5 & N502 & N523 & N503 & _ & Nm5 & A5).
  assert (Ha4 : area t4 ≠ 0%R).
  { change (square_coords [0; 1; 2])
      with [(0, (0, 0)%R); (1, (1, 0)%R); (2, (1, 1)%R)] in A4.
    rewrite compute_area_three in A4. injection A4 as <-.
    unfold cross, vsub. simpl. rewrite Rabs_right; lra. }
  assert (Ha5 : area t5 ≠ 0%R).
  { change (square_coords [0; 2; 3])
      with [(0, (0, 0)%R); (2, (1, 1)%R); (3, (0, 1)%R)] in A5.
    rewrite compute_area_three in A5. injection A5 as <-.
    unfold cross, vsub. simpl. rewrite Rabs_right; lra. }
  exact (paired_after_initial_conditions bordered_sim bordered_initialized
           b4 b5 t4 t5 (-1, 1)%R bordered_initial_conditions eq_refl
           bordered_lines H4 H5 E4 E5 N401 N412 N402 N502 N523 N503
           (eq_trans Nm4 (f_equal Some bordered_normal4))
           (eq_trans Nm5 (f_equal Some bordered_normal5)) Ha4 Ha5).
Qed.

Lemma solver_conserves_oil_witness :
  total_mass (cells (sim_mesh (bordered_after 5)))
  = total_mass (cells (sim_mesh bordered_initialized)).
Proof.
  exact (proj1 (solver_conserves_oil 5 0.01%R bordered_initialized
                  (bordered_after 5) bordered_ids_ok bordered_paired
                  (bordered_solver 5))).
Defined.

(** ** config.load_config *)

Ltac cfg_step H :=
  match type of H with
  | cfg_bind ?r _ = _ =>
      let E := fresh "E" in
      destruct r eqn:E; cbn [cfg_bind] in H; [| try discriminate H]
  end.



Lemma config_error_if_raise (cond : bool) (e : config_exn) :
  config_error_if cond = CfgRaise e → e = ConfigError.
Proof. destruct cond; [by inversion 1 | done]. Qed.

Lemma required_raise (v : toml) (key : string) (e : config_exn) :
  required v key = CfgRaise e →
  e = ConfigError ∨ (is_table v = false ∧ e = CfgTypeError).
Proof.
  unfold required.
  destruct v as [| | | s | l | t |]; simpl;
    try (inversion 1; by right);
    intros H; left; by apply config_error_if_raise in H.
Qed.

Lemma required_table (t : list (string * toml)) (key : string) (u : unit) :
  required (TTable t) key = CfgOk u → is_Some (oget t key).
Proof.
  unfold required. simpl. destruct (oget t key); [eauto | done].
Qed.

Lemma py_getitem_raise (v : toml) (key : string) (e : config_exn) (u : unit) :
  required v key = CfgOk u → py_getitem v key = CfgRaise e →
  is_table v = false ∧ e = CfgTypeError.
Proof.
  destruct v as [| | | s | l | t |]; simpl; try (by inversion 2).
  intros Hr. apply required_table in Hr as [x ->]. done.
Qed.

Lemma py_getitem_ok (v : toml) (key : string) (x : toml) :
  py_getitem v key = CfgOk x → ∃ t, v = TTable t ∧ oget t key = Some x.
Proof.
  destruct v as [| | | s | l | t |]; simpl; try done.
  destruct (oget t key) as [y |] eqn:E; [| done].
  inversion 1; subst. eauto.
Qed.

Lemma py_get_raise (v : toml) (key : string) (e : config_exn) :
  py_get v key = CfgRaise e → is_table v = false ∧ e = CfgAttributeError.
Proof. destruct v; simpl; try done; by inversion 1. Qed.

Lemma py_float_raise (v : toml) (e : config_exn) :
  py_float v = CfgRaise e → float_overflows v = true ∧ e = CfgOverflowError.
Proof.
  unfold py_float. destruct (float_overflows v); [by inversion 1 | done].
Qed.


Lemma number_raise (v : toml) (e : config_exn) :
  number v = CfgRaise e → e = ConfigError.
Proof. unfold number. destruct (as_number v); [done | by inversion 1]. Qed.



Lemma cfg_mapM_row_pair (rows : list toml) :
  (∀ e, cfg_mapM row_pair rows = CfgRaise e → e = ConfigError) ∧
  (∀ ps, cfg_mapM row_pair rows = CfgOk ps →
         rows = (fun p => TArray [p.1; p.2]) <$> ps).
Proof.
  induction rows as [| row rows [IHr IHo]]; simpl.
  - split; [done |]. by inversion 1.
  - destruct row as [| | | | [| a [| b [| ? ?]]] | |]; simpl;
      try (split; [by inversion 1 | done]).
    destruct (cfg_mapM row_pair rows) as [ps' |]; simpl.
    + split; [done |]. inversion 1; subst. rewrite fmap_cons. simpl.
      f_equal. by apply IHo.
    + split; [| done]. intros e0 He. inversion He; subst. by apply IHr.
Qed.

Lemma check_rows_raise (borders : toml) (e : config_exn) :
  check_rows borders = CfgRaise e →
  e = ConfigError ∨
  (e = CfgTypeError ∧
   match borders with
   | TArray _ | TStr _ | TTable _ => False
   | _ => True
   end).
Proof.
  destruct borders as [| | | s | rows | t |]; simpl;
    try (inversion 1; by right).
  - destruct (String.eqb s ""); [done | inversion 1; by left].
  - intros H. left. by apply (cfg_mapM_row_pair rows).
  - destruct t; [done | inversion 1; by left].
Qed.

Lemma get_row_raise (borders : toml) (rows : list (toml * toml)) (i : nat)
    (e : config_exn) :
  i < 2 → check_rows borders = CfgOk rows →
  get_row borders rows i = CfgRaise e →
  match borders with
  | TArray rows => length rows < 2 ∧ e = CfgIndexError
  | TStr s => s = "" ∧ e = CfgIndexError
  | TTable t => t = [] ∧ e = CfgKeyError
  | _ => False
  end.
Proof.
  intros Hi Hc. unfold get_row.
  destruct (rows !! i) as [row |] eqn:Ei; [done |].
  apply lookup_ge_None in Ei. intros He.
  destruct borders as [| | | s | rows0 | t |]; simpl in Hc; try done.
  - destruct (String.eqb s "") eqn:Es; [| done].
    apply String.eqb_eq in Es. split; [done | by inversion He].
  - apply (cfg_mapM_row_pair rows0) in Hc. subst rows0.
    rewrite length_fmap. split; [lia | by inversion He].
  - destruct t; [| done]. split; [done | by inversion He].
Qed.

Lemma get_row_ok (borders : toml) (rows : list (toml * toml)) (i : nat)
    (row : toml * toml) :
  get_row borders rows i = CfgOk row → rows !! i = Some row.
Proof. unfold get_row. destruct (rows !! i); [by inversion 1 | done]. Qed.

(** Borders that pass the check of the rows and give two rows are an
    array that starts with two arrays of two entries. *)
Lemma checked_borders (borders : toml) (rows : list (toml * toml))
    (x y : toml * toml) :
  check_rows borders = CfgOk rows →
  get_row borders rows 0 = CfgOk x → get_row borders rows 1 = CfgOk y →
  ∃ rest, borders = TArray (TArray [x.1; x.2] :: TArray [y.1; y.2] :: rest).
Proof.
  intros Hc Hx Hy. apply get_row_ok in Hx, Hy.
  destruct rows as [| x' [| y' rows']]; try done.
  simpl in Hx, Hy. inversion Hx; inversion Hy; subst.
  destruct borders as [| | | s | rows0 | t |]; simpl in Hc; try done.
  - by destruct (String.eqb s "").
  - apply (cfg_mapM_row_pair rows0) in Hc. subst rows0. simpl. eauto.
  - by destruct t.
Qed.

Ltac cfg_closed H :=
  injection H as <-;
  repeat match goal with
         | E : config_error_if _ = CfgRaise _ |- _ =>
             apply config_error_if_raise in E
         | E : number _ = CfgRaise _ |- _ => apply number_raise in E
         | E : required _ _ = CfgRaise _ |- _ =>
             apply required_raise in E as [E | [? E]]
         | R : required ?v ?k = CfgOk _, E : py_getitem ?v ?k = CfgRaise _
           |- _ => apply (py_getitem_raise _ _ _ _ R) in E as [? E]
         end;
  first [congruence | by left | by right; left].

(** After the file has been parsed, [load_config] raises an exception
    other than [ConfigError] in five ways only.  [TypeError]: the value
    under "settings" or under "geometry" is not a table, or [borders] is a
    number, a boolean or a date.  [IndexError] ([KeyError] for a table):
    [borders] is an array with fewer than two rows, an empty string or an
    empty table, which pass the check of the rows and fail where the rows
    are read.  [AttributeError]: the value under "IO" is not a table.
    [OverflowError]: [tEnd] or one of the four border values is an
    integer that [float] cannot convert.  [run_config] catches
    [ConfigError] only. *)
Theorem load_config_other_exceptions (raw_data : RawConfig)
    (e : config_exn) :
  load_config raw_data = CfgRaise e → e ≠ ConfigError →
  ∃ settings geometry,
    raw_settings raw_data = Some settings ∧
    raw_geometry raw_data = Some geometry ∧
    ((is_table settings = false ∧ e = CfgTypeError) ∨
     (is_table geometry = false ∧ e = CfgTypeError) ∨
     (∃ borders,
        py_getitem geometry "borders" = CfgOk borders ∧
        match borders with
        | TArray rows => length rows < 2 ∧ e = CfgIndexError
        | TStr s => s = "" ∧ e = CfgIndexError
        | TTable t => t = [] ∧ e = CfgKeyError
        | TInt _ | TFloat _ | TBool _ | TDate => e = CfgTypeError
        end) ∨
     (∃ io, raw_IO raw_data = Some io ∧ is_table io = false ∧
            e = CfgAttributeError) ∨
     (∃ t_end a b c d rest v,
        py_getitem settings "tEnd" = CfgOk t_end ∧
        py_getitem geometry "borders"
        = CfgOk (TArray (TArray [a; b] :: TArray [c; d] :: rest)) ∧
        v ∈ [t_end; a; b; c; d] ∧ float_overflows v = true ∧
        e = CfgOverflowError)).
Proof.
  intros H Hne. unfold load_config in H.
  destruct (raw_settings raw_data) as [settings |]; [| congruence].
  destruct (raw_geometry raw_data) as [geometry |]; [| congruence].
  cbv zeta in H. exists settings, geometry.
  split; [done |]. split; [done |].
  do 9 (cfg_step H; [| cfg_closed H]).
  destruct (py_getitem geometry "borders") as [borders |] eqn:Eb;
    cbn [cfg_bind] in H; [| cfg_closed H].
  cfg_step H; [| cfg_closed H].
  destruct (check_rows borders) as [rows |] eqn:Er; cbn [cfg_bind] in H;
    [| injection H as <-; right; right; left; exists borders;
       split; [done |];
       apply check_rows_raise in Er as [-> | [-> Hb']]; [done |];
       by destruct borders].
  destruct (get_row borders rows 0) as [x |] eqn:Ex; cbn [cfg_bind] in H;
    [| injection H as <-; right; right; left; exists borders;
       split; [done |];
       pose proof (get_row_raise _ _ 0 _ ltac:(lia) Er Ex) as Hr;
       by destruct borders].
  destruct (get_row borders rows 1) as [y |] eqn:Ey; cbn [cfg_bind] in H;
    [| injection H as <-; right; right; left; exists borders;
       split; [done |];
       pose proof (get_row_raise _ _ 1 _ ltac:(lia) Er Ey) as Hr;
       by destruct borders].
  destruct (checked_borders _ _ _ _ Er Ex Ey) as [rest ->].
  do 5 (cfg_step H; [| cfg_closed H]).
  destruct (py_get _ "logName") as [log_name |] eqn:El; cbn [cfg_bind] in H.
  - cfg_step H; [| cfg_closed H].
    destruct (py_get _ "writeFrequency") as [wf |] eqn:Ew;
      cbn [cfg_bind] in H.
    + cfg_step H; [| cfg_closed H].
      right; right; right; right.
      exists a2, x.1, x.2, y.1, y.2, rest.
      repeat (match type of H with
              | cfg_bind (py_float ?v) _ = _ =>
                  let E := fresh "F" in
                  destruct (py_float v) eqn:E; cbn [cfg_bind] in H;
                  [| injection H as <-; apply py_float_raise in E as [? ->];
                     exists v; repeat split; try done;
                     rewrite !elem_of_cons; tauto]
              end).
      done.
    + injection H as <-. apply py_get_raise in Ew as [Ht ->].
      right; right; right; left.
      destruct (raw_IO raw_data) as [io |]; [| done]. by exists io.
  - injection H as <-. apply py_get_raise in El as [Ht ->].
    right; right; right; left.
    destruct (raw_IO raw_data) as [io |]; [| done]. by exists io.
Qed.

(** The steps of [load_config] on the settings and on the mesh name of
    [config_input]. *)
Ltac cfg_settings :=
  change (required _ "nSteps") with (@CfgOk unit tt);
  change (required _ "tEnd") with (@CfgOk unit tt);
  change (py_getitem _ "nSteps") with (@CfgOk toml (TInt 500));
  change (py_getitem _ "tEnd") with (@CfgOk toml (TFloat 0.5));
  cbn [cfg_bind as_int as_number Z.leb Z.compare config_error_if];
  rewrite (Rleb_false 0.5 0) by lra;
  cbn [cfg_bind config_error_if];
  change (required _ "meshName") with (@CfgOk unit tt);
  change (required _ "borders") with (@CfgOk unit tt);
  change (py_getitem _ "meshName") with (@CfgOk toml (TStr "bay.msh")).

Ltac cfg_borders :=
  change (py_getitem _ "borders")
    with (@CfgOk toml (TArray [TArray [TFloat 0; TFloat 0.45];
                               TArray [TFloat 0; TFloat 0.2]]));
  cbn [cfg_bind];
  change (("bay.msh" =? "")%string) with false;
  cbn [cfg_bind check_rows cfg_mapM row_pair get_row lookup list_lookup
       number as_number fst snd config_error_if];
  rewrite (Rleb_false 0.45 0) by lra; rewrite (Rleb_false 0.2 0) by lra;
  cbn [cfg_bind config_error_if orb].



(** [borders = []] raises [IndexError]. *)
Lemma config_no_borders_raises :
  load_config config_no_borders = CfgRaise CfgIndexError.
Proof.
  unfold load_config, config_no_borders, config_input.
  cbn [raw_settings raw_geometry raw_IO default].
  cfg_settings.
  change (py_getitem _ "borders") with (@CfgOk toml (TArray [])).
  cbn [cfg_bind].
  change (("bay.msh" =? "")%string) with false.
  reflexivity.
Qed.

(** [settings = 5] raises [TypeError] where "nSteps" is looked for. *)
Lemma config_settings_number_raises :
  load_config config_settings_number = CfgRaise CfgTypeError.
Proof. reflexivity. Qed.

(** [IO = 5] raises [AttributeError] where the log name is read. *)
Lemma config_io_number_raises :
  load_config config_io_number = CfgRaise CfgAttributeError.
Proof.
  unfold load_config, config_io_number, config_input.
  cbn [raw_settings raw_geometry raw_IO default].
  cfg_settings. cfg_borders.
  reflexivity.
Qed.

Lemma load_config_other_exceptions_witness :
  ∃ settings geometry,
    raw_settings config_io_number = Some settings ∧
    raw_geometry config_io_number = Some geometry ∧
    ((is_table settings = false ∧ CfgAttributeError = CfgTypeError) ∨
     (is_table geometry = false ∧ CfgAttributeError = CfgTypeError) ∨
     (∃ borders,
        py_getitem geometry "borders" = CfgOk borders ∧
        match borders with
        | TArray rows => length rows < 2 ∧ CfgAttributeError = CfgIndexError
        | TStr s => s = "" ∧ CfgAttributeError = CfgIndexError
        | TTable t => t = [] ∧ CfgAttributeError = CfgKeyError
        | TInt _ | TFloat _ | TBool _ | TDate =>
            CfgAttributeError = CfgTypeError
        end) ∨
     (∃ io, raw_IO config_io_number = Some io ∧ is_table io = false ∧
            CfgAttributeError = CfgAttributeError) ∨
     (∃ t_end a b c d rest v,
        py_getitem settings "tEnd" = CfgOk t_end ∧
        py_getitem geometry "borders"
        = CfgOk (TArray (TArray [a; b] :: TArray [c; d] :: rest)) ∧
        v ∈ [t_end; a; b; c; d] ∧ float_overflows v = true ∧
        CfgAttributeError = CfgOverflowError)).
Proof.
  apply (load_config_other_exceptions config_io_number CfgAttributeError
           config_io_number_raises).
  discriminate.
Defined.

(** [tEnd = 2^1024] passes the checks and raises [OverflowError] where
    the result is built. *)
Lemma config_t_end_huge_raises :
  load_config config_t_end_huge = CfgRaise CfgOverflowError.
Proof.
  unfold load_config, config_t_end_huge, config_input.
  cbn [raw_settings raw_geometry raw_IO default].
  change (required _ "nSteps") with (@CfgOk unit tt).
  change (required _ "tEnd") with (@CfgOk unit tt).
  change (py_getitem _ "nSteps") with (@CfgOk toml (TInt 500)).
  change (py_getitem _ "tEnd") with (@CfgOk toml (TInt (2 ^ 1024))).
  cbn [cfg_bind as_int as_number Z.leb Z.compare config_error_if].
  rewrite (Rleb_false (IZR (2 ^ 1024)) 0)
    by (apply Rlt_not_le, (IZR_lt 0); by apply Z.pow_pos_nonneg).
  cbn [cfg_bind config_error_if].
  change (required _ "meshName") with (@CfgOk unit tt).
  change (required _ "borders") with (@CfgOk unit tt).
  change (py_getitem _ "meshName") with (@CfgOk toml (TStr "bay.msh")).
  cfg_borders.
  change (py_get _ "logName") with (@CfgOk (option toml) (Some (TStr "log"))).
  change (py_get _ "writeFrequency")
    with (@CfgOk (option toml) (Some (TInt 20))).
  cbn [cfg_bind config_error_if default as_int Z.leb Z.compare].
  unfold py_float at 1.
  replace (float_overflows (TInt (2 ^ 1024))) with true
    by (symmetry; vm_compute; reflexivity).
  reflexivity.
Qed.

(** ** A whole run *)

Lemma solver_fails_in_stage (n : nat) (delta_t : R) (s : Simulation)
    (x : exn) :
  ids_ok (cells (sim_mesh s)) → solver n delta_t s = Raise x →
  stage delta_t (cells (sim_mesh s)) = Raise x.
Proof.
  intros Hids H.
  destruct (stage delta_t (cells (sim_mesh s))) as [tmp |] eqn:Es.
  - pose proof (stage_ready _ _ _ Es) as Hr.
    destruct (solver_total n delta_t s Hids Hr) as [s' Hs']. congruence.
  - destruct n as [| n]; [done |].
    unfold solver in H. cbn [solver_loop] in H.
    rewrite solver_step_set_number in H. unfold solver_step in H.
    rewrite Es in H. simpl in H. congruence.
Qed.

Lemma prepared_edge_flux (cs : list Cell) (b : CellBase) (t : TriangleData)
    (acc : list R) (e : Edge) :
  prepared cs → Triangle b t ∈ cs → e ∈ edges b →
  match neighbour_ids b !! e with
  | Some (NbId n) => ∃ acc', edge_flux cs b t acc e = Ok acc'
  | _ => edge_flux cs b t acc e = Raise TypeError
  end.
Proof.
  intros (Hids & Hv & Hk) Hc He. unfold edge_flux, neighbour_get.
  destruct (neighbour_ids b !! e) as [[n |] |] eqn:En; simpl; try done.
  destruct (Hv (Triangle b t) e n Hc En) as (c' & -> & _). simpl.
  destruct c' as [bn tn | bn]; [| eauto].
  destruct (Hk b t e Hc He) as [[v ->] [w ->]]. simpl. eauto.
Qed.

Lemma prepared_ready (cs : list Cell) :
  prepared cs →
  solver_ready cs = true
  ↔ ∀ b t e, Triangle b t ∈ cs → e ∈ edges b →
             ∃ n, neighbour_ids b !! e = Some (NbId n).
Proof.
  intros Hp. split.
  - intros Hr b t e Hc He.
    pose proof (solver_ready_spec cs b t e Hr Hc He) as Hre.
    unfold edge_ready in Hre.
    destruct (neighbour_ids b !! e) as [[n |] |]; [eauto | done | done].
  - intros H. unfold solver_ready. apply forallb_forall. intros c Hc.
    apply list_elem_of_In in Hc. destruct c as [b t | b]; [| done].
    apply forallb_forall. intros e He. apply list_elem_of_In in He.
    destruct (H b t e Hc He) as [n Hn].
    pose proof (prepared_edge_flux cs b t [] e Hp Hc He) as Hf.
    rewrite Hn in Hf. destruct Hf as [acc' Hf].
    by apply edge_flux_ready in Hf.
Qed.

Lemma prepared_stage_raises (delta_t : R) (cs : list Cell) (x : exn) :
  prepared cs → stage delta_t cs = Raise x → x = TypeError.
Proof.
  intros Hp H. apply foldM_Raise_elem in H as (tmp & c & Hc & H).
  destruct c as [b t | b]; [| done]. simpl in H.
  destruct (foldM (edge_flux cs b t) [] (edges b)) as [fl |] eqn:E; [done |].
  simpl in H. inversion H; subst.
  apply foldM_Raise_elem in E as (acc & e & He & E).
  pose proof (prepared_edge_flux cs b t acc e Hp Hc He) as Hf.
  destruct (neighbour_ids b !! e) as [[n |] |];
    [destruct Hf as [acc' Hf] | |]; congruence.
Qed.

Lemma create_block_cells_Forall (Q : Cell → Prop) (pts : list vec)
    (ty : string) (data : list (list nat)) :
  (∀ r c, CellFactory_call CellFactory_init r = Ok c → Q c) →
  ∀ cs cs' : list Cell,
    create_block_cells CellFactory_init pts ty cs data = Ok cs' →
    Forall Q cs → Forall Q cs'.
Proof.
  intros HQ. unfold create_block_cells.
  induction data as [| row data IH]; intros cs cs' H Hcs; simpl in H.
  - by inversion H; subst.
  - destruct (cell_coords pts row) as [cds |]; simpl in H; [| done].
    destruct (CellFactory_call _ _) as [c |] eqn:Ef; simpl in H; [| done].
    apply IH in H; [done |]. apply Forall_app. split; [done |].
    constructor; [by eapply HQ | constructor].
Qed.

Lemma create_cells_Forall (Q : Cell → Prop) (m m' : Mesh) :
  (∀ r c, CellFactory_call CellFactory_init r = Ok c → Q c) →
  create_cells m = Ok m' → Forall Q (cells m) → Forall Q (cells m').
Proof.
  intros HQ H. unfold create_cells in H.
  destruct (foldM _ _ _) as [cs |] eqn:E; simpl in H; [| done].
  inversion H; subst m'; clear H. simpl. revert E.
  generalize (cells m) as cs0. generalize (mesh_cell_blocks m) as blocks.
  induction blocks as [| blk blocks IH]; intros cs0 E Hcs; simpl in E.
  - by inversion E; subst.
  - destruct (decide (block_type blk = "vertex")); simpl in E.
    + by apply (IH cs0).
    + destruct (create_block_cells _ _ _ _ _) as [cs1 |] eqn:Eb;
        simpl in E; [| done].
      apply (IH cs1); [done |].
      by eapply create_block_cells_Forall.
Qed.

Lemma CellFactory_call_normals (r : CellRecord) (c : Cell) :
  CellFactory_call CellFactory_init r = Ok c →
  match c with
  | Triangle b t => ∀ e, is_Some (normals t !! e) ↔ e ∈ edges b
  | Line _ => True
  end.
Proof.
  intros H. destruct c as [b t | b]; [| done].
  apply CellFactory_call_cases in H as [[_ H] | [_ H]].
  - apply Triangle_init_inv in H as (n0 & n1 & n2 & _ & _ & _ & Hn & _).
    exact (compute_normal_keys _ _ _ _ Hn).
  - by apply Line_init_shape in H as (H & _).
Qed.

(** The mesh that [create_cells] makes from a file. *)
Lemma created_mesh (pts : list vec) (blocks : list CellBlock) (m : Mesh) :
  create_cells (read_mesh pts blocks Mesh_init) = Ok m →
  mesh_edges m = ∅ ∧ fresh_ids (cells m) ∧
  ∀ b t, Triangle b t ∈ cells m →
         ∀ e, is_Some (normals t !! e) ↔ e ∈ edges b.
Proof.
  intros H. split; [| split].
  - unfold create_cells in H. destruct (foldM _ _ _); simpl in H; [| done].
    by inversion H.
  - apply (create_cells_fresh (read_mesh pts blocks Mesh_init) m);
      [apply fresh_ids_nil | exact H].
  - intros b t Hc.
    pose proof (create_cells_Forall _ _ _ CellFactory_call_normals H
                  (Forall_nil_2 _)) as HF.
    rewrite Forall_forall in HF. by apply (HF (Triangle b t)).
Qed.

Lemma linked_neighbour_lookup (m : Mesh) (c : Cell) (e : Edge) :
  mesh_edges m = ∅ → fresh_ids (cells m) → c ∈ cells m →
  neighbour_ids (base (assigned_cell (mesh_edges (build_topology m)) c)) !! e
  = match (if decide (e ∈ edges (base c))
           then last_other (cell_id (base c)) (edge_cell_ids (cells m) e)
           else None) with
    | Some n => Some (NbId n)
    | None => None
    end.
Proof.
  intros Hempty [Hids Hnb] Hc.
  rewrite assigned_cell_neighbours, neighbours_after_lookup.
  rewrite build_topology_lookup, Hempty, lookup_total_empty.
  by rewrite (Hnb c Hc), lookup_empty.
Qed.

Lemma last_other_shared (cs : list Cell) (b : CellBase) (e : Edge) :
  is_Some (last_other (cell_id b) (edge_cell_ids cs e))
  ↔ ∃ c, c ∈ cs ∧ cell_id (base c) ≠ cell_id b ∧ e ∈ edges (base c).
Proof.
  split.
  - intros [n Hn]. apply last_other_Some in Hn as [Hin Hne].
    apply edge_cell_ids_elem_iff in Hin as (c & Hc & Hid & He).
    exists c. split; [done |]. split; [congruence | done].
  - intros (c & Hc & Hne & He).
    destruct (last_other _ _) as [n |] eqn:El; [eauto |].
    exfalso. apply Hne.
    apply (last_other_None (cell_id b) (edge_cell_ids cs e)); [done |].
    apply edge_cell_ids_elem_iff. by exists c.
Qed.

Lemma neighbours_valid_in_range (cs : list Cell) :
  neighbours_valid cs → neighbours_in_range cs = true.
Proof.
  intros Hv. unfold neighbours_in_range. apply forallb_forall. intros c Hc.
  apply list_elem_of_In in Hc. apply forallb_forall. intros e He.
  destruct (neighbour_ids (base c) !! e) as [[n |] |] eqn:En; try done.
  apply bool_decide_eq_true.
  destruct (Hv c e n Hc En) as (c' & Hc' & _). by apply lookup_lt_Some in Hc'.
Qed.

Lemma solver_ok_ready (n : nat) (delta_t : R) (s s' : Simulation) :
  solver n delta_t s = Ok s' →
  n = 0 ∨ solver_ready (cells (sim_mesh s)) = true.
Proof.
  intros H. destruct n as [| n]; [by left | right].
  unfold solver in H. cbn [solver_loop] in H.
  rewrite solver_step_set_number in H.
  destruct (solver_step delta_t s) as [s1 |] eqn:E; [| done].
  apply solver_step_inv in E as (tmp & cs' & Hst & _ & _).
  by apply stage_ready in Hst.
Qed.

(** The cells of a created mesh after linking and [initial_conditions],
    cell by cell. *)
Lemma created_cells_initialized (m : Mesh) (bd : (R * R) * (R * R))
    (s1 : Simulation) :
  mesh_edges m = ∅ → fresh_ids (cells m) →
  initial_conditions
    (Simulation_init (assign_neighbours (build_topology m)) bd) = Ok s1 →
  Forall2 (fun c0 c1 =>
             match c0, c1 with
             | Triangle b0 t0, Triangle b1 t1 =>
                 edges b1 = edges b0 ∧ normals t1 = normals t0 ∧
                 ∀ e, e ∈ edges b0 →
                   is_Some (mean_flow t1 !! e) ∧
                   neighbour_ids b1 !! e
                   = Some (match last_other (cell_id b0)
                                   (edge_cell_ids (cells m) e) with
                           | Some n => NbId n
                           | None => NbEmpty
                           end)
             | Line _, Line _ => True
             | _, _ => False
             end)
          (cells m) (cells (sim_mesh s1)).
Proof.
  intros Hempty Hfresh Hi.
  pose proof (initial_conditions_cells_frame _ _ Hi) as Hf.
  assert (Hcs : cells (sim_mesh (Simulation_init
                  (assign_neighbours (build_topology m)) bd))
                = assigned_cell (mesh_edges (build_topology m)) <$> cells m)
    by apply once_cells.
  rewrite Hcs in Hf.
  apply Forall2_same_length_lookup_2.
  { rewrite <- (Forall2_length _ _ _ Hf). by rewrite length_fmap. }
  intros i c0 c1 H0 H1.
  assert (Hl : (assigned_cell (mesh_edges (build_topology m)) <$> cells m)
               !! i
               = Some (assigned_cell (mesh_edges (build_topology m)) c0))
    by by rewrite list_lookup_fmap, H0.
  pose proof (Forall2_lookup_lr _ _ _ _ _ _ Hf Hl H1) as Hcc.
  assert (Hc0 : c0 ∈ cells m) by by eapply list_elem_of_lookup_2.
  pose proof (linked_neighbour_lookup m c0) as Hlook.
  destruct c0 as [b0 t0 | b0]; simpl in Hcc; destruct c1 as [b1 t1 | b1];
    try done.
  destruct Hcc as (_ & _ & He & _ & _ & _ & Hn & _ & Hnb & _).
  simpl in He. split; [done |]. split; [done |].
  intros e Hin.
  destruct (initial_conditions_triangle _ s1 i
              (base (assigned_cell (mesh_edges (build_topology m))
                       (Triangle b0 t0))) t0 Hi)
    as (b' & t' & H1' & _ & _ & _ & _ & Hm).
  { rewrite Hcs. exact Hl. }
  rewrite H1 in H1'. injection H1' as <- <-.
  destruct (Hm e Hin) as (vs & _ & ->). split; [eauto |].
  rewrite Hnb. simpl. rewrite decide_True by done.
  specialize (Hlook e Hempty Hfresh Hc0). simpl in Hlook.
  rewrite decide_True in Hlook by done. rewrite Hlook.
  by destruct (last_other _ _).
Qed.

Lemma created_run_prepared (pts : list vec) (blocks : list CellBlock)
    (m : Mesh) (bd : (R * R) * (R * R)) :
  create_cells (read_mesh pts blocks Mesh_init) = Ok m →
  ∃ s1,
    initial_conditions
      (Simulation_init (assign_neighbours (build_topology m)) bd) = Ok s1 ∧
    prepared (cells (sim_mesh s1)) ∧
    ((∀ b t e, Triangle b t ∈ cells (sim_mesh s1) → e ∈ edges b →
               ∃ n, neighbour_ids b !! e = Some (NbId n))
     ↔ edges_shared (cells m)).
Proof.
  intros Hc. destruct (created_mesh _ _ _ Hc) as (Hempty & Hfresh & Hnorm).
  pose proof (link_neighbours_valid m Hempty Hfresh) as Hv.
  pose proof (assign_neighbours_ids_ok (build_topology m) (proj1 Hfresh))
    as Hids.
  destruct (initial_conditions_total
              (Simulation_init (assign_neighbours (build_topology m)) bd))
    as [s1 Hi]; [by apply neighbours_valid_in_range |].
  exists s1. split; [done |].
  pose proof (created_cells_initialized m bd s1 Hempty Hfresh Hi) as Hrel.
  split; [split; [| split] |].
  - eapply initial_conditions_ids_ok; [| exact Hi]. exact Hids.
  - eapply neighbours_valid_step;
      [apply initial_conditions_base; exact Hi |].
    exact Hv.
  - intros b1 t1 e Hc1 He. apply list_elem_of_lookup in Hc1 as [i H1].
    destruct (Forall2_lookup_r _ _ _ _ _ Hrel H1) as (c0 & H0 & Hcc).
    destruct c0 as [b0 t0 | b0]; [| done].
    destruct Hcc as (Hed & Hn & Hk). rewrite Hed in He.
    split; [| by apply Hk]. rewrite Hn. apply (Hnorm b0 t0); [| done].
    by eapply list_elem_of_lookup_2.
  - split.
    + intros H b0 t0 e Hc0 He. apply list_elem_of_lookup in Hc0 as [i H0].
      destruct (Forall2_lookup_l _ _ _ _ _ Hrel H0) as (c1 & H1 & Hcc).
      destruct c1 as [b1 t1 | b1]; [| done].
      destruct Hcc as (Hed & _ & Hk).
      destruct (H b1 t1 e) as [n Hn];
        [by eapply list_elem_of_lookup_2 | by rewrite Hed |].
      destruct (Hk e He) as [_ Hnb]. rewrite Hnb in Hn.
      apply last_other_shared.
      destruct (last_other _ _); [eauto | done].
    + intros H b1 t1 e Hc1 He. apply list_elem_of_lookup in Hc1 as [i H1].
      destruct (Forall2_lookup_r _ _ _ _ _ Hrel H1) as (c0 & H0 & Hcc).
      destruct c0 as [b0 t0 | b0]; [| done].
      destruct Hcc as (Hed & _ & Hk). rewrite Hed in He.
      destruct (Hk e He) as [_ Hnb].
      destruct (proj2 (last_other_shared (cells m) b0 e)) as [n Hn].
      { apply (H b0 t0); [by eapply list_elem_of_lookup_2 | done]. }
      exists n. by rewrite Hnb, Hn.
Qed.

(** How [run_config] ends, from the mesh data on and as far as mesh and
    simulation go.  If [create_cells] raises, the run ends with that
    exception.  Otherwise the run completes
    when there is no step to make or every edge of every Triangle is an
    edge of another cell too; and when a step is to be made and some
    Triangle has an edge that no other cell has, the run ends with
    [TypeError] in the solver: such an edge has no recorded neighbour, and
    the solver indexes the cell list with what it reads for it. *)
Theorem run_config_outcome (msh_points : list vec)
    (msh_cells : list CellBlock) (bd : (R * R) * (R * R)) (n : nat)
    (delta_t : R) :
  (∀ x, create_cells (read_mesh msh_points msh_cells Mesh_init) = Raise x →
        run_config msh_points msh_cells bd n delta_t = Raise x) ∧
  (∀ m, create_cells (read_mesh msh_points msh_cells Mesh_init) = Ok m →
        (n = 0 ∨ edges_shared (cells m) →
         ∃ s, run_config msh_points msh_cells bd n delta_t = Ok s) ∧
        (n ≠ 0 → ¬ edges_shared (cells m) →
         run_config msh_points msh_cells bd n delta_t = Raise TypeError)).
Proof.
  split.
  - intros x Hc. unfold run_config, setup_mesh. by rewrite Hc.
  - intros m Hc.
    destruct (created_run_prepared _ _ m bd Hc) as (s1 & Hi & Hp & Hiff).
    unfold run_config, setup_mesh. rewrite Hc. cbn [rbind].
    rewrite Hi. cbn [rbind]. split.
    + intros [-> | Hs]; [by eexists |].
      apply solver_total; [apply Hp |].
      apply prepared_ready; [done |]. by apply Hiff.
    + intros Hn Hs.
      destruct (solver n delta_t s1) as [s |] eqn:E.
      * exfalso. apply solver_ok_ready in E as [-> | Hr]; [done |].
        apply Hs, Hiff. by apply prepared_ready.
      * f_equal. apply solver_fails_in_stage in E; [| apply Hp].
        by eapply prepared_stage_raises.
Qed.

Lemma lone_create_cells :
  create_cells (read_mesh square_points lone_blocks Mesh_init)
  = Ok lone_created.
Proof.
  unfold create_cells, read_mesh, Mesh_init, lone_created.
  cbn [points cells mesh_cell_blocks mesh_edges].
  unfold lone_blocks. cbn [foldM block_type block_data].
  rewrite (decide_False (P := "triangle" = "vertex")) by done.
  unfold create_block_cells. cbn [foldM].
  change (cell_coords square_points [0; 1; 2])
    with (Ok (square_coords [0; 1; 2])).
  cbn [rbind]. unfold CellFactory_call.
  cbn [rec_type rec_id rec_nodes rec_coords].
  change (CellFactory_init !! "triangle") with (Some Triangle_init).
  cbn [of_option rbind length]. rewrite square_triangle0_init.
  reflexivity.
Qed.

Lemma run_config_outcome_witness :
  run_config square_points lone_blocks ((0, 1), (0, 1))%R 1 0.01%R
  = Raise TypeError.
Proof.
  apply (proj2 (proj2 (run_config_outcome square_points lone_blocks
                         ((0, 1), (0, 1))%R 1 0.01%R)
                  lone_created lone_create_cells)).
  - lia.
  - intros H.
    destruct (H (mkCellBase 0 [0; 1; 2] [(0, 1); (1, 2); (0, 2)]
                   (square_coords [0; 1; 2]) ∅)
                (match square_triangle 0 [0; 1; 2] [(0, 1); (1, 2); (0, 2)]
                 with
                 | Triangle _ t => t
                 | Line _ => mkTriangleData (0, 0)%R ∅ 0%R ∅ 0%R
                 end)
                (0, 1)) as (c & Hc & Hne & _).
    + left.
    + left.
    + apply list_elem_of_singleton in Hc. subst c. by apply Hne.
Defined.

(** ** The solver is homogeneous in the concentrations *)

Lemma oil_velocity_scale (outer_normal mean_flow : vec) (k c cn : R) :
  oil_velocity outer_normal mean_flow (k * c) (k * cn)
  = (k * oil_velocity outer_normal mean_flow c cn)%R.
Proof. unfold oil_velocity. destruct (Rgtb _ 0); ring. Qed.

Lemma scaled_lookup (k : R) (cs1 cs2 : list Cell) (i : nat) :
  Forall2 (scaled k) cs1 cs2 →
  match cs1 !! i, cs2 !! i with
  | Some (Triangle b1 t1), Some (Triangle b2 t2) =>
      b2 = b1 ∧ center_point t2 = center_point t1 ∧ area t2 = area t1 ∧
      normals t2 = normals t1 ∧ mean_flow t2 = mean_flow t1 ∧
      concentration t2 = (k * concentration t1)%R
  | Some (Line b1), Some (Line b2) => b2 = b1
  | None, None => True
  | _, _ => False
  end.
Proof.
  intros Hf. destruct (cs1 !! i) as [c1 |] eqn:E1.
  - destruct (Forall2_lookup_l _ _ _ _ _ Hf E1) as (c2 & -> & Hs & Hc).
    destruct c1 as [b1 t1 | b1], c2 as [b2 t2 | b2]; simpl in Hs; try done.
    tauto.
  - apply lookup_ge_None in E1. rewrite (Forall2_length _ _ _ Hf) in E1.
    apply lookup_ge_None in E1. by rewrite E1.
Qed.

Lemma scaled_edge_fluxes (k : R) (cs1 cs2 : list Cell) (b : CellBase)
    (t1 t2 : TriangleData) :
  Forall2 (scaled k) cs1 cs2 →
  normals t2 = normals t1 → mean_flow t2 = mean_flow t1 →
  concentration t2 = (k * concentration t1)%R →
  spec_edge_fluxes cs2 b t2
  = (fun x => (k * x)%R) <$> spec_edge_fluxes cs1 b t1.
Proof.
  intros Hf Hn Hm Hc. unfold spec_edge_fluxes.
  induction (edges b) as [| e es IH]; [done |].
  cbn [omap list_omap]. rewrite IH. clear IH.
  unfold neighbour_triangle. rewrite Hn, Hm, Hc.
  destruct (neighbour_ids b !! e) as [[n |] |]; simpl; try done.
  pose proof (scaled_lookup k cs1 cs2 n Hf) as Hl.
  destruct (cs1 !! n) as [[bn1 tn1 | bn1] |],
           (cs2 !! n) as [[bn2 tn2 | bn2] |]; simpl; try done.
  destruct Hl as (_ & _ & _ & _ & _ & ->).
  destruct (normals t1 !! e) as [v |]; simpl; [| done].
  destruct (mean_flow t1 !! e) as [w |]; simpl; [| done].
  by rewrite oil_velocity_scale.
Qed.

Lemma sum_R_scale (k : R) (xs : list R) :
  sum_R ((fun x => (k * x)%R) <$> xs) = (k * sum_R xs)%R.
Proof.
  induction xs as [| x xs IH]; [simpl; lra |].
  rewrite fmap_cons, !sum_R_cons, IH. lra.
Qed.

Lemma scaled_committed (k delta_t : R) (cs1 cs2 : list Cell) :
  Forall2 (scaled k) cs1 cs2 →
  Forall2 (scaled k) (committed delta_t cs1) (committed delta_t cs2).
Proof.
  intros Hf. unfold committed. apply Forall2_fmap.
  eapply Forall2_impl; [exact Hf |].
  intros c1 c2 [Hs Hc].
  destruct c1 as [b1 t1 | b1], c2 as [b2 t2 | b2]; simpl in Hs; try done.
  destruct Hs as (-> & Hcp & Ha & Hn & Hm).
  split; [done |]. simpl. unfold spec_new_concentration.
  rewrite (scaled_edge_fluxes k cs1 cs2 b1 t1 t2 Hf Hn Hm Hc).
  rewrite sum_R_scale, Ha, Hc. unfold Rdiv. ring.
Qed.

Lemma scaled_region_total (k : R) (bd : (R * R) * (R * R))
    (cs1 cs2 : list Cell) :
  Forall2 (scaled k) cs1 cs2 →
  spec_region_total bd cs2 = (k * spec_region_total bd cs1)%R.
Proof.
  intros Hf. rewrite <- !total_oil_spec. unfold total_oil.
  rewrite !py_sum_sum_R, <- sum_R_scale. f_equal.
  induction Hf as [| c1 c2 l1 l2 [Hs Hc] _ IH]; [done |].
  destruct c1 as [b1 t1 | b1], c2 as [b2 t2 | b2]; simpl in Hs; try done.
  destruct Hs as (_ & Hcp & Ha & _ & _).
  cbn [fishing_grounds_terms omap list_omap]. rewrite Hcp, Ha, Hc.
  fold (fishing_grounds_terms bd l1). fold (fishing_grounds_terms bd l2).
  destruct (in_fishing_grounds bd (center_point t1)); [| exact IH].
  rewrite fmap_cons, IH. f_equal. ring.
Qed.

Lemma scaled_frames (k : R) (cs1 cs2 : list Cell) :
  Forall2 (scaled k) cs1 cs2 → Forall2 same_frame cs1 cs2.
Proof. intros Hf. eapply Forall2_impl; [exact Hf |]. by intros c1 c2 []. Qed.

Lemma solver_step_committed (delta_t : R) (s s' : Simulation) :
  ids_ok (cells (sim_mesh s)) → solver_step delta_t s = Ok s' →
  cells (sim_mesh s') = committed delta_t (cells (sim_mesh s)) ∧
  borders s' = borders s ∧
  oil_in_fishing_grounds s'
  = oil_in_fishing_grounds s
    ++ [spec_region_total (borders s)
          (committed delta_t (cells (sim_mesh s)))].
Proof.
  intros Hids H. apply solver_step_inv in H as (tmp & cs' & Hst & Hc & ->).
  rewrite <- (commit_spec _ _ _ _ Hids Hst Hc). simpl.
  by rewrite total_oil_spec.
Qed.

Lemma solver_loop_scaled (n : nat) (delta_t k : R) :
  ∀ s1 s2 s1' : Simulation,
    ids_ok (cells (sim_mesh s1)) → borders s2 = borders s1 →
    Forall2 (scaled k) (cells (sim_mesh s1)) (cells (sim_mesh s2)) →
    solver_loop n delta_t s1 = Ok s1' →
    ∃ s2' l,
      solver_loop n delta_t s2 = Ok s2' ∧
      Forall2 (scaled k) (cells (sim_mesh s1')) (cells (sim_mesh s2')) ∧
      oil_in_fishing_grounds s1' = oil_in_fishing_grounds s1 ++ l ∧
      oil_in_fishing_grounds s2'
      = oil_in_fishing_grounds s2 ++ ((fun x => (k * x)%R) <$> l).
Proof.
  induction n as [| n IH]; intros s1 s2 s1' Hids Hb Hf H; simpl in H.
  - inversion H; subst. exists s2, []. by rewrite !app_nil_r.
  - destruct (solver_step delta_t s1) as [s1a |] eqn:E1; [| done].
    simpl in H.
    pose proof (scaled_frames _ _ _ Hf) as Hfr.
    assert (Hids2 : ids_ok (cells (sim_mesh s2))) by by eapply ids_ok_frame.
    assert (Hr2 : solver_ready (cells (sim_mesh s2)) = true).
    { eapply solver_ready_frame; [exact Hfr |].
      apply solver_step_inv in E1 as (tmp & cs' & Hst & _).
      by apply stage_ready in Hst. }
    destruct (solver_step_total delta_t s2 Hids2 Hr2) as [s2a E2].
    destruct (solver_step_committed _ _ _ Hids E1) as (C1 & B1 & O1).
    destruct (solver_step_committed _ _ _ Hids2 E2) as (C2 & B2 & O2).
    pose proof (scaled_committed k delta_t _ _ Hf) as Hfa.
    destruct (IH s1a s2a s1') as (s2' & l & Hl & Hf' & Ho1 & Ho2);
      [| congruence | by rewrite C1, C2 | done |].
    { rewrite C1. eapply ids_ok_frame; [| exact Hids].
      apply solver_step_inv in E1 as (tmp & cs' & Hst & Hc & _).
      rewrite <- (commit_spec _ _ _ _ Hids Hst Hc).
      by eapply commit_frame. }
    exists s2', (spec_region_total (borders s1)
                   (committed delta_t (cells (sim_mesh s1))) :: l).
    cbn [solver_loop]. rewrite E2. cbn [rbind].
    split; [done |]. split; [done |].
    rewrite Ho1, Ho2, O1, O2, <- !app_assoc, Hb. simpl.
    by rewrite (scaled_region_total k (borders s1) _ _ Hfa).
Qed.

(** The solver is homogeneous in the concentrations: from a state that
    differs from another only in that every concentration is [k] times as
    large, a run that completes on the one completes on the other, with
    every concentration and every value appended to the series [k] times
    as large. *)
Theorem solver_homogeneous (n : nat) (delta_t k : R)
    (s1 s2 s1' : Simulation) :
  ids_ok (cells (sim_mesh s1)) → borders s2 = borders s1 →
  Forall2 (scaled k) (cells (sim_mesh s1)) (cells (sim_mesh s2)) →
  solver n delta_t s1 = Ok s1' →
  ∃ s2' l,
    solver n delta_t s2 = Ok s2' ∧
    Forall2 (scaled k) (cells (sim_mesh s1')) (cells (sim_mesh s2')) ∧
    oil_in_fishing_grounds s1' = oil_in_fishing_grounds s1 ++ l ∧
    oil_in_fishing_grounds s2'
    = oil_in_fishing_grounds s2 ++ ((fun x => (k * x)%R) <$> l).
Proof.
  intros Hids Hb Hf H. unfold solver in *.
  by apply (solver_loop_scaled n delta_t k
              (set_number_of_steps s1 n) (set_number_of_steps s2 n) s1').
Qed.

Lemma scaled_scale_concentration (k : R) (cs : list Cell) :
  Forall2 (scaled k) cs (scale_concentration k <$> cs).
Proof.
  induction cs as [| c cs IH]; [constructor |].
  rewrite fmap_cons. constructor; [| exact IH]. by destruct c.
Qed.

Lemma solver_homogeneous_witness :
  ∃ s2' l,
    solver 3 0.01%R square_doubled = Ok s2' ∧
    Forall2 (scaled 2) (cells (sim_mesh (square_after 3)))
            (cells (sim_mesh s2')) ∧
    oil_in_fishing_grounds (square_after 3)
    = oil_in_fishing_grounds square_initialized ++ l ∧
    oil_in_fishing_grounds s2'
    = oil_in_fishing_grounds square_doubled ++ ((fun x => (2 * x)%R) <$> l).
Proof.
  exact (solver_homogeneous 3 0.01%R 2 square_initialized square_doubled
           (square_after 3) square_ids_ok eq_refl
           (scaled_scale_concentration 2 _) (square_solver 3)).
Defined.

(** ** The flow field *)

Lemma mean_flow_two (p q : vec) :
  np_mean_axis0 [compute_flow_field p; compute_flow_field q]
  = compute_flow_field (vdiv (vadd p q) 2).
Proof.
  rewrite np_mean_axis0_two. unfold compute_flow_field, vdiv, vadd. simpl.
  f_equal; field.
Qed.

(** [compute_flow_field] is a linear map of the plane that vanishes at the
    origin only.  So the average that [initial_conditions] stores as mean
    flow of an edge between two Triangles (the neighbour's id not being 0)
    is the flow at the point half-way between the two centres. *)
Theorem compute_flow_field_linear :
  (∀ p q, compute_flow_field (vadd p q)
          = vadd (compute_flow_field p) (compute_flow_field q)) ∧
  (∀ p k, compute_flow_field (vscale p k)
          = vscale (compute_flow_field p) k) ∧
  (∀ p, compute_flow_field p = (0, 0)%R ↔ p = (0, 0)%R) ∧
  (∀ (s s' : Simulation) (i n : nat) (b bn : CellBase)
     (t tn : TriangleData) (e : Edge),
     initial_conditions s = Ok s' →
     cells (sim_mesh s) !! i = Some (Triangle b t) →
     e ∈ edges b →
     neighbour_ids b !! e = Some (NbId (S n)) →
     cells (sim_mesh s) !! S n = Some (Triangle bn tn) →
     ∃ b' t',
       cells (sim_mesh s') !! i = Some (Triangle b' t') ∧
       mean_flow t' !! e
       = Some (compute_flow_field
                 (vdiv (vadd (center_point t) (center_point tn)) 2))).
Proof.
  split; [| split; [| split]].
  - intros p q. unfold compute_flow_field, vadd. simpl. f_equal; ring.
  - intros p k. unfold compute_flow_field, vscale. simpl. f_equal; ring.
  - intros [x y]. unfold compute_flow_field. simpl. split.
    + intros H. injection H as H1 H2. f_equal; lra.
    + intros H. injection H as -> ->. f_equal; lra.
  - intros s s' i n b bn t tn e Hi Hc He Hn Hcn.
    destruct (initial_conditions_triangle s s' i b t Hi Hc)
      as (b' & t' & Hc' & _ & _ & _ & _ & Hm).
    destruct (Hm e He) as (vs & Hvs & Hmf).
    exists b', t'. split; [done |].
    rewrite Hn in Hvs. unfold edge_vectors in Hvs. rewrite Hcn in Hvs.
    injection Hvs as <-. by rewrite Hmf, mean_flow_two.
Qed.

Lemma compute_flow_field_linear_witness :
  ∃ b' t',
    cells (sim_mesh bordered_initialized) !! 4 = Some (Triangle b' t') ∧
    mean_flow t' !! (0, 2)
    = Some (compute_flow_field
              (vdiv (vadd (compute_center_point (square_coords [0; 1; 2]))
                          (compute_center_point (square_coords [0; 2; 3])))
                    2)).
Proof.
  destruct bordered_cell4 as (b & t & H4 & E4 & _ & _ & N & C & _).
  destruct bordered_cell5 as (bn & tn & H5 & _ & _ & _ & _ & Cn & _).
  assert (Hin : (0, 2) ∈ edges b) by (rewrite E4; right; right; left).
  destruct (proj2 (proj2 (proj2 compute_flow_field_linear))
              bordered_sim bordered_initialized 4 4 b bn t tn (0, 2)
              bordered_initial_conditions H4 Hin N H5)
    as (b' & t' & Hc' & Hmf).
  exists b', t'. split; [exact Hc' |].
  rewrite Hmf, C, Cn. reflexivity.
Defined.
